(** * podcast-jingle: the procedural synthesizer and the tempo clamp

    A shallow embedding of [src/lib/audioSynth.ts] (style profiles, the
    arrangement loops of [playJingle], the session lifecycle around
    [activeCtx], the waveform preview) and of the tempo clamp and the text
    handling of [src/lib/gemini.ts], with the properties the specification
    states about them.

    The engine is embedded twice.

    [AudioSynth], [Arrangement] and [VoiceGraph] hold the structure of a
    session: which notes, percussion triggers and gain writes a call of
    [playJingle] issues, in which order, on which context.  There a number
    is an exact rational extended with [+Infinity], [-Infinity] and [NaN]
    ([JsNum]), rounding is left out, [-0] is identified with [0], and the
    Web Audio API never refuses a call.  The properties stated over these
    modules do not depend on rounding nor on a call being refused.

    [Binary64] and [AudioSynth64] hold the arithmetic and the failures: a
    number is an IEEE 754 binary64 value ([SpecFloat] at precision 53) with
    every operation rounded, signed zeros, and a loop counter that stops
    growing at 2^53; the calls of the API that take a time throw as the API
    does, and a call of [playJingle] returns, throws or never returns.  The
    bar count and what is stated of degenerate tempos are proved there.

    The results of [Math.random()] are an arbitrary sequence [rnd] read
    through a cursor; [Math.sin] is an arbitrary function on rationals.
    [toLowerCase] is written out for ASCII text ([JsString]) and left open
    for any other ([AnyCase]).  In both embeddings a context records what
    is scheduled on it and [close()] takes effect at once; the audio nodes
    themselves are outside the model. *)

From Stdlib Require Import QArith Qround Qabs Lqa ZArith Lia Bool.
From Stdlib Require Import String Ascii.
From Stdlib Require Import SpecFloat.
From stdpp Require Import base option list.

Local Open Scope Q_scope.

(** ** JavaScript numbers *)

Module JsNum.

Inductive num : Type :=
| Fin (q : Q)
| PInf
| NInf
| NaN.

Definition of_nat (n : nat) : num := Fin (inject_Z (Z.of_nat n)).
Definition of_Z (z : Z) : num := Fin (inject_Z z).
Definition of_N (n : N) : num := Fin (inject_Z (Z.of_N n)).

(** [a < b] on rationals, as a boolean. *)
Definition Qltb (a b : Q) : bool := negb (Qle_bool b a).

(** The sign of a rational picks the infinity a product or quotient
    overflows to; a zero factor gives [NaN]. *)
Definition signed_inf (q : Q) : num :=
  if Qltb 0 q then PInf else if Qltb q 0 then NInf else NaN.

Definition neg (a : num) : num :=
  match a with
  | Fin q => Fin (- q)
  | PInf => NInf
  | NInf => PInf
  | NaN => NaN
  end.

Definition add (a b : num) : num :=
  match a, b with
  | NaN, _ | _, NaN => NaN
  | Fin x, Fin y => Fin (x + y)
  | PInf, NInf | NInf, PInf => NaN
  | PInf, _ | _, PInf => PInf
  | NInf, _ | _, NInf => NInf
  end.

Definition sub (a b : num) : num := add a (neg b).

Definition mul (a b : num) : num :=
  match a, b with
  | NaN, _ | _, NaN => NaN
  | Fin x, Fin y => Fin (x * y)
  | Fin x, PInf | PInf, Fin x => signed_inf x
  | Fin x, NInf | NInf, Fin x => signed_inf (- x)
  | PInf, PInf | NInf, NInf => PInf
  | PInf, NInf | NInf, PInf => NInf
  end.

Definition div (a b : num) : num :=
  match a, b with
  | NaN, _ | _, NaN => NaN
  | Fin x, Fin y => if Qeq_bool y 0 then signed_inf x else Fin (x / y)
  | Fin _, PInf | Fin _, NInf => Fin 0
  | PInf, Fin y => if Qltb y 0 then NInf else PInf
  | NInf, Fin y => if Qltb y 0 then PInf else NInf
  | PInf, PInf | PInf, NInf | NInf, PInf | NInf, NInf => NaN
  end.

(** The [%] operator: the remainder has the sign of the dividend. *)
Definition Qtrunc (q : Q) : Z := if Qltb q 0 then Qceiling q else Qfloor q.

Definition rem (a b : num) : num :=
  match a, b with
  | Fin x, Fin y =>
      if Qeq_bool y 0 then NaN else Fin (x - y * inject_Z (Qtrunc (x / y)))
  | Fin x, PInf | Fin x, NInf => Fin x
  | _, _ => NaN
  end.

(** The relational operators are false as soon as an operand is [NaN]. *)
Definition lt (a b : num) : bool :=
  match a, b with
  | NaN, _ | _, NaN => false
  | Fin x, Fin y => Qltb x y
  | _, NInf => false
  | NInf, _ => true
  | PInf, _ => false
  | Fin _, PInf => true
  end.

Definition ge (a b : num) : bool :=
  match a, b with
  | NaN, _ | _, NaN => false
  | _, _ => negb (lt a b)
  end.

(** Truthiness of a number, as [||] and [if] test it. *)
Definition truthy (a : num) : bool :=
  match a with
  | Fin q => negb (Qeq_bool q 0)
  | PInf | NInf => true
  | NaN => false
  end.

(** [a || b] on numbers. *)
Definition or_else (a b : num) : num := if truthy a then a else b.

Definition Math_floor (a : num) : num :=
  match a with
  | Fin q => Fin (inject_Z (Qfloor q))
  | _ => a
  end.

(** [Math.round] rounds to the nearest integer, a tie going up. *)
Definition Math_round (a : num) : num :=
  match a with
  | Fin q => Fin (inject_Z (Qfloor (q + (1 # 2))))
  | _ => a
  end.

Definition Math_abs (a : num) : num :=
  match a with
  | Fin q => Fin (Qabs q)
  | PInf | NInf => PInf
  | NaN => NaN
  end.

Definition Math_max (a b : num) : num :=
  match a, b with
  | NaN, _ | _, NaN => NaN
  | _, _ => if lt a b then b else a
  end.

Definition Math_min (a b : num) : num :=
  match a, b with
  | NaN, _ | _, NaN => NaN
  | _, _ => if lt b a then b else a
  end.

(** Reading a number as an array index: [Some i] for the integer [i >= 0]. *)
Definition to_index (a : num) : option nat :=
  match a with
  | Fin q =>
      if Qeq_bool q (inject_Z (Qfloor q)) && negb (Qltb q 0)
      then Some (Z.to_nat (Qfloor q)) else None
  | _ => None
  end.

(** [arr[i]] on an array of numbers; a missing element is [undefined],
    which every use below would read as [NaN]. *)
Definition get (arr : list num) (i : num) : num :=
  match to_index i with
  | Some k => nth k arr NaN
  | None => NaN
  end.

(** The number of iterations of [for (let i = 0; i < n; i++)], [None] when
    the loop never ends. *)
Definition loop_count (n : num) : option nat :=
  match n with
  | Fin q => Some (Z.to_nat (Qceiling q))
  | PInf => None
  | NInf | NaN => Some 0%nat
  end.

End JsNum.

(** ** Strings: [toLowerCase] and [includes] *)

Module JsString.

Local Open Scope string_scope.

(** [toLowerCase] on one character: the letters [A]..[Z] move to [a]..[z]. *)
Definition lower_ascii (c : ascii) : ascii :=
  let n := N_of_ascii c in
  if ((65 <=? n)%N && (n <=? 90)%N)%bool then ascii_of_N (n + 32) else c.

Fixpoint toLowerCase (s : string) : string :=
  match s with
  | EmptyString => EmptyString
  | String c s' => String (lower_ascii c) (toLowerCase s')
  end.

(** [starts_with s kw]: [kw] is read at the start of [s]. *)
Fixpoint starts_with (s kw : string) {struct kw} : bool :=
  match kw, s with
  | EmptyString, _ => true
  | String _ _, EmptyString => false
  | String k kw', String c s' => Ascii.eqb c k && starts_with s' kw'
  end.

(** [s.includes(kw)]: [kw] is read at some position of [s]. *)
Fixpoint includes (s kw : string) : bool :=
  if starts_with s kw then true
  else match s with
       | EmptyString => false
       | String _ s' => includes s' kw
       end.

(** [kw] occurs in [s] up to the case of the letters of [s]. *)
Definition occurs_ignoring_case (kw s : string) : Prop :=
  exists a w b, s = a ++ w ++ b /\ toLowerCase w = kw.

(** A text of ASCII characters only: every code is below 128. *)
Fixpoint is_ascii (s : string) : bool :=
  match s with
  | EmptyString => true
  | String c s' => (N_of_ascii c <? 128)%N && is_ascii s'
  end.

End JsString.

(** ** Style profiles *)

Module Style.

Import JsNum JsString.

(** [OscillatorType] of the Web Audio API. *)
Inductive WaveType : Type := sine | square | sawtooth | triangle | custom.

(** The keys of the [NOTE_FREQS] table. *)
Module Note.
Inductive name : Type :=
| C3 | D3 | E3 | F3 | G3 | A3 | B3
| C4 | D4 | E4 | F4 | G4 | A4 | B4
| C5 | D5 | E5 | G5 | A5.
End Note.

Definition NOTE_FREQS (n : Note.name) : num :=
  Fin match n with
      | Note.C3 => 130.81 | Note.D3 => 146.83 | Note.E3 => 164.81
      | Note.F3 => 174.61 | Note.G3 => 196.0 | Note.A3 => 220.0
      | Note.B3 => 246.94
      | Note.C4 => 261.63 | Note.D4 => 293.66 | Note.E4 => 329.63
      | Note.F4 => 349.23 | Note.G4 => 392.0 | Note.A4 => 440.0
      | Note.B4 => 493.88
      | Note.C5 => 523.25 | Note.D5 => 587.33 | Note.E5 => 659.25
      | Note.G5 => 783.99 | Note.A5 => 880.0
      end.

Record StyleProfile : Type := {
  scale : list num;
  wave : WaveType;
  bassWave : WaveType;
  reverbAmount : num
}.

Definition getStyleProfile (style tone : string) : StyleProfile :=
  let combined := toLowerCase (style ++ " " ++ tone)%string in
  if includes combined "dark" || includes combined "crime"
     || includes combined "serious" then
    {| scale := [NOTE_FREQS Note.C4; NOTE_FREQS Note.D4; NOTE_FREQS Note.F4;
                 NOTE_FREQS Note.G4; NOTE_FREQS Note.A4];
       wave := sawtooth;
       bassWave := square;
       reverbAmount := Fin 0.6 |}
  else if includes combined "jazz" || includes combined "lo-fi"
          || includes combined "chill" then
    {| scale := [NOTE_FREQS Note.C4; NOTE_FREQS Note.E4; NOTE_FREQS Note.G4;
                 NOTE_FREQS Note.A4; NOTE_FREQS Note.B4];
       wave := sine;
       bassWave := sine;
       reverbAmount := Fin 0.7 |}
  else if includes combined "energetic" || includes combined "upbeat"
          || includes combined "pop" then
    {| scale := [NOTE_FREQS Note.C4; NOTE_FREQS Note.D4; NOTE_FREQS Note.E4;
                 NOTE_FREQS Note.G4; NOTE_FREQS Note.A4; NOTE_FREQS Note.C5];
       wave := square;
       bassWave := sawtooth;
       reverbAmount := Fin 0.3 |}
  else if includes combined "techno" || includes combined "electronic"
          || includes combined "cyber" then
    {| scale := [NOTE_FREQS Note.C4; NOTE_FREQS Note.D4; NOTE_FREQS Note.F4;
                 NOTE_FREQS Note.G4; NOTE_FREQS Note.A4];
       wave := sawtooth;
       bassWave := sawtooth;
       reverbAmount := Fin 0.4 |}
  else
    (* Default: professional/neutral *)
    {| scale := [NOTE_FREQS Note.C4; NOTE_FREQS Note.E4; NOTE_FREQS Note.G4;
                 NOTE_FREQS Note.A4; NOTE_FREQS Note.C5];
       wave := sine;
       bassWave := triangle;
       reverbAmount := Fin 0.45 |}.

(** *** The resolver as the specification words it

    An ordered list of keyword groups, each with its profile; the first
    group one of whose keywords occurs in the lower-cased text wins, and the
    default profile is returned when none does. *)

Definition dark_profile : StyleProfile :=
  {| scale := [Fin 261.63; Fin 293.66; Fin 349.23; Fin 392.0; Fin 440.0];
     wave := sawtooth; bassWave := square; reverbAmount := Fin 0.6 |}.

Definition jazz_profile : StyleProfile :=
  {| scale := [Fin 261.63; Fin 329.63; Fin 392.0; Fin 440.0; Fin 493.88];
     wave := sine; bassWave := sine; reverbAmount := Fin 0.7 |}.

Definition energetic_profile : StyleProfile :=
  {| scale := [Fin 261.63; Fin 293.66; Fin 329.63; Fin 392.0; Fin 440.0;
               Fin 523.25];
     wave := square; bassWave := sawtooth; reverbAmount := Fin 0.3 |}.

Definition techno_profile : StyleProfile :=
  {| scale := [Fin 261.63; Fin 293.66; Fin 349.23; Fin 392.0; Fin 440.0];
     wave := sawtooth; bassWave := sawtooth; reverbAmount := Fin 0.4 |}.

Definition default_profile : StyleProfile :=
  {| scale := [Fin 261.63; Fin 329.63; Fin 392.0; Fin 440.0; Fin 523.25];
     wave := sine; bassWave := triangle; reverbAmount := Fin 0.45 |}.

Definition keyword_groups : list (list string * StyleProfile) :=
  [ (["dark"; "crime"; "serious"], dark_profile);
    (["jazz"; "lo-fi"; "chill"], jazz_profile);
    (["energetic"; "upbeat"; "pop"], energetic_profile);
    (["techno"; "electronic"; "cyber"], techno_profile) ]%string.

Definition group_matches (text : string) (g : list string * StyleProfile) : bool :=
  existsb (includes text) (fst g).

Definition resolve_first_match (text : string) : StyleProfile :=
  match find (group_matches text) keyword_groups with
  | Some g => snd g
  | None => default_profile
  end.

(** The invariant the data model asks of a profile. *)
Definition profile_ok (p : StyleProfile) : Prop :=
  (5 <= length (scale p))%nat /\
  exists r, reverbAmount p = Fin r /\ 0 <= r <= 1.

End Style.

(** ** The resolver on any text

    [Style.getStyleProfile] lower-cases the letters [A] to [Z] only, which
    is what JavaScript's [toLowerCase] does on ASCII text.  On other text
    [toLowerCase] follows the Unicode case mappings, which are not
    reproduced here: below, the resolver is written over [toLowerCase] as a
    function left open.  A string stands for a JavaScript string through an
    encoding that keeps ASCII characters as they are and uses no code below
    128 for the others (UTF-8), so that appending and the search for an
    ASCII keyword are those of the source. *)

Module AnyCase.

Import JsNum JsString Style.

Section CaseMapping.

(** [String.prototype.toLowerCase] *)
Variable toLowerCase : string -> string.

Definition getStyleProfile (style tone : string) : StyleProfile :=
  let combined := toLowerCase (style ++ " " ++ tone)%string in
  if includes combined "dark" || includes combined "crime"
     || includes combined "serious" then
    {| scale := [NOTE_FREQS Note.C4; NOTE_FREQS Note.D4; NOTE_FREQS Note.F4;
                 NOTE_FREQS Note.G4; NOTE_FREQS Note.A4];
       wave := sawtooth;
       bassWave := square;
       reverbAmount := Fin 0.6 |}
  else if includes combined "jazz" || includes combined "lo-fi"
          || includes combined "chill" then
    {| scale := [NOTE_FREQS Note.C4; NOTE_FREQS Note.E4; NOTE_FREQS Note.G4;
                 NOTE_FREQS Note.A4; NOTE_FREQS Note.B4];
       wave := sine;
       bassWave := sine;
       reverbAmount := Fin 0.7 |}
  else if includes combined "energetic" || includes combined "upbeat"
          || includes combined "pop" then
    {| scale := [NOTE_FREQS Note.C4; NOTE_FREQS Note.D4; NOTE_FREQS Note.E4;
                 NOTE_FREQS Note.G4; NOTE_FREQS Note.A4; NOTE_FREQS Note.C5];
       wave := square;
       bassWave := sawtooth;
       reverbAmount := Fin 0.3 |}
  else if includes combined "techno" || includes combined "electronic"
          || includes combined "cyber" then
    {| scale := [NOTE_FREQS Note.C4; NOTE_FREQS Note.D4; NOTE_FREQS Note.F4;
                 NOTE_FREQS Note.G4; NOTE_FREQS Note.A4];
       wave := sawtooth;
       bassWave := sawtooth;
       reverbAmount := Fin 0.4 |}
  else
    (* Default: professional/neutral *)
    {| scale := [NOTE_FREQS Note.C4; NOTE_FREQS Note.E4; NOTE_FREQS Note.G4;
                 NOTE_FREQS Note.A4; NOTE_FREQS Note.C5];
       wave := sine;
       bassWave := triangle;
       reverbAmount := Fin 0.45 |}.

End CaseMapping.

End AnyCase.

(** ** The synthesizer: [audioSynth.ts] *)

Module AudioSynth.

Import JsNum JsString.
Export Style.

Record NoteEvent : Type := {
  time : num;
  freq : num;
  duration : num;
  wave : WaveType;
  gain : num;
  detune : option num
}.

(** The nodes of the audio graph that calls are addressed to. *)
Inductive Node : Type := masterGain | dryGain | wetGain | drumBus.

(** A percussion call: [scheduleKick], [scheduleSnare] or [scheduleHihat]
    with its [time] argument (and [open] for the hi-hat). *)
Inductive DrumHit : Type :=
| Kick (t : num)
| Snare (t : num)
| Hihat (t : num) (open : bool).

(** Writes to the [gain] parameter of a node; times are offsets from the
    [ctx.currentTime] read while [playJingle] runs. *)
Inductive ParamEvent : Type :=
| SetValue (v : num)
| SetValueAtTime (v t : num)
| LinearRampToValueAtTime (v t : num).

Inductive ContextState : Type := running | closed.

(** An [AudioContext] as the synthesizer uses it: its state and the calls
    made on it, in order.  The oscillator, filter and buffer nodes each
    call builds are not modelled. *)
Record AudioContext : Type := {
  state : ContextState;
  sampleRate : N;
  voices : list (Node * NoteEvent);
  drums : list (Node * DrumHit);
  gains : list (Node * ParamEvent)
}.

(** A context being set up, with the cursor into the random sequence. *)
Record Build : Type := {
  ctx : AudioContext;
  cursor : N
}.

Definition with_voice (v : Node * NoteEvent) (c : AudioContext) : AudioContext :=
  {| state := state c; sampleRate := sampleRate c;
     voices := voices c ++ [v]; drums := drums c; gains := gains c |}.

Definition with_drum (d : Node * DrumHit) (c : AudioContext) : AudioContext :=
  {| state := state c; sampleRate := sampleRate c;
     voices := voices c; drums := drums c ++ [d]; gains := gains c |}.

Definition with_gain (g : Node * ParamEvent) (c : AudioContext) : AudioContext :=
  {| state := state c; sampleRate := sampleRate c;
     voices := voices c; drums := drums c; gains := gains c ++ [g] |}.

Definition close (c : AudioContext) : AudioContext :=
  {| state := closed; sampleRate := sampleRate c;
     voices := voices c; drums := drums c; gains := gains c |}.

(** [for (let i = 0; i < n; i++) body], threading the state. *)
Definition for_range {S : Type} (n : nat) (body : nat -> S -> S) (s : S) : S :=
  fold_left (fun acc i => body i acc) (seq 0 n) s.

(** The draws a loop [for (let i = 0; i < len; i++) data[i] = Math.random()...]
    takes from the random sequence. *)
Definition draws (len : num) : N :=
  match len with
  | Fin q => Z.to_N (Qceiling q)
  | _ => 0%N
  end.

Definition skip_draws (n : N) (s : Build) : Build :=
  {| ctx := ctx s; cursor := (cursor s + n)%N |}.

Section Synth.

(** The successive results of [Math.random()]. *)
Variable rnd : N -> Q.

Definition Math_random (s : Build) : num * Build :=
  (Fin (rnd (cursor s)), {| ctx := ctx s; cursor := N.succ (cursor s) |}).

(** [createReverb] fills two channels of [sampleRate * duration] samples
    with scaled random values; only the draws are kept here. *)
Definition createReverb (duration decay : num) (s : Build) : Build :=
  let length := mul (of_N (sampleRate (ctx s))) duration in
  for_range 2 (fun ch => skip_draws (draws length)) s.

Definition scheduleNote (destination : Node) (event : NoteEvent) (s : Build) : Build :=
  {| ctx := with_voice (destination, event) (ctx s); cursor := cursor s |}.

Definition scheduleKick (destination : Node) (t : num) (s : Build) : Build :=
  {| ctx := with_drum (destination, Kick t) (ctx s); cursor := cursor s |}.

Definition scheduleSnare (destination : Node) (t : num) (s : Build) : Build :=
  let bufLen := mul (of_N (sampleRate (ctx s))) (Fin 0.12) in
  let s := skip_draws (draws bufLen) s in
  {| ctx := with_drum (destination, Snare t) (ctx s); cursor := cursor s |}.

Definition scheduleHihat (destination : Node) (t : num) (open : bool) (s : Build) : Build :=
  let bufLen :=
    mul (of_N (sampleRate (ctx s))) (if open then Fin 0.3 else Fin 0.05) in
  let s := skip_draws (draws bufLen) s in
  {| ctx := with_drum (destination, Hihat t open) (ctx s); cursor := cursor s |}.

Definition set_gain (n : Node) (e : ParamEvent) (s : Build) : Build :=
  {| ctx := with_gain (n, e) (ctx s); cursor := cursor s |}.

(** *** The four loops of [playJingle] *)

Definition barStartOf (beatDuration : num) (bar : nat) : num :=
  mul (mul (of_nat bar) beatDuration) (Fin 4).

(** The body of the inner melody loop, for one beat of one bar. *)
Definition melodyBeat (profile : StyleProfile) (beatDuration : num)
    (bar beat : nat) (s : Build) : Build :=
  let scale := Style.scale profile in
  let barStart := barStartOf beatDuration bar in
  let (u, s) := Math_random s in
  if lt u (Fin 0.7) then
    let (u, s) := Math_random s in
    let noteIdx := Math_floor (mul u (of_nat (length scale))) in
    let step := add barStart (mul (of_nat beat) beatDuration) in
    let (d, s) := Math_random s in
    let (g, s) := Math_random s in
    scheduleNote masterGain
      {| time := step;
         freq := get scale noteIdx;
         duration :=
           mul (mul beatDuration (if lt d (Fin 0.3) then Fin 2 else Fin 1))
               (Fin 0.9);
         wave := Style.wave profile;
         gain := add (Fin 0.18) (mul g (Fin 0.06));
         detune := None |} s
  else s.

Definition melodyLine (profile : StyleProfile) (beatDuration : num)
    (bars : nat) (s : Build) : Build :=
  for_range bars (fun bar =>
    for_range 4 (fun beat => melodyBeat profile beatDuration bar beat)) s.

(** root-third-root-fifth pattern *)
Definition pattern : list num := [Fin 0; Fin 2; Fin 0; Fin 3].

Definition bassBeat (profile : StyleProfile) (beatDuration : num)
    (bar beat : nat) (s : Build) : Build :=
  let bassScale := map (fun f => div f (Fin 2)) (Style.scale profile) in
  let barStart := barStartOf beatDuration bar in
  let step := add barStart (mul (of_nat beat) beatDuration) in
  scheduleNote masterGain
    {| time := step;
       freq := get bassScale
                 (rem (get pattern (of_nat beat)) (of_nat (length bassScale)));
       duration := mul beatDuration (Fin 0.85);
       wave := Style.bassWave profile;
       gain := Fin 0.22;
       detune := None |} s.

Definition bassLine (profile : StyleProfile) (beatDuration : num)
    (bars : nat) (s : Build) : Build :=
  for_range bars (fun bar =>
    for_range 4 (fun beat => bassBeat profile beatDuration bar beat)) s.

(** The callback of the [forEach] over the three chord frequencies. *)
Definition padVoice (beatDuration : num) (bar : nat) (s : Build) (f : num) : Build :=
  let chordTime := barStartOf beatDuration bar in
  let (u, s) := Math_random s in
  scheduleNote masterGain
    {| time := chordTime;
       freq := f;
       duration := mul beatDuration (Fin 3.8);
       wave := sine;
       gain := Fin 0.06;
       detune := Some (sub (mul u (Fin 6)) (Fin 3)) |} s.

Definition chordPad (profile : StyleProfile) (beatDuration : num)
    (bars : nat) (s : Build) : Build :=
  let chordRoot := get (Style.scale profile) (Fin 0) in
  for_range bars (fun bar s =>
    fold_left (padVoice beatDuration bar)
      [chordRoot; mul chordRoot (Fin 1.25); mul chordRoot (Fin 1.5)] s) s.

Definition drumBar (beatDuration : num) (bar : nat) (s : Build) : Build :=
  let barStart := barStartOf beatDuration bar in
  (* Kick: beats 1 & 3 *)
  let s := fold_left (fun s b =>
             scheduleKick drumBus (add barStart (mul b beatDuration)) s)
             [Fin 0; Fin 2] s in
  (* Snare: beats 2 & 4 *)
  let s := fold_left (fun s b =>
             scheduleSnare drumBus (add barStart (mul b beatDuration)) s)
             [Fin 1; Fin 3] s in
  (* Hi-hats: every 8th note *)
  for_range 8 (fun i =>
    scheduleHihat drumBus
      (add barStart (mul (mul (of_nat i) beatDuration) (Fin 0.5)))
      (Nat.eqb i 7)) s.

Definition drumLoop (beatDuration : num) (bars : nat) (s : Build) : Build :=
  for_range bars (drumBar beatDuration) s.

(** *** The public API: [activeCtx], [stopAudio], [playJingle] *)

Record Params : Type := {
  bpm : num;
  musicalStyle : string;
  tone : string;
  durationSeconds : option num;
  (** whether an [onTimeUpdate] callback is passed *)
  onTimeUpdate : bool
}.

(** The timers [playJingle] registers: the end-of-session [setTimeout],
    with the context its callback closes over and its delay in
    milliseconds, and the progress [setInterval], with the context and the
    duration its callback closes over. *)
Inductive Timer : Type :=
| Timeout (session : nat) (delay : num)
| Interval (session : nat) (total : num).

(** The module state and what it refers to: every [AudioContext] created
    so far (a context is named by its position), the module variable
    [activeCtx], the pending timers, the cursor into the random sequence,
    and the sample rate new contexts get from the device. *)
Record World : Type := {
  contexts : list AudioContext;
  activeCtx : option nat;
  timers : list Timer;
  random : N;
  deviceRate : N
}.

Definition initial (rate cur : N) : World :=
  {| contexts := []; activeCtx := None; timers := [];
     random := cur; deviceRate := rate |}.

Definition stopAudio (w : World) : World :=
  match activeCtx w with
  | Some a =>
      {| contexts := alter close a (contexts w);
         activeCtx := None;
         timers := timers w; random := random w; deviceRate := deviceRate w |}
  | None => w
  end.

(** [Math.floor(durationSeconds / (beatDuration * 4))] *)
Definition barCount (beatDuration total : num) : num :=
  Math_floor (div total (mul beatDuration (Fin 4))).

(** [playJingle] up to the point where it returns its promise; [None] when
    a loop over the bars never ends. *)
Definition playJingle (params : Params) (w : World) : option World :=
  let w := stopAudio w in
  let id := length (contexts w) in
  let s := {| ctx := {| state := running; sampleRate := deviceRate w;
                        voices := []; drums := []; gains := [] |};
              cursor := random w |} in
  let total := default (Fin 12) (durationSeconds params) in
  let beatDuration := div (Fin 60) (bpm params) in
  let profile := getStyleProfile (musicalStyle params) (tone params) in
  (* Routing *)
  let s := set_gain masterGain (SetValue (Fin 0.75)) s in
  let s := createReverb (Fin 2.5) (Fin 3.5) s in
  let s := set_gain dryGain (SetValue (sub (Fin 1) (reverbAmount profile))) s in
  let s := set_gain wetGain (SetValue (reverbAmount profile)) s in
  let s := set_gain drumBus (SetValue (Fin 0.8)) s in
  let bars := barCount beatDuration total in
  match loop_count bars with
  | None => None
  | Some n =>
      let s := melodyLine profile beatDuration n s in
      let s := bassLine profile beatDuration n s in
      let s := chordPad profile beatDuration n s in
      let s := drumLoop beatDuration n s in
      (* Fade out *)
      let s := set_gain masterGain
                 (SetValueAtTime (Fin 0.75) (sub total (Fin 1.5))) s in
      let s := set_gain masterGain (LinearRampToValueAtTime (Fin 0) total) s in
      let s := set_gain drumBus
                 (SetValueAtTime (Fin 0.8) (sub total (Fin 1.5))) s in
      let s := set_gain drumBus (LinearRampToValueAtTime (Fin 0) total) s in
      Some {| contexts := contexts w ++ [ctx s];
              activeCtx := Some id;
              timers := timers w
                        ++ (if onTimeUpdate params then [Interval id total] else [])
                        ++ [Timeout id (add (mul total (Fin 1000)) (Fin 200))];
              random := cursor s;
              deviceRate := deviceRate w |}
  end.

Definition clear_timer (i : nat) (w : World) : World :=
  {| contexts := contexts w; activeCtx := activeCtx w;
     timers := delete i (timers w);
     random := random w; deviceRate := deviceRate w |}.

(** The callback of the [setTimeout]: [if (activeCtx === ctx) { ctx.close();
    activeCtx = null; }]. *)
Definition on_timeout (c : nat) (w : World) : World :=
  if decide (activeCtx w = Some c) then
    {| contexts := alter close c (contexts w);
       activeCtx := None;
       timers := timers w; random := random w; deviceRate := deviceRate w |}
  else w.

(** The callback of the [setInterval], registered as timer [i], when the
    clock of its context reads [elapsed]. *)
Definition on_interval (i : nat) (total elapsed : num) (w : World) : World :=
  match activeCtx w with
  | None => clear_timer i w
  | Some a =>
      match contexts w !! a with
      | Some {| state := closed |} => clear_timer i w
      | _ => if ge elapsed total then clear_timer i w else w
      end
  end.

(** What can happen to the module state: the page calls [playJingle] or
    [stopAudio], or a pending timer fires. *)
Inductive Event : Type :=
| Play (params : Params)
| Stop
| Fire (i : nat) (elapsed : num).

Definition step (e : Event) (w : World) : option World :=
  match e with
  | Play params => playJingle params w
  | Stop => Some (stopAudio w)
  | Fire i elapsed =>
      match timers w !! i with
      | Some (Timeout c _) => Some (on_timeout c (clear_timer i w))
      | Some (Interval _ total) => Some (on_interval i total elapsed w)
      | None => None
      end
  end.

Fixpoint run (es : list Event) (w : World) : option World :=
  match es with
  | [] => Some w
  | e :: es' =>
      match step e w with
      | Some w' => run es' w'
      | None => None
      end
  end.

Definition is_running (w : World) (i : nat) : bool :=
  match contexts w !! i with
  | Some c => match state c with running => true | closed => false end
  | None => false
  end.

(** The contexts that are not closed, by position. *)
Definition running_contexts (w : World) : list nat :=
  List.filter (is_running w) (seq 0 (length (contexts w))).

End Synth.

(** *** Waveform data for visualization *)

Section Waveform.

(** [Math.sin] on finite arguments, and the random sequence. *)
Variable sinQ : Q -> Q.
Variable rnd : N -> Q.

Definition Math_sin (a : num) : num :=
  match a with
  | Fin q => Fin (sinQ q)
  | _ => NaN
  end.

(** [Math.PI], as JavaScript prints it. *)
Definition Math_PI : num := Fin 3.141592653589793.

(** One turn of the loop of [generateWaveformData]: the value pushed for
    index [i], with the draw at cursor [k]. *)
Definition waveformSample (bpm : num) (bars : nat) (i : nat) (k : N) : num :=
  let beatPhase :=
    mul (mul (mul (div (of_nat i) (of_nat bars)) Math_PI) (Fin 2))
        (div bpm (Fin 60)) in
  let val :=
    Math_abs
      (add (add (mul (Math_sin (mul beatPhase (Fin 0.7))) (Fin 0.5))
                (mul (Math_sin (mul beatPhase (Fin 1.3))) (Fin 0.3)))
           (mul (Fin (rnd k)) (Fin 0.2))) in
  Math_min (Fin 1) (Math_max (Fin 0.08) val).

(** [generateWaveformData(bpm, bars = 32)]: the array returned and the
    cursor left in the random sequence. *)
Definition generateWaveformData (bpm : num) (bars : option nat) (k : N)
    : list num * N :=
  let bars := default 32%nat bars in
  for_range bars
    (fun i '(data, k) => (data ++ [waveformSample bpm bars i k], N.succ k))
    ([], k).

End Waveform.

End AudioSynth.

(** ** The tempo clamp of [generateJingle]: [gemini.ts] *)

Module Gemini.

Import JsNum.

(** A value read from the parsed model response: [parsed.bpm] is whatever
    [JSON.parse] found under that key.  An array or object carries the
    string its conversion to a primitive yields. *)
Inductive JsValue : Type :=
| VUndefined
| VNull
| VBoolean (b : bool)
| VNumber (n : num)
| VString (s : string)
| VObject (primitive : string).

Section Clamp.

(** The numeric value of a string: [NaN] unless it is a numeric literal. *)
Variable StringToNumber : string -> num.

(** [Number(v)] *)
Definition Number (v : JsValue) : num :=
  match v with
  | VUndefined => NaN
  | VNull => Fin 0
  | VBoolean b => if b then Fin 1 else Fin 0
  | VNumber n => n
  | VString s => StringToNumber s
  | VObject s => StringToNumber s
  end.

(** [const bpm = Math.max(60, Math.min(180, Math.round(Number(parsed.bpm) || 120)))] *)
Definition bpm (parsed_bpm : JsValue) : num :=
  Math_max (Fin 60)
    (Math_min (Fin 180) (Math_round (or_else (Number parsed_bpm) (Fin 120)))).

End Clamp.

End Gemini.

(** ** The arrangement as the specification describes it

    The note events and percussion triggers of one bar, written out; the
    loops of [playJingle] are compared with them below. *)

Module Arrangement.

Import JsNum.
Export AudioSynth.

Section Described.

Variable rnd : N -> Q.

(** Appending to the calls recorded in a context under construction and
    moving the cursor. *)
Definition extend (vs : list (Node * NoteEvent)) (ds : list (Node * DrumHit))
    (k : N) (s : Build) : Build :=
  {| ctx := {| state := state (ctx s); sampleRate := sampleRate (ctx s);
               voices := voices (ctx s) ++ vs;
               drums := drums (ctx s) ++ ds;
               gains := gains (ctx s) |};
     cursor := k |}.

Definition option_list {A : Type} (o : option A) : list A :=
  match o with Some a => [a] | None => [] end.

(** The beats of [bars] bars of four, in the order the loops visit them. *)
Definition grid (bars : nat) : list (nat * nat) :=
  flat_map (fun bar => map (pair bar) [0; 1; 2; 3]%nat) (seq 0 bars).

(** The start of beat [beat] of bar [bar]. *)
Definition beatStart (beatDuration : num) (bar beat : nat) : num :=
  add (barStartOf beatDuration bar) (mul (of_nat beat) beatDuration).

(** Melody: the note of one beat, decided by the four draws from cursor
    [k]: the gate, the scale degree, the doubling and the gain. *)
Definition melodyNote (profile : StyleProfile) (beatDuration : num)
    (bar beat : nat) (k : N) : option NoteEvent :=
  if Qltb (rnd k) 0.7 then
    Some {| time := beatStart beatDuration bar beat;
            freq := get (scale profile)
                      (of_Z (Qfloor (rnd (k + 1)
                                     * inject_Z (Z.of_nat (length (scale profile))))));
            duration :=
              mul (mul beatDuration
                       (if Qltb (rnd (k + 2)) 0.3 then Fin 2 else Fin 1))
                  (Fin 0.9);
            wave := Style.wave profile;
            gain := Fin (0.18 + rnd (k + 3) * 0.06);
            detune := None |}
  else None.

Definition melodyCursor (k : N) : N :=
  if Qltb (rnd k) 0.7 then (k + 4)%N else (k + 1)%N.

(** The melody of a run of beats, each given as (bar, beat), read from
    cursor [k]: the notes in order and the cursor left. *)
Fixpoint melodyFrom (profile : StyleProfile) (beatDuration : num)
    (beats : list (nat * nat)) (k : N) : list NoteEvent * N :=
  match beats with
  | [] => ([], k)
  | (bar, beat) :: rest =>
      let (notes, k') :=
        melodyFrom profile beatDuration rest (melodyCursor k) in
      (option_list (melodyNote profile beatDuration bar beat k) ++ notes, k')
  end.

(** Bass: the note of one beat. *)
Definition bassNote (profile : StyleProfile) (beatDuration : num)
    (bar beat : nat) : NoteEvent :=
  {| time := beatStart beatDuration bar beat;
     freq := div (get (scale profile)
                    (rem (get pattern (of_nat beat))
                         (of_nat (length (scale profile)))))
                 (Fin 2);
     duration := mul beatDuration (Fin 0.85);
     wave := bassWave profile;
     gain := Fin 0.22;
     detune := None |}.

Definition bassBar (profile : StyleProfile) (beatDuration : num) (bar : nat)
    : list NoteEvent :=
  map (bassNote profile beatDuration bar) [0; 1; 2; 3]%nat.

(** Pad: one voice of the chord of a bar, at ratio [ratio] to the root,
    detuned by the draw at cursor [k]. *)
Definition padNote (profile : StyleProfile) (beatDuration : num) (bar : nat)
    (f : num) (k : N) : NoteEvent :=
  {| time := barStartOf beatDuration bar;
     freq := f;
     duration := mul beatDuration (Fin 3.8);
     wave := sine;
     gain := Fin 0.06;
     detune := Some (Fin (rnd k * 6 - 3)) |}.

Definition padBar (profile : StyleProfile) (beatDuration : num) (bar : nat)
    (k : N) : list NoteEvent :=
  let root := get (scale profile) (Fin 0) in
  [ padNote profile beatDuration bar root k;
    padNote profile beatDuration bar (mul root (Fin 1.25)) (k + 1);
    padNote profile beatDuration bar (mul root (Fin 1.5)) (k + 2) ].

(** Drums: the twelve triggers of a bar, in the order they are issued. *)
Definition hihatTime (beatDuration : num) (bar i : nat) : num :=
  add (barStartOf beatDuration bar)
      (mul (mul (of_nat i) beatDuration) (Fin 0.5)).

Definition drumHits (beatDuration : num) (bar : nat) : list DrumHit :=
  [ Kick (add (barStartOf beatDuration bar) (mul (Fin 0) beatDuration));
    Kick (add (barStartOf beatDuration bar) (mul (Fin 2) beatDuration));
    Snare (add (barStartOf beatDuration bar) (mul (Fin 1) beatDuration));
    Snare (add (barStartOf beatDuration bar) (mul (Fin 3) beatDuration));
    Hihat (hihatTime beatDuration bar 0) false;
    Hihat (hihatTime beatDuration bar 1) false;
    Hihat (hihatTime beatDuration bar 2) false;
    Hihat (hihatTime beatDuration bar 3) false;
    Hihat (hihatTime beatDuration bar 4) false;
    Hihat (hihatTime beatDuration bar 5) false;
    Hihat (hihatTime beatDuration bar 6) false;
    Hihat (hihatTime beatDuration bar 7) true ].

(** The draws the noise buffers of one bar of drums take. *)
Definition drumDraws (rate : N) : N :=
  (2 * draws (mul (of_N rate) (Fin 0.12))
   + 7 * draws (mul (of_N rate) (Fin 0.05))
   + draws (mul (of_N rate) (Fin 0.3)))%N.

(** The arrangement of [bars] bars: the note events (melody, then bass,
    then pad) and the percussion triggers, with the draws read from
    cursor [k]. *)
Definition arrange (profile : StyleProfile) (beatDuration : num) (bars : nat)
    (k : N) : list NoteEvent * list DrumHit :=
  let (melody, k1) := melodyFrom profile beatDuration (grid bars) k in
  (melody
   ++ flat_map (bassBar profile beatDuration) (seq 0 bars)
   ++ flat_map (fun bar => padBar profile beatDuration bar
                             (k1 + 3 * N.of_nat bar)) (seq 0 bars),
   flat_map (drumHits beatDuration) (seq 0 bars)).

End Described.

(** The eight writes to gain parameters: the routing levels, then the
    fade-out. *)
Definition gainWrites (profile : StyleProfile) (total : num)
    : list (Node * ParamEvent) :=
  [ (masterGain, SetValue (Fin 0.75));
    (dryGain, SetValue (sub (Fin 1) (reverbAmount profile)));
    (wetGain, SetValue (reverbAmount profile));
    (drumBus, SetValue (Fin 0.8));
    (masterGain, SetValueAtTime (Fin 0.75) (sub total (Fin 1.5)));
    (masterGain, LinearRampToValueAtTime (Fin 0) total);
    (drumBus, SetValueAtTime (Fin 0.8) (sub total (Fin 1.5)));
    (drumBus, LinearRampToValueAtTime (Fin 0) total) ].

Definition is_kick (h : DrumHit) : bool :=
  match h with Kick _ => true | _ => false end.

Definition is_snare (h : DrumHit) : bool :=
  match h with Snare _ => true | _ => false end.

Definition is_hihat (h : DrumHit) : bool :=
  match h with Hihat _ _ => true | _ => false end.

Definition is_open_hihat (h : DrumHit) : bool :=
  match h with Hihat _ open => open | _ => false end.

Definition is_closed_hihat (h : DrumHit) : bool :=
  match h with Hihat _ open => negb open | _ => false end.

Definition count (p : DrumHit -> bool) (l : list DrumHit) : nat :=
  length (List.filter p l).

(** The session [playJingle] has just created: the last context. *)
Definition session (w : World) : option AudioContext :=
  last (contexts w).


(** A finite, strictly positive number. *)
Definition positive (x : num) : Prop := exists q, x = Fin q /\ 0 < q.

(** A note event the voice scheduler accepts: frequency and duration are
    finite and strictly positive. *)
Definition schedulable (e : NoteEvent) : Prop :=
  positive (freq e) /\ positive (duration e).

(** The module state keeps at most one context open, the one [activeCtx]
    refers to. *)
Definition single_session (w : World) : Prop :=
  forall i, is_running w i = true -> activeCtx w = Some i.

End Arrangement.

(** ** Input handling of [generateJingle]: [gemini.ts]

    Strings are sequences of ASCII characters, as in [JsString]; the
    ellipsis character the code appends to a truncated name lies outside
    ASCII and stands here as a parameter. *)

Module GeminiInput.

Import JsString.

Local Open Scope string_scope.

Definition BLOCKED_TERMS : list string :=
  [ "hate"; "violence"; "racist"; "sexist"; "explicit"; "adult"; "nsfw";
    "gore"; "kill"; "murder"; "abuse"; "drug"; "terror"; "extremi" ].

Definition safetyCheck (input : string) : bool :=
  let normalized := toLowerCase input in
  negb (existsb (fun term => includes normalized term) BLOCKED_TERMS).

(** The character class of the first [replace] of [sanitize]:
    [<>{}|\^`[]]. *)
Definition dangerous (c : ascii) : bool :=
  existsb (Ascii.eqb c)
    [ "<"; ">"; "{"; "}"; "|"; "\"; "^"; "`"; "["; "]" ]%char.

(** [str.replace(/[<>{}|\\^`[\]]/g, '')] *)
Fixpoint strip (s : string) : string :=
  match s with
  | EmptyString => EmptyString
  | String c s' => if dangerous c then strip s' else String c (strip s')
  end.

(** White space as [trim] sees it, among ASCII characters: tab, line feed,
    vertical tab, form feed, carriage return and space. *)
Definition is_space (c : ascii) : bool :=
  let n := N_of_ascii c in
  ((9 <=? n)%N && (n <=? 13)%N) || (n =? 32)%N.

Fixpoint trimStart (s : string) : string :=
  match s with
  | EmptyString => EmptyString
  | String c s' => if is_space c then trimStart s' else s
  end.

Fixpoint trimEnd (s : string) : string :=
  match s with
  | EmptyString => EmptyString
  | String c s' =>
      match trimEnd s' with
      | EmptyString => if is_space c then EmptyString else String c EmptyString
      | r => String c r
      end
  end.

Definition trim (s : string) : string := trimEnd (trimStart s).

(** [s.slice(0, n)] for [n >= 0]. *)
Fixpoint slice0 (n : nat) (s : string) : string :=
  match n, s with
  | O, _ => EmptyString
  | _, EmptyString => EmptyString
  | S n', String c s' => String c (slice0 n' s')
  end.

Definition sanitize (str : string) : string :=
  slice0 200 (trim (strip str)).

(** [a || b] on strings: the empty string is falsy. *)
Definition or_default (a b : string) : string :=
  match a with EmptyString => b | _ => a end.

(** [s.replace(/'/g, "''")], the [safeQuote] of [generateJingle]. *)
Fixpoint safeQuote (s : string) : string :=
  match s with
  | EmptyString => EmptyString
  | String c s' =>
      if Ascii.eqb c "'" then String "'" (String "'" (safeQuote s'))
      else String c (safeQuote s')
  end.

(** How SQL reads the body of a string literal, after its opening quote:
    two quotes stand for one, a single quote ends the literal.  The result
    is the text read and what follows the closing quote. *)
Fixpoint read_sql_literal (s : string) : option (string * string) :=
  match s with
  | EmptyString => None
  | String c s' =>
      if Ascii.eqb c "'" then
        match s' with
        | String d s'' =>
            if Ascii.eqb d "'" then
              match read_sql_literal s'' with
              | Some (body, rest) => Some (String "'" body, rest)
              | None => None
              end
            else Some (EmptyString, s')
        | EmptyString => Some (EmptyString, EmptyString)
        end
      else
        match read_sql_literal s' with
        | Some (body, rest) => Some (String c body, rest)
        | None => None
        end
  end.

(** Every character of [s] satisfies [p]. *)
Fixpoint all_chars (p : ascii -> bool) (s : string) : bool :=
  match s with
  | EmptyString => true
  | String c s' => p c && all_chars p s'
  end.

(** [s] is empty or begins with a character that is not white space. *)
Definition no_leading_space (s : string) : bool :=
  match s with
  | EmptyString => true
  | String c _ => negb (is_space c)
  end.

(** [p] is the beginning of [s]. *)
Definition is_prefix (p s : string) : Prop := exists t, s = p ++ t.

(** [p] is a part of [s]. *)
Definition is_substring (p s : string) : Prop := exists a b, s = a ++ p ++ b.

(** A field fit to be sent: not empty, at most 200 characters, none of
    them a stripped one. *)
Definition field_ok (f : string) : Prop :=
  f <> "" /\ (String.length f <= 200)%nat /\
  all_chars (fun c => negb (dangerous c)) f = true.

Record GenerateJingleInput : Type := {
  podcastName : string;
  theme : string;
  tone : string
}.

(** What [generateJingle] has in hand when it calls the model: the
    sanitized fields, the name as it is spoken, and the user prompt. *)
Record Prepared : Type := {
  p_podcastName : string;
  p_theme : string;
  p_tone : string;
  p_voiceName : string;
  p_userPrompt : string
}.

(** The two errors thrown before the model is called. *)
Inductive PrepareError : Type :=
| ApiKeyNotConfigured
| SAFETY_VIOLATION.

Definition dquote : string := String (ascii_of_nat 34) EmptyString.
Definition newline : string := String (ascii_of_nat 10) EmptyString.

Section Prepare.

(** The string ["…"], one character outside ASCII. *)
Variable ellipsis : string.

Definition truncateName (name : string) (maxLen : option nat) : string :=
  let maxLen := default 30%nat maxLen in
  let clean := sanitize name in
  if (maxLen <? String.length clean)%nat
  then trimEnd (slice0 maxLen clean) ++ ellipsis
  else clean.

(** [generateJingle] from its first line to the call of the model. *)
Definition prepare (apiKey : string) (input : GenerateJingleInput)
    : PrepareError + Prepared :=
  if (match apiKey with EmptyString => true | _ => false end)
     || String.eqb apiKey "your_gemini_api_key_here"
  then inl ApiKeyNotConfigured
  else
    (* Sanitize inputs *)
    let podcastName := or_default (sanitize (podcastName input)) "My Podcast" in
    let theme := or_default (sanitize (theme input)) "Generic Professional" in
    let tone := or_default (sanitize (tone input)) "Professional" in
    let voiceName := truncateName podcastName None in
    (* Safety check *)
    let combinedInput := podcastName ++ " " ++ theme ++ " " ++ tone in
    if negb (safetyCheck combinedInput) then inl SAFETY_VIOLATION
    else
      inr {| p_podcastName := podcastName;
             p_theme := theme;
             p_tone := tone;
             p_voiceName := voiceName;
             p_userPrompt :=
               "Podcast Name: " ++ dquote ++ voiceName ++ dquote ++ newline
               ++ "Theme: " ++ dquote ++ theme ++ dquote ++ newline
               ++ "Tone: " ++ dquote ++ tone ++ dquote |}.

End Prepare.

End GeminiInput.

(** ** [scheduleNote], node by node

    What [scheduleNote] sets up for one note event: the oscillator, the
    low-pass filter and the gain node with the values it schedules on their
    parameters.  Times are offsets from [ctx.currentTime], as in the
    contexts above. *)

Module VoiceGraph.

Import JsNum.
Export Arrangement.







(** A number that is not finite: [NaN] or an infinity. *)
Definition not_finite (x : num) : Prop :=
  match x with Fin _ => False | _ => True end.



End VoiceGraph.

(** ** Observations on the module state *)

Module SessionState.

Export Arrangement.

(** [activeCtx], when set, refers to a context that exists and is open. *)
Definition active_is_open (w : World) : Prop :=
  forall a, activeCtx w = Some a -> is_running w a = true.

(** The events that are timer callbacks. *)
Definition is_fire (e : Event) : bool :=
  match e with Fire _ _ => true | _ => false end.

End SessionState.

(** ** The tone chips of the page *)

Module Page.

Local Open Scope string_scope.

Definition TONES : list string :=
  [ "Energetic"; "Professional"; "Serious"; "Playful"; "Dark";
    "Inspirational"; "Mysterious"; "Comedic"; "Fast-paced"; "Calm" ].

(** The state update of [toggleTone]:
    [prev.includes(tone) ? prev.filter(t => t !== tone)
                         : [...prev, tone].slice(0, 4)]. *)
Definition toggleTone (tone : string) (prev : list string) : list string :=
  if existsb (String.eqb tone) prev
  then List.filter (fun t => negb (String.eqb t tone)) prev
  else firstn 4 (prev ++ [tone]).

(** [tones.join(', ')] *)
Fixpoint join (sep : string) (l : list string) : string :=
  match l with
  | [] => EmptyString
  | [x] => x
  | x :: rest => x ++ sep ++ join sep rest
  end.

(** [tones.length > 0 ? tones.join(', ') : 'Professional'] *)
Definition effectiveTone (tones : list string) : string :=
  match tones with
  | [] => "Professional"
  | _ => join ", " tones
  end.

(** What the tones of the page have in common: short, free of the
    characters [sanitize] strips, and fixed by [trim]. *)
Definition plain_word (x : string) : Prop :=
  x <> "" /\ (String.length x <= 13)%nat /\
  GeminiInput.all_chars (fun c => negb (GeminiInput.dangerous c)) x = true /\
  GeminiInput.no_leading_space x = true /\ GeminiInput.trimEnd x = x.

(** The selection after a series of clicks on tone chips, from the empty
    selection the page starts with. *)
Definition clicks (tones : list string) : list string :=
  fold_left (fun sel tone => toggleTone tone sel) tones [].

End Page.

(** ** Binary64 numbers

    A JavaScript number as the engine holds it: an IEEE 754 binary64 value,
    with its two zeros, its infinities and [NaN], and every operation
    rounded to nearest, ties to even.  The operations are those of the
    Standard Library's [SpecFloat] at precision 53 and largest exponent
    1024.  The bar count of [playJingle], which depends on that rounding,
    and the argument checks of the Web Audio API are stated over these
    numbers in [AudioSynth64] below. *)

Module Binary64.

Definition prec : Z := 53.
Definition emax : Z := 1024.

Definition double : Type := spec_float.

Definition zero : double := S754_zero false.
Definition nan : double := S754_nan.
Definition infinity : double := S754_infinity false.

Definition add : double -> double -> double := SFadd prec emax.
Definition sub : double -> double -> double := SFsub prec emax.
Definition mul : double -> double -> double := SFmul prec emax.
Definition div : double -> double -> double := SFdiv prec emax.

(** [a < b]: false as soon as an operand is [NaN]. *)
Definition lt : double -> double -> bool := SFltb.

(** The values a number can take: the mantissa and exponent of a finite one
    are the canonical ones. *)
Definition valid : double -> bool := valid_binary prec emax.

(** An integer as a number (exact below 2^53). *)
Definition of_Z (z : Z) : double := binary_normalize prec emax z 0 false.
Definition of_nat (n : nat) : double := of_Z (Z.of_nat n).

(** The decimal literal [n/d] of the source text: the nearest number. *)
Definition dec (n d : Z) : double := div (of_Z n) (of_Z d).

(** The numbers of the style profiles, which are decimal literals. *)
Definition of_num (x : JsNum.num) : double :=
  match x with
  | JsNum.Fin q => dec (Qnum q) (Z.pos (Qden q))
  | JsNum.PInf => S754_infinity false
  | JsNum.NInf => S754_infinity true
  | JsNum.NaN => S754_nan
  end.

Definition is_finite (x : double) : bool :=
  match x with
  | S754_zero _ | S754_finite _ _ _ => true
  | _ => false
  end.

Definition is_zero (x : double) : bool :=
  match x with S754_zero _ => true | _ => false end.

(** Truthiness of a number, as [if] tests it. *)
Definition truthy (x : double) : bool :=
  match x with
  | S754_zero _ | S754_nan => false
  | _ => true
  end.

(** [Math.floor] *)
Definition Math_floor (x : double) : double :=
  match x with
  | S754_finite s m e =>
      if (0 <=? e)%Z then x
      else
        let f := Z.shiftr (if s then Z.neg m else Z.pos m) (- e) in
        if (f =? 0)%Z then S754_zero s else of_Z f
  | _ => x
  end.

(** Reading a number as an array index: [Some i] for the integer [i >= 0]. *)
Definition to_index (x : double) : option nat :=
  match x with
  | S754_zero _ => Some 0%nat
  | S754_finite false m e =>
      if (0 <=? e)%Z then Some (Z.to_nat (Z.pos m * 2 ^ e))
      else if (Z.pos m mod 2 ^ (- e) =? 0)%Z
           then Some (Z.to_nat (Z.pos m / 2 ^ (- e)))
           else None
  | _ => None
  end.

(** [arr[i]]; a missing element is [undefined], read as [NaN]. *)
Definition get (arr : list double) (i : double) : double :=
  match to_index i with
  | Some k => nth k arr S754_nan
  | None => S754_nan
  end.

(** The number of iterations of [for (let i = 0; i < n; i++)], [None] when
    the loop never ends: the counter cannot pass 2^53, where adding 1
    leaves it unchanged. *)
Definition loop_count (n : double) : option nat :=
  match n with
  | S754_infinity false => None
  | S754_finite false m e =>
      let c := if (0 <=? e)%Z then (Z.pos m * 2 ^ e)%Z
               else (- Z.shiftr (Z.neg m) (- e))%Z in
      if (c <=? 2 ^ 53)%Z then Some (Z.to_nat c) else None
  | _ => Some 0%nat
  end.

(** A result of [Math.random()]: a number that is at least 0 and below 1. *)
Definition unit_draw (r : double) : Prop :=
  valid r = true /\ lt r (of_Z 1) = true /\ lt r zero = false.

(** Strictly positive: a positive finite number or [+Infinity]. *)
Definition positive (x : double) : bool := lt zero x.

(** A number in the normal range, or [+Infinity]: the mantissa has 53 bits
    and the exponent is at least [lo]. *)
Definition normal_from (lo : Z) (x : double) : Prop :=
  x = S754_infinity false \/
  exists m e, x = S754_finite false m e /\ Zdigits2 (Z.pos m) = 53%Z /\ (lo <= e)%Z.

(** A mantissa and exponent as a number, an infinity when the exponent is
    beyond the largest one. *)
Definition overflow (s : bool) (m e : Z) : double :=
  if (e <=? 971)%Z then S754_finite s (Z.to_pos m) e else S754_infinity s.

(** Rounding a mantissa of 53 bits or more to 53 bits, to nearest and ties
    to even: the mantissa left and the number of bits dropped. *)
Definition norm53 (mx : Z) (lx : location) : Z * Z :=
  let k1 := (Zdigits2 mx - 53)%Z in
  let rec1 := Nat.iter (Z.to_nat k1) shr_1 (shr_record_of_loc mx lx) in
  let m2 := round_nearest_even (shr_m rec1) (loc_of_shr_record rec1) in
  let k2 := (Zdigits2 m2 - 53)%Z in
  ((m2 / 2 ^ k2)%Z, (k1 + k2)%Z).

(** A finite number below [2 ^ b] in absolute value. *)
Definition below_pow2 (b : Z) (x : double) : Prop :=
  match x with
  | S754_zero _ => True
  | S754_finite _ m e => (Zdigits2 (Z.pos m) + e <= b)%Z /\ (-1074 <= e)%Z
  | _ => False
  end.

End Binary64.

(** ** The synthesizer over binary64 numbers, with the checks of the API

    [playJingle] again, now with the arithmetic of the engine and with what
    the Web Audio API does to the time arguments it is given: a call that
    schedules something at a time that is not a finite number throws
    [TypeError], at a negative time [RangeError], and the exception leaves
    [playJingle] at that call.  A new context's clock reads 0 and does not
    move while [playJingle] runs, which it does in one task.  The results of
    [Math.random()] are a sequence [rnd] of numbers, and [toLowerCase] is
    left open as in [AnyCase]. *)

Module AudioSynth64.

Import Binary64.
Import Style.

Definition Node : Type := AudioSynth.Node.
Definition ContextState : Type := AudioSynth.ContextState.

Record NoteEvent : Type := {
  time : double;
  freq : double;
  duration : double;
  wave : WaveType;
  gain : double;
  detune : option double
}.

(** A percussion call with its [time] argument (and [open]). *)
Inductive DrumHit : Type :=
| Kick (t : double)
| Snare (t : double)
| Hihat (t : double) (open : bool).

(** Writes to the [gain] parameter of a node of the routing. *)
Inductive ParamEvent : Type :=
| SetValue (v : double)
| SetValueAtTime (v t : double)
| LinearRampToValueAtTime (v t : double).

(** The calls of the API that take a time. *)
Inductive Call : Type :=
| setValueAtTime (value startTime : double)
| linearRampToValueAtTime (value endTime : double)
| exponentialRampToValueAtTime (value endTime : double)
| start (when : double)
| stop (when : double).

Inductive Exception : Type := RangeError | TypeError.

(** What the API answers to a time: [TypeError] when it is not a finite
    number, [RangeError] when it is negative. *)
Definition time_error (t : double) : option Exception :=
  if negb (is_finite t) then Some TypeError
  else if lt t zero then Some RangeError
  else None.

Definition call_error (c : Call) : option Exception :=
  match c with
  | setValueAtTime v t | linearRampToValueAtTime v t =>
      if negb (is_finite v) then Some TypeError else time_error t
  | exponentialRampToValueAtTime v t =>
      if negb (is_finite v) then Some TypeError
      else match time_error t with
           | Some e => Some e
           | None => if is_zero v then Some RangeError else None
           end
  | start t | stop t => time_error t
  end.

(** The exception of the first call that throws, if one does. *)
Fixpoint first_error (cs : list Call) : option Exception :=
  match cs with
  | [] => None
  | c :: cs' =>
      match call_error c with
      | Some e => Some e
      | None => first_error cs'
      end
  end.

Record AudioContext : Type := {
  state : ContextState;
  sampleRate : double;
  currentTime : double;
  voices : list (Node * NoteEvent);
  drums : list (Node * DrumHit);
  gains : list (Node * ParamEvent)
}.

Record Build : Type := {
  ctx : AudioContext;
  cursor : N
}.

(** How a piece of [playJingle] ends: normally, by an exception, or not at
    all, when a loop has no last turn. *)
Inductive Result : Type :=
| Ok (s : Build)
| Throw (e : Exception) (s : Build)
| Unending.

Definition andThen (r : Result) (f : Build -> Result) : Result :=
  match r with
  | Ok s => f s
  | _ => r
  end.

Definition with_voice (v : Node * NoteEvent) (s : Build) : Build :=
  {| ctx := {| state := state (ctx s); sampleRate := sampleRate (ctx s);
               currentTime := currentTime (ctx s);
               voices := voices (ctx s) ++ [v]; drums := drums (ctx s);
               gains := gains (ctx s) |};
     cursor := cursor s |}.

Definition with_drum (d : Node * DrumHit) (s : Build) : Build :=
  {| ctx := {| state := state (ctx s); sampleRate := sampleRate (ctx s);
               currentTime := currentTime (ctx s);
               voices := voices (ctx s); drums := drums (ctx s) ++ [d];
               gains := gains (ctx s) |};
     cursor := cursor s |}.

Definition with_gain (g : Node * ParamEvent) (s : Build) : Build :=
  {| ctx := {| state := state (ctx s); sampleRate := sampleRate (ctx s);
               currentTime := currentTime (ctx s);
               voices := voices (ctx s); drums := drums (ctx s);
               gains := gains (ctx s) ++ [g] |};
     cursor := cursor s |}.

Definition skip_draws (n : nat) (s : Build) : Build :=
  {| ctx := ctx s; cursor := (cursor s + N.of_nat n)%N |}.

(** The calls [cs] made in that order. *)
Definition perform (cs : list Call) (s : Build) : Result :=
  match first_error cs with
  | Some e => Throw e s
  | None => Ok s
  end.

(** [for (let i = 0; i < n; i++) body] for a natural [n]; an exception or a
    loop without end inside leaves the loop. *)
Definition for_range (n : nat) (body : nat -> Build -> Result) (s : Build)
    : Result :=
  fold_left (fun r i => andThen r (body i)) (seq 0 n) (Ok s).

(** [for (let i = 0; i < bound; i++) body] for a number [bound]. *)
Definition for_loop (bound : double) (body : nat -> Build -> Result)
    (s : Build) : Result :=
  match loop_count bound with
  | Some n => for_range n body s
  | None => Unending
  end.

(** [for (let i = 0; i < len; i++) data[i] = Math.random() ...]: one draw
    for each sample. *)
Definition fill (len : double) (s : Build) : Result :=
  for_loop len (fun _ s => Ok (skip_draws 1 s)) s.

(** The calls of [scheduleNote] on the parameters of its oscillator, filter
    and gain, for a note that starts at [t0]. *)
Definition noteCalls (event : NoteEvent) (t0 : double) : list Call :=
  [ setValueAtTime (freq event) t0 ]
  ++ match detune event with
     | Some d => if truthy d then [setValueAtTime d t0] else []
     | None => []
     end
  ++ [ setValueAtTime (of_Z 3000) t0;
       exponentialRampToValueAtTime (of_Z 800) (add t0 (duration event));
       setValueAtTime (of_Z 0) t0;
       linearRampToValueAtTime (gain event) (add t0 (dec 2 100));
       setValueAtTime (gain event)
         (sub (add t0 (duration event)) (dec 5 100));
       linearRampToValueAtTime (of_Z 0) (add t0 (duration event));
       start t0;
       stop (add t0 (duration event)) ].

(** The calls of [scheduleKick] for a kick at [t0]. *)
Definition kickCalls (t0 : double) : list Call :=
  [ setValueAtTime (of_Z 150) t0;
    exponentialRampToValueAtTime (of_Z 40) (add t0 (dec 15 100));
    setValueAtTime (dec 9 10) t0;
    exponentialRampToValueAtTime (dec 1 1000) (add t0 (dec 3 10));
    start t0;
    stop (add t0 (dec 35 100)) ].

(** The calls of [scheduleSnare] for a snare at [t0]. *)
Definition snareCalls (t0 : double) : list Call :=
  [ setValueAtTime (dec 4 10) t0;
    exponentialRampToValueAtTime (dec 1 1000) (add t0 (dec 12 100));
    start t0;
    stop (add t0 (dec 15 100)) ].

(** The calls of [scheduleHihat] for a hi-hat at [t0] whose buffer lasts
    [len] seconds ([bufLen / ctx.sampleRate]). *)
Definition hihatCalls (t0 len : double) : list Call :=
  [ setValueAtTime (dec 15 100) t0;
    exponentialRampToValueAtTime (dec 1 1000) (add t0 len);
    start t0;
    stop (add (add t0 len) (dec 1 100)) ].

Section Synth.

Variable toLowerCase : string -> string.

(** The successive results of [Math.random()]. *)
Variable rnd : N -> double.

Definition Math_random (s : Build) : double * Build :=
  (rnd (cursor s), {| ctx := ctx s; cursor := N.succ (cursor s) |}).

Definition createReverb (duration decay : double) (s : Build) : Result :=
  let length := mul (sampleRate (ctx s)) duration in
  for_range 2 (fun ch => fill length) s.

Definition scheduleNote (destination : Node) (event : NoteEvent) (s : Build)
    : Result :=
  let s := with_voice (destination, event) s in
  perform (noteCalls event (add (currentTime (ctx s)) (time event))) s.

Definition scheduleKick (destination : Node) (t : double) (s : Build) : Result :=
  let s := with_drum (destination, Kick t) s in
  perform (kickCalls (add (currentTime (ctx s)) t)) s.

Definition scheduleSnare (destination : Node) (t : double) (s : Build) : Result :=
  let s := with_drum (destination, Snare t) s in
  let bufLen := mul (sampleRate (ctx s)) (dec 12 100) in
  andThen (fill bufLen s) (fun s =>
    perform (snareCalls (add (currentTime (ctx s)) t)) s).

Definition scheduleHihat (destination : Node) (t : double) (open : bool)
    (s : Build) : Result :=
  let s := with_drum (destination, Hihat t open) s in
  let bufLen :=
    mul (sampleRate (ctx s)) (if open then dec 3 10 else dec 5 100) in
  andThen (fill bufLen s) (fun s =>
    perform (hihatCalls (add (currentTime (ctx s)) t)
               (div bufLen (sampleRate (ctx s)))) s).

(** [node.gain.value = v] *)
Definition set_gain (n : Node) (v : double) (s : Build) : Result :=
  Ok (with_gain (n, SetValue v) s).

(** A call on [node.gain]: it is recorded unless it throws. *)
Definition automate (n : Node) (e : ParamEvent) (s : Build) : Result :=
  match e with
  | SetValue v => Ok (with_gain (n, e) s)
  | SetValueAtTime v t =>
      andThen (perform [setValueAtTime v t] s) (fun s => Ok (with_gain (n, e) s))
  | LinearRampToValueAtTime v t =>
      andThen (perform [linearRampToValueAtTime v t] s)
              (fun s => Ok (with_gain (n, e) s))
  end.

(** *** The four loops of [playJingle] *)

(** [bar * beatDuration * 4] *)
Definition barStartOf (beatDuration : double) (bar : nat) : double :=
  mul (mul (of_nat bar) beatDuration) (of_Z 4).

Definition melodyBeat (scale : list double) (lead : WaveType)
    (beatDuration : double) (bar beat : nat) (s : Build) : Result :=
  let barStart := barStartOf beatDuration bar in
  let (u, s) := Math_random s in
  if lt u (dec 7 10) then
    let (u, s) := Math_random s in
    let noteIdx := Math_floor (mul u (of_nat (length scale))) in
    let step := add barStart (mul (of_nat beat) beatDuration) in
    let (d, s) := Math_random s in
    let (g, s) := Math_random s in
    scheduleNote AudioSynth.masterGain
      {| time := step;
         freq := get scale noteIdx;
         duration :=
           mul (mul beatDuration (if lt d (dec 3 10) then of_Z 2 else of_Z 1))
               (dec 9 10);
         wave := lead;
         gain := add (dec 18 100) (mul g (dec 6 100));
         detune := None |} s
  else Ok s.

(** root-third-root-fifth pattern *)
Definition pattern : list nat := [0; 2; 0; 3]%nat.

Definition bassBeat (scale : list double) (bass : WaveType)
    (beatDuration : double) (bar beat : nat) (s : Build) : Result :=
  let bassScale := map (fun f => div f (of_Z 2)) scale in
  let barStart := barStartOf beatDuration bar in
  let step := add barStart (mul (of_nat beat) beatDuration) in
  scheduleNote AudioSynth.masterGain
    {| time := step;
       freq := nth (nth beat pattern 0%nat mod length bassScale) bassScale nan;
       duration := mul beatDuration (dec 85 100);
       wave := bass;
       gain := dec 22 100;
       detune := None |} s.

(** The callback of the [forEach] over the three chord frequencies. *)
Definition padVoice (beatDuration : double) (bar : nat) (r : Result)
    (f : double) : Result :=
  andThen r (fun s =>
    let chordTime := barStartOf beatDuration bar in
    let (u, s) := Math_random s in
    scheduleNote AudioSynth.masterGain
      {| time := chordTime;
         freq := f;
         duration := mul beatDuration (dec 38 10);
         wave := sine;
         gain := dec 6 100;
         detune := Some (sub (mul u (of_Z 6)) (of_Z 3)) |} s).

Definition padBar (scale : list double) (beatDuration : double) (bar : nat)
    (s : Build) : Result :=
  let chordRoot := nth 0 scale nan in
  fold_left (padVoice beatDuration bar)
    [chordRoot; mul chordRoot (dec 125 100); mul chordRoot (dec 15 10)] (Ok s).

Definition drumBar (beatDuration : double) (bar : nat) (s : Build) : Result :=
  let barStart := barStartOf beatDuration bar in
  (* Kick: beats 1 & 3 *)
  let r := fold_left (fun r b =>
             andThen r (scheduleKick AudioSynth.drumBus
                          (add barStart (mul (of_Z b) beatDuration))))
             [0; 2]%Z (Ok s) in
  (* Snare: beats 2 & 4 *)
  let r := fold_left (fun r b =>
             andThen r (scheduleSnare AudioSynth.drumBus
                          (add barStart (mul (of_Z b) beatDuration))))
             [1; 3]%Z r in
  (* Hi-hats: every 8th note *)
  andThen r (for_range 8 (fun i =>
    scheduleHihat AudioSynth.drumBus
      (add barStart (mul (mul (of_nat i) beatDuration) (dec 5 10)))
      (Nat.eqb i 7))).

(** *** The public API *)

Record Params : Type := {
  bpm : double;
  musicalStyle : string;
  tone : string;
  durationSeconds : option double;
  (** whether an [onTimeUpdate] callback is passed *)
  onTimeUpdate : bool
}.

Inductive Timer : Type :=
| Timeout (session : nat) (delay : double)
| Interval (session : nat) (total : double).

Record World : Type := {
  contexts : list AudioContext;
  activeCtx : option nat;
  timers : list Timer;
  random : N;
  deviceRate : double
}.

Definition initial (rate : double) (cur : N) : World :=
  {| contexts := []; activeCtx := None; timers := [];
     random := cur; deviceRate := rate |}.

Definition close (c : AudioContext) : AudioContext :=
  {| state := AudioSynth.closed; sampleRate := sampleRate c;
     currentTime := currentTime c;
     voices := voices c; drums := drums c; gains := gains c |}.

Definition stopAudio (w : World) : World :=
  match activeCtx w with
  | Some a =>
      {| contexts := alter close a (contexts w);
         activeCtx := None;
         timers := timers w; random := random w; deviceRate := deviceRate w |}
  | None => w
  end.

(** How a call of [playJingle] ends: it returns its promise, it throws, or
    it does neither because a loop over the bars has no last turn. *)
Inductive Outcome : Type :=
| Returns (w : World)
| Throws (e : Exception) (w : World)
| NeverReturns.

(** [Math.floor(durationSeconds / (beatDuration * 4))] *)
Definition barCount (beatDuration total : double) : double :=
  Math_floor (div total (mul beatDuration (of_Z 4))).

(** The body of [playJingle] after [activeCtx = ctx], on the new context. *)
Definition arrangeAndFade (params : Params) (s : Build) : Result :=
  let total := default (of_Z 12) (durationSeconds params) in
  let beatDuration := div (of_Z 60) (bpm params) in
  let profile :=
    AnyCase.getStyleProfile toLowerCase (musicalStyle params) (tone params) in
  let now := currentTime (ctx s) in
  (* Routing *)
  let r := set_gain AudioSynth.masterGain (dec 75 100) s in
  let r := andThen r (createReverb (dec 25 10) (dec 35 10)) in
  let r := andThen r (set_gain AudioSynth.dryGain
                        (sub (of_Z 1) (of_num (reverbAmount profile)))) in
  let r := andThen r (set_gain AudioSynth.wetGain
                        (of_num (reverbAmount profile))) in
  let r := andThen r (set_gain AudioSynth.drumBus (dec 8 10)) in
  (* Generate melody *)
  let scale := map of_num (Style.scale profile) in
  let bars := barCount beatDuration total in
  let r := andThen r (for_loop bars (fun bar =>
             for_range 4 (melodyBeat scale (Style.wave profile)
                            beatDuration bar))) in
  (* Bass line *)
  let r := andThen r (for_loop bars (fun bar =>
             for_range 4 (bassBeat scale (Style.bassWave profile)
                            beatDuration bar))) in
  (* Chord pad *)
  let r := andThen r (for_loop bars (padBar scale beatDuration)) in
  (* Drums *)
  let r := andThen r (for_loop bars (drumBar beatDuration)) in
  (* Fade out *)
  let r := andThen r (automate AudioSynth.masterGain
             (SetValueAtTime (dec 75 100)
                (sub (add now total) (dec 15 10)))) in
  let r := andThen r (automate AudioSynth.masterGain
             (LinearRampToValueAtTime (of_Z 0) (add now total))) in
  let r := andThen r (automate AudioSynth.drumBus
             (SetValueAtTime (dec 8 10) (sub (add now total) (dec 15 10)))) in
  andThen r (automate AudioSynth.drumBus
               (LinearRampToValueAtTime (of_Z 0) (add now total))).

Definition playJingle (params : Params) (w : World) : Outcome :=
  let w := stopAudio w in
  let id := length (contexts w) in
  let total := default (of_Z 12) (durationSeconds params) in
  let s := {| ctx := {| state := AudioSynth.running;
                        sampleRate := deviceRate w;
                        currentTime := zero;
                        voices := []; drums := []; gains := [] |};
              cursor := random w |} in
  let left (s : Build) (ts : list Timer) : World :=
    {| contexts := contexts w ++ [ctx s];
       activeCtx := Some id;
       timers := timers w ++ ts;
       random := cursor s;
       deviceRate := deviceRate w |} in
  match arrangeAndFade params s with
  | Ok s =>
      Returns (left s ((if onTimeUpdate params then [Interval id total] else [])
                       ++ [Timeout id (add (mul total (of_Z 1000)) (of_Z 200))]))
  | Throw e s => Throws e (left s [])
  | Unending => NeverReturns
  end.

End Synth.

(** The twelve percussion triggers of a bar, in the order they are issued:
    kicks on beats 1 and 3, snares on beats 2 and 4, hi-hats on the eight
    eighth notes, the last one open. *)
Definition hihatTime (beatDuration : double) (bar i : nat) : double :=
  add (barStartOf beatDuration bar)
      (mul (mul (of_nat i) beatDuration) (dec 5 10)).

Definition beatTime (beatDuration : double) (bar : nat) (b : Z) : double :=
  add (barStartOf beatDuration bar) (mul (of_Z b) beatDuration).

Definition drumHits (beatDuration : double) (bar : nat) : list DrumHit :=
  [ Kick (beatTime beatDuration bar 0);
    Kick (beatTime beatDuration bar 2);
    Snare (beatTime beatDuration bar 1);
    Snare (beatTime beatDuration bar 3);
    Hihat (hihatTime beatDuration bar 0) false;
    Hihat (hihatTime beatDuration bar 1) false;
    Hihat (hihatTime beatDuration bar 2) false;
    Hihat (hihatTime beatDuration bar 3) false;
    Hihat (hihatTime beatDuration bar 4) false;
    Hihat (hihatTime beatDuration bar 5) false;
    Hihat (hihatTime beatDuration bar 6) false;
    Hihat (hihatTime beatDuration bar 7) true ].

Definition is_kick (h : DrumHit) : bool :=
  match h with Kick _ => true | _ => false end.

Definition is_snare (h : DrumHit) : bool :=
  match h with Snare _ => true | _ => false end.

Definition is_hihat (h : DrumHit) : bool :=
  match h with Hihat _ _ => true | _ => false end.

Definition is_open_hihat (h : DrumHit) : bool :=
  match h with Hihat _ open => open | _ => false end.

Definition is_closed_hihat (h : DrumHit) : bool :=
  match h with Hihat _ open => negb open | _ => false end.

Definition count (p : DrumHit -> bool) (l : list DrumHit) : nat :=
  length (List.filter p l).

(** The session [playJingle] has just created: the last context. *)
Definition session (w : World) : option AudioContext :=
  last (contexts w).

(** The state a piece of [playJingle] leaves, when it leaves one. *)
Definition left_by (r : Result) : option Build :=
  match r with
  | Ok s | Throw _ s => Some s
  | Unending => None
  end.

(** The world a call of [playJingle] leaves, when it leaves one. *)
Definition world_after (o : Outcome) : option World :=
  match o with
  | Returns w | Throws _ w => Some w
  | NeverReturns => None
  end.

(** A note event the voice scheduler accepts: frequency and duration are
    strictly positive. *)
Definition schedulable (e : NoteEvent) : Prop :=
  positive (freq e) = true /\ positive (duration e) = true.

(** The eight writes to gain parameters: the routing levels, then the
    fade-out. *)
Definition gainWrites (profile : StyleProfile) (total : double)
    : list (Node * ParamEvent) :=
  [ (AudioSynth.masterGain, SetValue (dec 75 100));
    (AudioSynth.dryGain, SetValue (sub (of_Z 1) (of_num (reverbAmount profile))));
    (AudioSynth.wetGain, SetValue (of_num (reverbAmount profile)));
    (AudioSynth.drumBus, SetValue (dec 8 10));
    (AudioSynth.masterGain,
     SetValueAtTime (dec 75 100) (sub (add zero total) (dec 15 10)));
    (AudioSynth.masterGain, LinearRampToValueAtTime (of_Z 0) (add zero total));
    (AudioSynth.drumBus,
     SetValueAtTime (dec 8 10) (sub (add zero total) (dec 15 10)));
    (AudioSynth.drumBus, LinearRampToValueAtTime (of_Z 0) (add zero total)) ].


(** A property of the state a piece leaves, however it ends. *)
Definition leaves (Q : Build -> Prop) (r : Result) : Prop :=
  match left_by r with
  | Some s => Q s
  | None => True
  end.

(** Every voice created so far is schedulable. *)
Definition all_schedulable (s : Build) : Prop :=
  Forall (fun v => schedulable (snd v))
         (voices (ctx s)).

(** What the engine needs of a style profile: a scale of 5 or 6 degrees,
    each a finite frequency above 0, and so are their halves for the bass
    and the third and the fifth of the pad. *)
Definition audible (f : double) : bool := positive f && is_finite f.

Definition profile_sound (p : StyleProfile) : bool :=
  let sc := map of_num (Style.scale p) in
  let root := nth 0 sc nan in
  ((length sc =? 5)%nat || (length sc =? 6)%nat)
  && forallb audible sc
  && forallb audible (map (fun f => div f (of_Z 2)) sc)
  && audible (mul root (dec 125 100))
  && audible (mul root (dec 15 10)).

(** *** When the API accepts every call of a session *)

(** A piece of [playJingle] ends normally, in a state where [Q] holds. *)
Definition proceeds (Q : Build -> Prop) (r : Result) : Prop :=
  exists s, r = Ok s /\ Q s.

(** The clock and the sample rate of the context under construction. *)
Definition on_clock (now rate : double) (s : Build) : Prop :=
  currentTime (ctx s) = now /\ sampleRate (ctx s) = rate.

(** A time the API accepts: a finite number that is not negative. *)
Definition accepted (t : double) : bool :=
  match time_error t with
  | None => true
  | Some _ => false
  end.

Definition accepted_calls (cs : list Call) : bool :=
  match first_error cs with
  | None => true
  | Some _ => false
  end.

(** The four times of the envelope of a note that starts at [t0]. *)
Definition note_times_accepted (t0 duration : double) : bool :=
  accepted t0 && accepted (add t0 duration) && accepted (add t0 (dec 2 100))
  && accepted (sub (add t0 duration) (dec 5 100)).

(** A loop [for (let i = 0; i < len; i++)] that ends. *)
Definition ends (len : double) : bool :=
  match loop_count len with
  | Some _ => true
  | None => false
  end.

(** The times of everything one bar schedules, on a context whose clock
    reads 0: the melody notes of either length, the bass notes, the pad,
    the kicks, the snares and the hi-hats. *)
Definition bar_accepted (rate beatDuration : double) (bar : nat) : bool :=
  forallb (fun beat =>
     let t0 := add zero (add (barStartOf beatDuration bar)
                             (mul (of_nat beat) beatDuration)) in
     note_times_accepted t0 (mul (mul beatDuration (of_Z 2)) (dec 9 10))
     && note_times_accepted t0 (mul (mul beatDuration (of_Z 1)) (dec 9 10))
     && note_times_accepted t0 (mul beatDuration (dec 85 100)))
    (seq 0 4)
  && note_times_accepted (add zero (barStartOf beatDuration bar))
       (mul beatDuration (dec 38 10))
  && forallb (fun b =>
       accepted_calls (kickCalls (add zero (beatTime beatDuration bar b))))
       [0; 2]%Z
  && forallb (fun b =>
       accepted_calls (snareCalls (add zero (beatTime beatDuration bar b))))
       [1; 3]%Z
  && forallb (fun i =>
       accepted_calls
         (hihatCalls (add zero (hihatTime beatDuration bar i))
            (div (mul rate (if Nat.eqb i 7 then dec 3 10 else dec 5 100)) rate)))
       (seq 0 8).

(** The times of a whole session of [bars] bars and [total] seconds on a
    device of sample rate [rate], and the ends of the loops that fill its
    noise buffers. *)
Definition session_accepted (rate beatDuration total : double) (bars : nat)
    : bool :=
  ends (mul rate (dec 25 10)) && ends (mul rate (dec 12 100))
  && ends (mul rate (dec 3 10)) && ends (mul rate (dec 5 100))
  && forallb (bar_accepted rate beatDuration) (seq 0 bars)
  && accepted (sub (add zero total) (dec 15 10))
  && accepted (add zero total).

End AudioSynth64.

(** * Properties *)

Import JsNum JsString Arrangement.

(** ** Arithmetic of the number model *)

Section NumFacts.

Lemma Qltb_lt a b : Qltb a b = true <-> a < b.
Proof.
  unfold Qltb. rewrite negb_true_iff, <- not_true_iff_false, Qle_bool_iff.
  split; [apply Qnot_le_lt | apply Qlt_not_le].
Qed.

Lemma Qltb_ge a b : Qltb a b = false <-> b <= a.
Proof.
  unfold Qltb. rewrite negb_false_iff. apply Qle_bool_iff.
Qed.

Lemma Qeq_bool_false_iff a b : Qeq_bool a b = false <-> ~ a == b.
Proof.
  rewrite <- not_true_iff_false, Qeq_bool_iff. tauto.
Qed.

Lemma Qltb_spec a b : reflect (a < b) (Qltb a b).
Proof.
  destruct (Qltb a b) eqn:E; constructor.
  - now apply Qltb_lt.
  - apply Qltb_ge in E. now apply Qle_not_lt.
Qed.

Lemma div_finite a b : ~ b == 0 -> div (Fin a) (Fin b) = Fin (a / b).
Proof.
  intros Hb. simpl. now rewrite (proj2 (Qeq_bool_false_iff b 0) Hb).
Qed.





End NumFacts.

(** ** The tempo clamp *)

Section TempoClamp.

Import Gemini.

Variable StringToNumber : string -> num.

(** The three nested calls on a finite integer operand. *)
Lemma clamp_finite (r : Z) :
  Math_max (Fin 60) (Math_min (Fin 180) (of_Z r))
  = of_Z (Z.max 60 (Z.min 180 r)).
Proof.
  unfold of_Z. cbn [Math_min Math_max lt].
  destruct (Qltb_spec (inject_Z r) 180) as [H|H].
  - change 180 with (inject_Z 180) in H. rewrite <- Zlt_Qlt in H.
    rewrite Z.min_r by lia. cbn [lt].
    destruct (Qltb_spec 60 (inject_Z r)) as [H'|H'].
    + change 60 with (inject_Z 60) in H'. rewrite <- Zlt_Qlt in H'.
      now rewrite Z.max_r by lia.
    + apply Qnot_lt_le in H'. change 60 with (inject_Z 60) in H'.
      rewrite <- Zle_Qle in H'. now rewrite Z.max_l by lia.
  - apply Qnot_lt_le in H. change 180 with (inject_Z 180) in H.
    rewrite <- Zle_Qle in H. rewrite Z.min_l by lia. reflexivity.
Qed.

Lemma or_else_not_NaN a : or_else a (Fin 120) <> NaN.
Proof.
  destruct a; unfold or_else; simpl; try discriminate.
  destruct (Qeq_bool q 0); discriminate.
Qed.

Lemma clamp_any a :
  a <> NaN ->
  exists z, Math_max (Fin 60) (Math_min (Fin 180) (Math_round a)) = of_Z z
            /\ (60 <= z <= 180)%Z.
Proof.
  destruct a as [q| | |]; intros Ha.
  - eexists. split; [apply clamp_finite | lia].
  - exists 180%Z. split; [reflexivity | lia].
  - exists 60%Z. split; [reflexivity | lia].
  - congruence.
Qed.

(** C10. The tempo [generateJingle] returns is always an integer between 60
    and 180.  A number found in the response is rounded to the nearest
    integer and clamped: 200 gives 180, 45 gives 60, 128.5 gives 129; a
    string is converted to a number first.  120 takes its place when the
    value is missing, is [null] or does not convert to a number, and also
    when it is 0, which [||] treats as missing. *)
Theorem C10_bpm_integer_in_60_180 :
  (forall v : JsValue,
      exists z : Z, bpm StringToNumber v = of_Z z /\ (60 <= z <= 180)%Z) /\
  (forall q : Q, ~ q == 0 ->
      bpm StringToNumber (VNumber (Fin q))
      = of_Z (Z.max 60 (Z.min 180 (Qfloor (q + (1 # 2)))))) /\
  (forall (s : string) (q : Q), StringToNumber s = Fin q -> ~ q == 0 ->
      bpm StringToNumber (VString s)
      = of_Z (Z.max 60 (Z.min 180 (Qfloor (q + (1 # 2)))))) /\
  (bpm StringToNumber (VNumber (Fin 200)) = of_Z 180 /\
   bpm StringToNumber (VNumber (Fin 45)) = of_Z 60 /\
   bpm StringToNumber (VNumber (Fin 128.5)) = of_Z 129 /\
   bpm StringToNumber (VNumber (Fin 97.4)) = of_Z 97 /\
   bpm StringToNumber (VNumber PInf) = of_Z 180 /\
   bpm StringToNumber (VNumber NInf) = of_Z 60) /\
  (bpm StringToNumber VUndefined = of_Z 120 /\
   bpm StringToNumber VNull = of_Z 120 /\
   bpm StringToNumber (VNumber NaN) = of_Z 120 /\
   bpm StringToNumber (VNumber (Fin 0)) = of_Z 120) /\
  (forall s : string, StringToNumber s = NaN ->
      bpm StringToNumber (VString s) = of_Z 120 /\
      bpm StringToNumber (VObject s) = of_Z 120).
Proof.
  assert (Hnum : forall q : Q, ~ q == 0 ->
            Math_max (Fin 60)
              (Math_min (Fin 180) (Math_round (or_else (Fin q) (Fin 120))))
            = of_Z (Z.max 60 (Z.min 180 (Qfloor (q + (1 # 2)))))).
  { intros q Hq. unfold or_else. cbn [truthy].
    rewrite (proj2 (Qeq_bool_false_iff q 0) Hq). cbn [negb Math_round].
    apply clamp_finite. }
  split; [|split; [|split; [|split; [|split]]]].
  - intros v. unfold bpm. apply clamp_any, or_else_not_NaN.
  - intros q Hq. unfold bpm. cbn [Number]. now apply Hnum.
  - intros s q E Hq. unfold bpm. cbn [Number]. rewrite E. now apply Hnum.
  - repeat split; reflexivity.
  - repeat split; reflexivity.
  - intros s E. unfold bpm. cbn [Number]. rewrite E. split; reflexivity.
Qed.

End TempoClamp.

(** ** The waveform preview *)

Section WaveformFacts.

Variable sinQ : Q -> Q.
Variable rnd : N -> Q.

Lemma clamp_unit (v : Q) :
  exists q, Math_min (Fin 1) (Math_max (Fin 0.08) (Fin v)) = Fin q
            /\ 0.08 <= q <= 1.
Proof.
  cbn [Math_max lt].
  destruct (Qltb_spec 0.08 v) as [H|H]; cbn [Math_min lt].
  - destruct (Qltb_spec v 1) as [H'|H'].
    + exists v. split; [reflexivity | lra].
    + exists 1. split; [reflexivity | lra].
  - destruct (Qltb_spec 0.08 1) as [H'|H'].
    + exists 0.08. split; [reflexivity | lra].
    + exists 1. split; [reflexivity | lra].
Qed.

Lemma of_nat_nonzero n : (0 < n)%nat -> ~ inject_Z (Z.of_nat n) == 0.
Proof.
  intros Hn E. unfold Qeq in E. simpl in E. lia.
Qed.

(** Inside the loop every intermediate value is finite, so the value
    pushed is the clamp of a rational. *)
Lemma waveformSample_range (b : Q) (n i : nat) (k : N) :
  (i < n)%nat ->
  exists q, waveformSample sinQ rnd (Fin b) n i k = Fin q /\ 0.08 <= q <= 1.
Proof.
  intros Hi. unfold waveformSample, Math_PI, of_nat.
  rewrite div_finite by (apply of_nat_nonzero; lia).
  rewrite div_finite by (intros E; discriminate E).
  cbn [mul Math_sin add Math_abs].
  apply clamp_unit.
Qed.

Lemma generateWaveformData_loop (bpm : num) (total n : nat) (k : N) :
  for_range n
    (fun i '(data, k) => (data ++ [waveformSample sinQ rnd bpm total i k], N.succ k))
    ([], k)
  = (map (fun i => waveformSample sinQ rnd bpm total i (k + N.of_nat i)%N) (seq 0 n),
     (k + N.of_nat n)%N).
Proof.
  induction n as [|n IH].
  - simpl. now rewrite N.add_0_r.
  - unfold for_range in *. rewrite seq_S, fold_left_app, IH. simpl.
    rewrite map_app. simpl. f_equal. lia.
Qed.

(** C8, amended. For every finite tempo and every sample count [n], the
    preview has exactly [n] values, each a number between 0.08 and 1. *)
Theorem C8_waveform_length_and_range :
  forall (bpm : Q) (n : nat) (k : N),
    let data := fst (generateWaveformData sinQ rnd (Fin bpm) (Some n) k) in
    length data = n /\
    Forall (fun v => exists q, v = Fin q /\ 0.08 <= q <= 1) data.
Proof.
  intros b n k. unfold generateWaveformData. cbn [default].
  rewrite generateWaveformData_loop. cbn [fst]. split.
  - now rewrite length_map, length_seq.
  - apply List.Forall_forall. intros v Hv.
    apply in_map_iff in Hv as (i & <- & Hi).
    apply in_seq in Hi. apply waveformSample_range. lia.
Qed.

End WaveformFacts.

(** With a tempo that is not a number, or an infinite one, the clamp lets
    [NaN] through: whatever [Math.sin] and [Math.random] return, the two
    values asked for are [NaN], which is no number between 0.08 and 1. *)
Lemma C8_tempo_not_finite_gives_NaN :
  fst (generateWaveformData (fun x => x) (fun _ => 1 # 2) NaN (Some 2%nat) 0)
  = [NaN; NaN] /\
  fst (generateWaveformData (fun x => x) (fun _ => 1 # 2) PInf (Some 2%nat) 0)
  = [NaN; NaN] /\
  ~ List.Forall (fun v => exists q, v = Fin q /\ 0.08 <= q <= 1) [NaN; NaN].
Proof.
  split; [reflexivity|]. split; [reflexivity|].
  intros H. inversion H as [|v l (q & Hq & _) _]. discriminate Hq.
Qed.

(** ** The style profile resolver *)

Section ResolverFacts.

Local Open Scope string_scope.

Lemma starts_with_iff s kw : starts_with s kw = true <-> exists t, s = kw ++ t.
Proof.
  revert s. induction kw as [|k kw IH]; intros s.
  - simpl. split; [intros _; now exists s | reflexivity].
  - destruct s as [|c s]; simpl.
    + split; [discriminate | intros [t Ht]; discriminate].
    + rewrite andb_true_iff, Ascii.eqb_eq, IH. split.
      * intros [-> [t ->]]. now exists t.
      * intros [t Ht]. injection Ht as -> ->. split; [reflexivity | now exists t].
Qed.

Lemma includes_iff s kw :
  includes s kw = true <-> exists a b, s = a ++ kw ++ b.
Proof.
  induction s as [|c s IH].
  - simpl. destruct (starts_with "" kw) eqn:E.
    + apply starts_with_iff in E as [t Ht]. split; [|reflexivity].
      intros _. now exists "", t.
    + split; [discriminate|]. intros (a & b & H).
      destruct a; [|discriminate]. simpl in H.
      assert (starts_with "" kw = true) by (apply starts_with_iff; eauto).
      congruence.
  - simpl. destruct (starts_with (String c s) kw) eqn:E.
    + apply starts_with_iff in E as [t Ht]. split; [|reflexivity].
      intros _. now exists "", t.
    + rewrite IH. split.
      * intros (a & b & ->). now exists (String c a), b.
      * intros (a & b & H). destruct a as [|c' a].
        -- simpl in H.
           assert (starts_with (String c s) kw = true)
             by (apply starts_with_iff; eauto).
           congruence.
        -- simpl in H. injection H as -> ->. now exists a, b.
Qed.

Lemma toLowerCase_app a b :
  toLowerCase (a ++ b) = toLowerCase a ++ toLowerCase b.
Proof. induction a as [|c a IH]; simpl; [reflexivity | now rewrite IH]. Qed.

Lemma toLowerCase_split s x y :
  toLowerCase s = x ++ y ->
  exists a b, s = a ++ b /\ toLowerCase a = x /\ toLowerCase b = y.
Proof.
  revert s. induction x as [|c x IH]; intros s H.
  - now exists "", s.
  - destruct s as [|d s]; [discriminate|]. simpl in H. injection H as Hc H.
    destruct (IH _ H) as (a & b & -> & <- & <-).
    exists (String d a), b. simpl. now rewrite Hc.
Qed.

(** The search on the lower-cased text is a search up to case. *)
Lemma includes_ignoring_case s kw :
  includes (toLowerCase s) kw = true <-> occurs_ignoring_case kw s.
Proof.
  rewrite includes_iff. unfold occurs_ignoring_case. split.
  - intros (x & y & H).
    apply toLowerCase_split in H as (a & r & -> & _ & H).
    apply toLowerCase_split in H as (w & b & -> & Hw & _).
    now exists a, w, b.
  - intros (a & w & b & -> & <-).
    exists (toLowerCase a), (toLowerCase b). now rewrite !toLowerCase_app.
Qed.

Lemma getStyleProfile_first_match style tone :
  getStyleProfile style tone
  = resolve_first_match (toLowerCase (style ++ " " ++ tone)).
Proof.
  unfold getStyleProfile, resolve_first_match, keyword_groups, group_matches.
  generalize (toLowerCase (style ++ " " ++ tone)). intros text.
  cbn [find existsb fst snd].
  repeat match goal with
         | |- context [includes text ?k] =>
             destruct (includes text k); cbn [orb]; try reflexivity
         end.
Qed.

Lemma resolve_first_match_cases text :
  In (resolve_first_match text)
     [dark_profile; jazz_profile; energetic_profile; techno_profile;
      default_profile].
Proof.
  unfold resolve_first_match, keyword_groups. cbn [find].
  repeat match goal with
         | |- context [group_matches text ?g] =>
             destruct (group_matches text g); cbn [snd]
         end; simpl; auto 6.
Qed.

Lemma profiles_ok :
  List.Forall profile_ok
    [dark_profile; jazz_profile; energetic_profile; techno_profile;
     default_profile].
Proof.
  repeat constructor; simpl; try lia;
    (eexists; split; [reflexivity | lra]).
Qed.

Lemma resolve_first_match_default text :
  (forall g kw, In g keyword_groups -> In kw (fst g) -> includes text kw = false) ->
  resolve_first_match text = default_profile.
Proof.
  intros H. unfold resolve_first_match.
  destruct (find (group_matches text) keyword_groups) as [g|] eqn:E; [|reflexivity].
  apply find_some in E as [Hg Hm]. unfold group_matches in Hm.
  apply existsb_exists in Hm as (kw & Hkw & Hin).
  rewrite (H g kw Hg Hkw) in Hin. discriminate.
Qed.

End ResolverFacts.

(** *** The resolver on any text, [toLowerCase] being left open *)

Section ResolverAnyText.

Local Open Scope string_scope.

Variable lower : string -> string.

(** On ASCII text JavaScript's [toLowerCase] moves [A]..[Z] to [a]..[z] and
    leaves the other characters as they are. *)
Hypothesis lower_ascii :
  forall s : string, is_ascii s = true -> lower s = toLowerCase s.

Lemma getStyleProfile_any_first_match style tone :
  AnyCase.getStyleProfile lower style tone
  = resolve_first_match (lower (style ++ " " ++ tone)).
Proof.
  unfold AnyCase.getStyleProfile, resolve_first_match, keyword_groups,
    group_matches.
  generalize (lower (style ++ " " ++ tone)). intros text.
  cbn [find existsb fst snd].
  repeat match goal with
         | |- context [includes text ?k] =>
             destruct (includes text k); cbn [orb]; try reflexivity
         end.
Qed.

(** C5. The resolver is a function of the two labels with no error case,
    on every pair of strings.  It searches the lower-cased text
    [style ++ " " ++ tone] for the keywords of an ordered list of groups and
    returns the profile of the first group that has a keyword in it; every
    profile returned has at least 5 scale frequencies and a reverb amount in
    [0,1]; when no keyword is found the default profile is returned; on
    ASCII text the search is a substring search up to the case of the
    letters; and "Dark Industrial Techno" / "Serious" resolves to the dark
    group, of reverb amount 0.6, although "techno" occurs in it too. *)
Theorem C5_resolver_total_first_match :
  forall style tone : string,
    let text := lower (style ++ " " ++ tone) in
    let profile := AnyCase.getStyleProfile lower style tone in
    profile = resolve_first_match text /\
    (forall g, find (group_matches text) keyword_groups = Some g ->
       profile = snd g /\ In g keyword_groups /\
       exists kw, In kw (fst g) /\ includes text kw = true) /\
    (find (group_matches text) keyword_groups = None ->
       profile = default_profile) /\
    profile_ok profile /\
    ((forall g kw, In g keyword_groups -> In kw (fst g) ->
                   includes text kw = false) ->
     profile = default_profile) /\
    (is_ascii (style ++ " " ++ tone) = true ->
     (forall kw, includes text kw = true
                 <-> occurs_ignoring_case kw (style ++ " " ++ tone)) /\
     ((forall g kw, In g keyword_groups -> In kw (fst g) ->
                    ~ occurs_ignoring_case kw (style ++ " " ++ tone)) ->
      profile = default_profile)) /\
    (AnyCase.getStyleProfile lower "Dark Industrial Techno" "Serious"
     = dark_profile /\
     reverbAmount dark_profile = Fin 0.6 /\
     includes (lower ("Dark Industrial Techno" ++ " " ++ "Serious")) "techno"
     = true).
Proof.
  intros style tone text profile.
  assert (E : profile = resolve_first_match text)
    by apply getStyleProfile_any_first_match.
  split; [exact E|]. split; [|split; [|split; [|split; [|split]]]].
  - intros g Hg. rewrite E. unfold resolve_first_match. rewrite Hg.
    split; [reflexivity|]. apply find_some in Hg as [Hin Hm].
    split; [exact Hin|]. unfold group_matches in Hm.
    apply existsb_exists in Hm as (kw & Hkw & Hinc). now exists kw.
  - intros Hg. rewrite E. unfold resolve_first_match. now rewrite Hg.
  - rewrite E. pose proof profiles_ok as Hok. rewrite List.Forall_forall in Hok.
    apply Hok, resolve_first_match_cases.
  - intros H. rewrite E. now apply resolve_first_match_default.
  - intros Ha. unfold text. rewrite (lower_ascii _ Ha). split.
    + intros kw. apply includes_ignoring_case.
    + intros H. rewrite E. unfold text. rewrite (lower_ascii _ Ha).
      apply resolve_first_match_default. intros g kw Hg Hkw.
      apply not_true_iff_false. rewrite includes_ignoring_case. now apply (H g).
  - rewrite getStyleProfile_any_first_match.
    rewrite (lower_ascii ("Dark Industrial Techno" ++ " " ++ "Serious") eq_refl).
    repeat split; reflexivity.
Qed.

End ResolverAnyText.

(** The resolver with the case mapping of ASCII text, on the scenario of the
    specification and on labels that hold no keyword. *)
Lemma C5_resolver_total_first_match_witness :
  AnyCase.getStyleProfile toLowerCase "Dark Industrial Techno" "Serious"
  = dark_profile /\
  AnyCase.getStyleProfile toLowerCase "Morning News" "Calm" = default_profile.
Proof.
  split.
  - exact (proj1 (proj2 (proj2 (proj2 (proj2 (proj2 (proj2
             (C5_resolver_total_first_match toLowerCase (fun s _ => eq_refl)
                EmptyString EmptyString)))))))).
  - apply (proj1 (proj2 (proj2
             (C5_resolver_total_first_match toLowerCase (fun s _ => eq_refl)
                "Morning News" "Calm")))).
    reflexivity.
Defined.


(** ** The loops of [playJingle] and the arrangement they produce *)

Section LoopFacts.

Variable rnd : N -> Q.

Lemma for_range_S {S : Type} (n : nat) (body : nat -> S -> S) (s : S) :
  for_range (Datatypes.S n) body s = body n (for_range n body s).
Proof. unfold for_range. now rewrite seq_S, fold_left_app. Qed.

Lemma extend_nil s : extend [] [] (cursor s) s = s.
Proof.
  destruct s as [[st sr vs ds gs] k]. unfold extend. simpl.
  now rewrite !app_nil_r.
Qed.

Lemma extend_extend vs1 ds1 k1 vs2 ds2 k2 s :
  extend vs2 ds2 k2 (extend vs1 ds1 k1 s) = extend (vs1 ++ vs2) (ds1 ++ ds2) k2 s.
Proof. unfold extend. simpl. now rewrite !app_assoc. Qed.

Lemma scheduleNote_extend d e s :
  scheduleNote d e s = extend [(d, e)] [] (cursor s) s.
Proof. unfold scheduleNote, extend, with_voice. simpl. now rewrite app_nil_r. Qed.

Lemma get_map_div (l : list num) (i : num) :
  get (map (fun f => div f (Fin 2)) l) i = div (get l i) (Fin 2).
Proof.
  unfold get. destruct (to_index i) as [k|]; [|reflexivity].
  change NaN with (div NaN (Fin 2)) at 1.
  apply (map_nth (fun f => div f (Fin 2))).
Qed.

(** *** Bass *)

Lemma bassBeat_extend profile bd bar beat s :
  bassBeat profile bd bar beat s
  = extend [(masterGain, bassNote profile bd bar beat)] [] (cursor s) s.
Proof.
  unfold bassBeat. rewrite scheduleNote_extend. unfold bassNote, beatStart.
  now rewrite get_map_div, length_map.
Qed.

Lemma bassLine_extend profile bd n s :
  bassLine profile bd n s
  = extend (map (pair masterGain) (flat_map (bassBar profile bd) (seq 0 n)))
           [] (cursor s) s.
Proof.
  unfold bassLine. induction n as [|n IH].
  - simpl. symmetry. apply extend_nil.
  - rewrite for_range_S, IH, seq_S, flat_map_app, map_app.
    unfold for_range at 1. cbn [seq fold_left].
    rewrite !bassBeat_extend, !extend_extend. cbn [cursor extend].
    cbn [flat_map bassBar map Nat.add]. now rewrite !app_nil_r.
Qed.

(** *** Chord pad *)

Lemma padVoice_extend profile bd bar s f :
  padVoice rnd bd bar s f
  = extend [(masterGain, padNote rnd profile bd bar f (cursor s))] []
           (cursor s + 1) s.
Proof.
  unfold padVoice, Math_random. cbn [ctx cursor]. rewrite scheduleNote_extend.
  unfold extend, padNote. cbn [ctx cursor sub mul neg add].
  now rewrite N.add_1_r.
Qed.

Lemma chordPad_extend profile bd n s :
  chordPad rnd profile bd n s
  = extend
      (map (pair masterGain)
         (flat_map (fun bar => padBar rnd profile bd bar
                                 (cursor s + 3 * N.of_nat bar))
                   (seq 0 n)))
      [] (cursor s + 3 * N.of_nat n) s.
Proof.
  unfold chordPad. induction n as [|n IH].
  - simpl. rewrite N.add_0_r. symmetry. apply extend_nil.
  - rewrite for_range_S, IH, seq_S, flat_map_app, map_app. cbn [fold_left].
    rewrite !(padVoice_extend profile), !extend_extend. cbn [cursor extend].
    cbn [flat_map padBar map Nat.add].
    rewrite !app_nil_r. cbn [app].
    replace (cursor s + 3 * N.of_nat n + 1 + 1 + 1)%N
      with (cursor s + 3 * N.of_nat (S n))%N by lia.
    replace (cursor s + 3 * N.of_nat n + 1 + 1)%N
      with (cursor s + 3 * N.of_nat n + 2)%N by lia.
    reflexivity.
Qed.

(** *** Drums *)

Lemma scheduleKick_extend vs ds k t s :
  scheduleKick drumBus t (extend vs ds k s)
  = extend vs (ds ++ [(drumBus, Kick t)]) k s.
Proof. unfold scheduleKick, extend, with_drum. simpl. now rewrite app_assoc. Qed.

Lemma scheduleSnare_extend vs ds k t s :
  scheduleSnare drumBus t (extend vs ds k s)
  = extend vs (ds ++ [(drumBus, Snare t)])
      (k + draws (mul (of_N (sampleRate (ctx s))) (Fin 0.12))) s.
Proof. unfold scheduleSnare, extend, with_drum. simpl. now rewrite app_assoc. Qed.

Lemma scheduleHihat_extend vs ds k t (open : bool) s :
  scheduleHihat drumBus t open (extend vs ds k s)
  = extend vs (ds ++ [(drumBus, Hihat t open)])
      (k + draws (mul (of_N (sampleRate (ctx s)))
                      (if open then Fin 0.3 else Fin 0.05))) s.
Proof. unfold scheduleHihat, extend, with_drum. simpl. now rewrite app_assoc. Qed.

Lemma drumBar_extend bd bar s :
  drumBar bd bar s
  = extend [] (map (pair drumBus) (drumHits bd bar))
      (cursor s + drumDraws (sampleRate (ctx s))) s.
Proof.
  unfold drumBar, for_range. cbn [seq fold_left Nat.eqb].
  rewrite <- (extend_nil s) at 1.
  rewrite !scheduleKick_extend, !scheduleSnare_extend, !scheduleHihat_extend.
  cbn [app map drumHits]. unfold hihatTime, drumDraws. f_equal. lia.
Qed.

Lemma drumLoop_extend bd n s :
  drumLoop bd n s
  = extend [] (map (pair drumBus) (flat_map (drumHits bd) (seq 0 n)))
      (cursor s + N.of_nat n * drumDraws (sampleRate (ctx s))) s.
Proof.
  unfold drumLoop. induction n as [|n IH].
  - simpl. rewrite N.add_0_r. symmetry. apply extend_nil.
  - rewrite for_range_S, IH, drumBar_extend, extend_extend.
    rewrite seq_S, flat_map_app, map_app.
    cbn [cursor extend ctx sampleRate flat_map Nat.add].
    rewrite !app_nil_r. f_equal. lia.
Qed.

(** *** Melody *)

Lemma melodyBeat_extend profile bd bar beat s :
  melodyBeat rnd profile bd bar beat s
  = extend (map (pair masterGain)
              (option_list (melodyNote rnd profile bd bar beat (cursor s))))
           [] (melodyCursor rnd (cursor s)) s.
Proof.
  unfold melodyBeat, melodyNote, melodyCursor, Math_random.
  cbn [ctx cursor lt]. destruct (Qltb (rnd (cursor s)) 0.7).
  - rewrite scheduleNote_extend. unfold extend, beatStart.
    cbn [ctx cursor option_list map lt mul add Math_floor of_nat].
    replace (N.succ (cursor s)) with (cursor s + 1)%N by lia.
    replace (N.succ (cursor s + 1)) with (cursor s + 2)%N by lia.
    replace (N.succ (cursor s + 2)) with (cursor s + 3)%N by lia.
    replace (N.succ (cursor s + 3)) with (cursor s + 4)%N by lia.
    reflexivity.
  - cbn [option_list map]. destruct s as [[st sr vs ds gs] k].
    unfold extend. cbn. rewrite !app_nil_r. f_equal. lia.
Qed.

End LoopFacts.

Section SessionFacts.

Variable rnd : N -> Q.

Lemma melodyFrom_app profile bd l1 l2 k :
  melodyFrom rnd profile bd (l1 ++ l2) k
  = let (n1, k1) := melodyFrom rnd profile bd l1 k in
    let (n2, k2) := melodyFrom rnd profile bd l2 k1 in
    (n1 ++ n2, k2).
Proof.
  revert k. induction l1 as [|[bar beat] l1 IH]; intros k; cbn [melodyFrom app].
  - now destruct (melodyFrom rnd profile bd l2 k).
  - rewrite IH. destruct (melodyFrom rnd profile bd l1 _) as [n1 k1].
    destruct (melodyFrom rnd profile bd l2 k1) as [n2 k2].
    now rewrite app_assoc.
Qed.

Lemma melodyBeat_acc profile bd bar beat vs ds k s :
  melodyBeat rnd profile bd bar beat (extend vs ds k s)
  = extend (vs ++ map (pair masterGain)
                    (option_list (melodyNote rnd profile bd bar beat k)))
           ds (melodyCursor rnd k) s.
Proof.
  rewrite melodyBeat_extend, extend_extend. cbn [cursor extend].
  now rewrite app_nil_r.
Qed.

Lemma melodyBeats_acc profile bd bar beats vs ds k s :
  fold_left (fun acc beat => melodyBeat rnd profile bd bar beat acc) beats
    (extend vs ds k s)
  = let (notes, k') := melodyFrom rnd profile bd (map (pair bar) beats) k in
    extend (vs ++ map (pair masterGain) notes) ds k' s.
Proof.
  revert vs k. induction beats as [|beat beats IH]; intros vs k.
  - cbn. now rewrite app_nil_r.
  - cbn [fold_left map melodyFrom]. rewrite melodyBeat_acc, IH.
    destruct (melodyFrom rnd profile bd (map (pair bar) beats) _) as [notes k'].
    now rewrite map_app, app_assoc.
Qed.

Lemma melodyLine_extend profile bd n s :
  melodyLine rnd profile bd n s
  = let (notes, k) := melodyFrom rnd profile bd (grid n) (cursor s) in
    extend (map (pair masterGain) notes) [] k s.
Proof.
  unfold melodyLine. induction n as [|n IH].
  - simpl. symmetry. apply extend_nil.
  - rewrite for_range_S, IH.
    unfold grid. rewrite seq_S, flat_map_app. cbn [flat_map Nat.add].
    rewrite app_nil_r, melodyFrom_app. fold (grid n).
    destruct (melodyFrom rnd profile bd (grid n) (cursor s)) as [n1 k1].
    unfold for_range. change (seq 0 4) with [0; 1; 2; 3]%nat.
    rewrite melodyBeats_acc.
    destruct (melodyFrom rnd profile bd _ k1) as [n2 k2].
    now rewrite map_app.
Qed.

(** [stopAudio] touches only the contexts and [activeCtx]. *)
Lemma stopAudio_frame w :
  timers (stopAudio w) = timers w /\ random (stopAudio w) = random w
  /\ deviceRate (stopAudio w) = deviceRate w
  /\ length (contexts (stopAudio w)) = length (contexts w)
  /\ activeCtx (stopAudio w) = None.
Proof.
  unfold stopAudio. destruct (activeCtx w) eqn:E; cbn; rewrite ?length_alter; auto.
Qed.

Lemma set_gain_extend nd e vs ds k s :
  set_gain nd e (extend vs ds k s) = extend vs ds k (set_gain nd e s).
Proof. reflexivity. Qed.

(** What [playJingle] leaves behind when the bar loops run [n] times: the
    previous session stopped, and a new running context holding the
    arrangement, the gain writes and the two timers. *)
Lemma playJingle_arrange (p : Params) (w : World) (n : nat) :
  let total := default (Fin 12) (durationSeconds p) in
  let bd := div (Fin 60) (bpm p) in
  let profile := getStyleProfile (musicalStyle p) (tone p) in
  let k0 := (random w + 2 * draws (mul (of_N (deviceRate w)) (Fin 2.5)))%N in
  loop_count (barCount bd total) = Some n ->
  exists k',
    playJingle rnd p w
    = Some {| contexts :=
                contexts (stopAudio w)
                ++ [ {| state := running;
                        sampleRate := deviceRate w;
                        voices := map (pair masterGain)
                                    (fst (arrange rnd profile bd n k0));
                        drums := map (pair drumBus)
                                   (snd (arrange rnd profile bd n k0));
                        gains := gainWrites profile total |} ];
              activeCtx := Some (length (contexts w));
              timers := timers w
                        ++ (if onTimeUpdate p then [Interval (length (contexts w)) total]
                            else [])
                        ++ [Timeout (length (contexts w))
                              (add (mul total (Fin 1000)) (Fin 200))];
              random := k';
              deviceRate := deviceRate w |}.
Proof.
  intros total bd profile k0 Hn.
  destruct (stopAudio_frame w) as (Ht & Hr & Hd & Hl & _).
  unfold playJingle. fold total. fold bd. fold profile. rewrite Hn.
  cbv zeta. rewrite Ht, Hr, Hd, Hl.
  set (routed :=
         set_gain drumBus _
           (set_gain wetGain _
              (set_gain dryGain _
                 (createReverb _ _ (set_gain masterGain _ _))))).
  assert (E : routed
              = extend [] [] k0
                  {| ctx := {| state := running; sampleRate := deviceRate w;
                               voices := []; drums := [];
                               gains := firstn 4 (gainWrites profile total) |};
                     cursor := random w |}).
  { subst routed.
    unfold set_gain, createReverb, for_range, skip_draws, with_gain, extend.
    cbn [seq fold_left ctx cursor state sampleRate voices drums gains app
         firstn gainWrites].
    f_equal. unfold k0. lia. }
  rewrite E. clear E routed.
  rewrite melodyLine_extend. cbn [cursor extend].
  unfold arrange. destruct (melodyFrom rnd profile bd (grid n) k0) as [melody k1].
  rewrite extend_extend, bassLine_extend, extend_extend. cbn [cursor extend].
  rewrite chordPad_extend, extend_extend. cbn [cursor extend].
  rewrite drumLoop_extend, extend_extend.
  rewrite !set_gain_extend.
  unfold set_gain, with_gain.
  cbn [cursor extend ctx state sampleRate voices drums gains app fst snd firstn
       gainWrites].
  eexists. rewrite !map_app, !app_nil_r, <- !app_assoc.
  reflexivity.
Qed.

End SessionFacts.

(** ** The beat, the bar count and the last context *)

Section DrumFacts.



Lemma session_snoc cs c a t r d :
  session {| contexts := cs ++ [c]; activeCtx := a; timers := t;
             random := r; deviceRate := d |} = Some c.
Proof. unfold session. cbn [contexts]. apply last_snoc. Qed.


End DrumFacts.

(** ** What a call of [playJingle] leaves in the new context *)

Section PlayFacts.

Variable rnd : N -> Q.

Lemma playJingle_session (p : Params) (w w' : World) :
  let total := default (Fin 12) (durationSeconds p) in
  let bd := div (Fin 60) (bpm p) in
  let profile := getStyleProfile (musicalStyle p) (tone p) in
  let k0 := (random w + 2 * draws (mul (of_N (deviceRate w)) (Fin 2.5)))%N in
  playJingle rnd p w = Some w' ->
  exists n c,
    loop_count (barCount bd total) = Some n /\
    session w' = Some c /\
    contexts w' = contexts (stopAudio w) ++ [c] /\
    activeCtx w' = Some (length (contexts w)) /\
    state c = running /\
    voices c = map (pair masterGain) (fst (arrange rnd profile bd n k0)) /\
    drums c = map (pair drumBus) (snd (arrange rnd profile bd n k0)) /\
    gains c = gainWrites profile total /\
    timers w'
    = timers w
      ++ (if onTimeUpdate p then [Interval (length (contexts w)) total] else [])
      ++ [Timeout (length (contexts w)) (add (mul total (Fin 1000)) (Fin 200))].
Proof.
  intros total bd profile k0 Hplay.
  destruct (loop_count (barCount bd total)) as [n|] eqn:Hn.
  - destruct (playJingle_arrange rnd p w n Hn) as [k' E].
    rewrite E in Hplay. injection Hplay as <-.
    exists n. eexists. split; [reflexivity|]. split; [apply session_snoc|].
    cbn [contexts activeCtx timers state voices drums gains].
    repeat split.
  - unfold playJingle in Hplay. fold total in Hplay. fold bd in Hplay.
    rewrite Hn in Hplay. discriminate.
Qed.

End PlayFacts.

(** ** Bass *)

Section BassFacts.



End BassFacts.

(** ** Chord pad *)

Section PadFacts.

Variable rnd : N -> Q.



End PadFacts.


(** ** Melody *)

Section MelodyFacts.

Variable rnd : N -> Q.






End MelodyFacts.



(** ** The session lifecycle *)

Section LifecycleFacts.

Variable rnd : N -> Q.

Lemma stopAudio_idle w : activeCtx w = None -> stopAudio w = w.
Proof. intros H. unfold stopAudio. now rewrite H. Qed.

Lemma stopAudio_clears w : activeCtx (stopAudio w) = None.
Proof. apply stopAudio_frame. Qed.

(** C6. [stopAudio] is idempotent and safe in every state: a second call
    changes nothing; after a call no context is referred to by [activeCtx],
    and the one that was is closed; with no active session the call leaves
    the state as it is.  The function has no failing case. *)
Theorem C6_stop_idempotent :
  forall w : World,
    stopAudio (stopAudio w) = stopAudio w /\
    activeCtx (stopAudio w) = None /\
    (forall a, activeCtx w = Some a -> is_running (stopAudio w) a = false) /\
    (activeCtx w = None -> stopAudio w = w).
Proof.
  intros w. split; [|split; [|split]].
  - apply stopAudio_idle, stopAudio_clears.
  - apply stopAudio_clears.
  - intros a Ha. unfold stopAudio, is_running. rewrite Ha. cbn [contexts].
    rewrite list_lookup_alter_eq.
    destruct (contexts w !! a) as [c|]; reflexivity.
  - apply stopAudio_idle.
Qed.

(** Closing the context [activeCtx] refers to leaves no context open, when
    at most that one was. *)
Lemma close_active_none_running cs a i :
  (forall j, is_running {| contexts := cs; activeCtx := Some a; timers := [];
                           random := 0; deviceRate := 0 |} j = true -> a = j) ->
  match alter close a cs !! i with
  | Some c => match state c with running => true | closed => false end
  | None => false
  end = false.
Proof.
  intros H. destruct (decide (a = i)) as [->|Hne].
  - rewrite list_lookup_alter_eq. destruct (cs !! i); reflexivity.
  - rewrite list_lookup_alter_ne by exact Hne.
    specialize (H i). unfold is_running in H. cbn [contexts] in H.
    destruct (cs !! i) as [c|]; [|reflexivity].
    destruct (state c); [|reflexivity]. now specialize (H eq_refl).
Qed.

Lemma stopAudio_none_running w i :
  single_session w -> is_running (stopAudio w) i = false.
Proof.
  intros Hw. unfold stopAudio.
  destruct (activeCtx w) as [a|] eqn:Ha.
  - unfold is_running. cbn [contexts]. apply close_active_none_running.
    intros j Hj. specialize (Hw j). unfold is_running in *. cbn [contexts] in Hj.
    specialize (Hw Hj). congruence.
  - destruct (is_running w i) eqn:E; [|reflexivity].
    specialize (Hw i E). congruence.
Qed.

Lemma single_session_stop w : single_session w -> single_session (stopAudio w).
Proof.
  intros Hw i Hi. now rewrite stopAudio_none_running in Hi.
Qed.

Lemma is_running_snoc w w' c i :
  contexts w' = contexts w ++ [c] ->
  (forall j, is_running w j = false) ->
  is_running w' i = true -> i = length (contexts w).
Proof.
  intros Hc Hnone Hi. unfold is_running in Hi. rewrite Hc in Hi.
  destruct (Nat.lt_trichotomy i (length (contexts w))) as [Hlt|[->|Hgt]].
  - rewrite lookup_app_l in Hi by exact Hlt.
    specialize (Hnone i). unfold is_running in Hnone. congruence.
  - reflexivity.
  - rewrite lookup_ge_None_2 in Hi; [discriminate|].
    rewrite length_app. simpl. lia.
Qed.

Lemma single_session_play p w w' :
  single_session w -> playJingle rnd p w = Some w' -> single_session w'.
Proof.
  intros Hw Hplay i Hi.
  destruct (playJingle_session rnd p w w' Hplay)
    as (n & c & _ & _ & Hc & Ha & _).
  destruct (stopAudio_frame w) as (_ & _ & _ & Hlen & _).
  rewrite Ha, <- Hlen. f_equal. symmetry.
  exact (is_running_snoc (stopAudio w) w' c i Hc
           (fun j => stopAudio_none_running w j Hw) Hi).
Qed.

Lemma single_session_clear_timer i w :
  single_session w -> single_session (clear_timer i w).
Proof. intros Hw j Hj. exact (Hw j Hj). Qed.

Lemma single_session_timeout c w :
  single_session w -> single_session (on_timeout c w).
Proof.
  intros Hw. unfold on_timeout.
  destruct (decide (activeCtx w = Some c)) as [Ha|Ha]; [|exact Hw].
  intros i Hi. exfalso. unfold is_running in Hi. cbn [contexts] in Hi.
  rewrite close_active_none_running in Hi; [discriminate|].
  intros j Hj. specialize (Hw j). unfold is_running in *. cbn [contexts] in Hj.
  specialize (Hw Hj). congruence.
Qed.

Lemma single_session_interval i total elapsed w :
  single_session w -> single_session (on_interval i total elapsed w).
Proof.
  intros Hw. unfold on_interval.
  destruct (activeCtx w) as [a|]; [|now apply single_session_clear_timer].
  destruct (contexts w !! a) as [[[] ? ? ? ?]|];
    try destruct (ge elapsed total);
    auto using single_session_clear_timer.
Qed.

Lemma single_session_step e w w' :
  single_session w -> step rnd e w = Some w' -> single_session w'.
Proof.
  intros Hw Hstep. destruct e as [p| |i elapsed]; cbn [step] in Hstep.
  - eapply single_session_play; eassumption.
  - injection Hstep as <-. now apply single_session_stop.
  - destruct (timers w !! i) as [[c d|c total]|]; [| |discriminate];
      injection Hstep as <-.
    + now apply single_session_timeout, single_session_clear_timer.
    + now apply single_session_interval.
Qed.

Lemma single_session_run es w w' :
  single_session w -> run rnd es w = Some w' -> single_session w'.
Proof.
  revert w. induction es as [|e es IH]; intros w Hw Hrun; cbn [run] in Hrun.
  - now injection Hrun as <-.
  - destruct (step rnd e w) as [w1|] eqn:E; [|discriminate].
    eapply IH; [|exact Hrun]. eapply single_session_step; eassumption.
Qed.

Lemma single_session_initial rate cur : single_session (initial rate cur).
Proof. intros i Hi. unfold is_running, initial in Hi. cbn in Hi. discriminate. Qed.

Lemma filter_at_most_one (f : nat -> bool) (a : nat) (l : list nat) :
  List.NoDup l -> (forall i, f i = true -> i = a) ->
  (length (List.filter f l) <= 1)%nat.
Proof.
  intros Hnd Hf.
  assert (Hall : forall x, In x (List.filter f l) -> x = a).
  { intros x Hx. apply List.filter_In in Hx as [_ Hx]. now apply Hf. }
  assert (Hnd' : List.NoDup (List.filter f l)) by now apply List.NoDup_filter.
  destruct (List.filter f l) as [|x [|y r]]; cbn [length]; try lia.
  exfalso. apply List.NoDup_cons_iff in Hnd' as [Hx _]. apply Hx.
  rewrite (Hall x), (Hall y); cbn [In]; auto.
Qed.

Lemma filter_none (f : nat -> bool) (l : list nat) :
  (forall i, In i l -> f i = false) -> List.filter f l = [].
Proof.
  induction l as [|x l IH]; intros H; [reflexivity|].
  cbn [List.filter]. rewrite (H x) by now left.
  apply IH. intros i Hi. apply H. now right.
Qed.

Lemma running_at_most_one w :
  single_session w -> (length (running_contexts w) <= 1)%nat.
Proof.
  intros Hw. unfold running_contexts.
  destruct (activeCtx w) as [a|] eqn:Ha.
  - apply (filter_at_most_one _ a); [apply List.seq_NoDup|].
    intros i Hi. specialize (Hw i Hi). congruence.
  - apply (filter_at_most_one _ 0%nat); [apply List.seq_NoDup|].
    intros i Hi. specialize (Hw i Hi). congruence.
Qed.

(** C2. Whatever calls of [playJingle] and [stopAudio] and whatever timer
    callbacks have run since the page was loaded, at most one context is
    open, and it is the one [activeCtx] refers to.  A call of [playJingle]
    closes the context that was active before it creates its own: afterwards
    the new context is the only one open, and its end-of-session timer is
    set to the duration in milliseconds plus 200.  The callback of that
    timer acts only when [activeCtx] is still that session's context: fired
    for a superseded session it changes nothing. *)
Theorem C2_at_most_one_active_context :
  forall (rate cur : N) (es : list Event) (w : World),
    run rnd es (initial rate cur) = Some w ->
    (length (running_contexts w) <= 1)%nat /\
    (forall i, is_running w i = true -> activeCtx w = Some i) /\
    (forall p w',
        playJingle rnd p w = Some w' ->
        running_contexts w' = [length (contexts w)] /\
        activeCtx w' = Some (length (contexts w)) /\
        (forall i, (i < length (contexts w))%nat -> is_running w' i = false) /\
        In (Timeout (length (contexts w))
              (add (mul (default (Fin 12) (durationSeconds p)) (Fin 1000))
                   (Fin 200)))
           (timers w')) /\
    (forall c a, activeCtx w = Some a -> a <> c -> on_timeout c w = w) /\
    (forall c, activeCtx w = None -> on_timeout c w = w).
Proof.
  intros rate cur es w Hrun.
  assert (Hw : single_session w).
  { eapply single_session_run; [apply single_session_initial | exact Hrun]. }
  split; [now apply running_at_most_one|]. split; [exact Hw|].
  split; [|split].
  - intros p w' Hplay.
    destruct (playJingle_session rnd p w w' Hplay)
      as (n & c & _ & _ & Hc & Ha & Hst & _ & _ & _ & Htm).
    destruct (stopAudio_frame w) as (_ & _ & _ & Hlen & _).
    assert (Hold : forall i, (i < length (contexts w))%nat ->
                             is_running w' i = false).
    { intros i Hi. unfold is_running. rewrite Hc, lookup_app_l by lia.
      apply (stopAudio_none_running w i Hw). }
    assert (Hnew : is_running w' (length (contexts w)) = true).
    { unfold is_running. rewrite Hc, <- Hlen, list_lookup_middle by reflexivity.
      now rewrite Hst. }
    split; [|split; [exact Ha | split; [exact Hold|]]].
    2:{ rewrite Htm. apply in_or_app. right. apply in_or_app. right. now left. }
    unfold running_contexts. rewrite Hc, length_app, Hlen. cbn [length].
    rewrite Nat.add_1_r, seq_S, List.filter_app. cbn [List.filter Nat.add].
    rewrite Hnew.
    rewrite filter_none; [reflexivity|].
    intros i Hi. apply in_seq in Hi. apply Hold. lia.
  - intros c a Ha Hne. unfold on_timeout.
    destruct (decide (activeCtx w = Some c)) as [E|E]; [congruence | reflexivity].
  - intros c Ha. unfold on_timeout.
    destruct (decide (activeCtx w = Some c)) as [E|E]; [congruence | reflexivity].
Qed.

End LifecycleFacts.

(** Two sessions started in a row, then the end-of-session timer of the
    first one fires: the second session stays the one open context. *)
Lemma C2_at_most_one_active_context_witness :
  exists w,
    run (fun _ => 1 # 2)
      [ Play {| bpm := Fin 120; musicalStyle := "Dark Techno"; tone := "Serious";
                durationSeconds := Some (Fin 12); onTimeUpdate := false |};
        Play {| bpm := Fin 90; musicalStyle := "Jazz"; tone := "Calm";
                durationSeconds := Some (Fin 12); onTimeUpdate := false |};
        Fire 0 (Fin 12.2) ]
      (initial 44100 0) = Some w /\
    (length (running_contexts w) <= 1)%nat /\
    activeCtx w = Some 1%nat.
Proof.
  eexists. split; [vm_compute; reflexivity|]. split.
  - refine (proj1 (C2_at_most_one_active_context (fun _ => 1 # 2) 44100 0
                     [ Play {| bpm := Fin 120; musicalStyle := "Dark Techno";
                               tone := "Serious";
                               durationSeconds := Some (Fin 12);
                               onTimeUpdate := false |};
                       Play {| bpm := Fin 90; musicalStyle := "Jazz";
                               tone := "Calm";
                               durationSeconds := Some (Fin 12);
                               onTimeUpdate := false |};
                       Fire 0 (Fin 12.2) ] _ _)).
    vm_compute. reflexivity.
  - reflexivity.
Defined.

(** ** Arithmetic of binary64 numbers

    What the proofs below need of the rounding of [SpecFloat]: the number of
    bits of a mantissa, the bits a shift drops, and the products and
    quotients that stay in the normal range. *)

Section Digits.

Local Open Scope Z_scope.

Lemma digits2_size p : digits2_pos p = Pos.size p.
Proof. induction p; simpl; congruence. Qed.

Lemma Zdigits2_log2 p : Zdigits2 (Zpos p) = Z.log2 (Zpos p) + 1.
Proof.
  unfold Zdigits2. rewrite digits2_size.
  destruct p; simpl; lia.
Qed.

Lemma Zdigits2_bounds m :
  0 < m -> 2 ^ (Zdigits2 m - 1) <= m < 2 ^ Zdigits2 m.
Proof.
  intros Hm. destruct m as [|p|p]; try lia.
  rewrite Zdigits2_log2. replace (Z.log2 (Z.pos p) + 1 - 1) with (Z.log2 (Z.pos p)) by lia.
  replace (Z.log2 (Z.pos p) + 1) with (Z.succ (Z.log2 (Z.pos p))) by lia.
  apply Z.log2_spec. lia.
Qed.

Lemma Zdigits2_pos m : 0 < m -> 0 < Zdigits2 m.
Proof.
  intros Hm. destruct m as [|p|p]; try lia. simpl. lia.
Qed.

Lemma Zdigits2_unique m d :
  0 < m -> 2 ^ (d - 1) <= m < 2 ^ d -> Zdigits2 m = d.
Proof.
  intros Hm [Hl Hu]. destruct m as [|p|p]; try lia.
  rewrite Zdigits2_log2.
  assert (0 < d).
  { destruct (Z.leb_spec d 0); [|lia].
    assert (2 ^ d <= 2 ^ 0) by (apply Z.pow_le_mono_r; lia). simpl in *. lia. }
  rewrite (Z.log2_unique (Z.pos p) (d - 1)); [lia|lia|].
  replace (Z.succ (d - 1)) with d by lia. lia.
Qed.

Lemma Zdigits2_mono a b : 0 < a -> a <= b -> Zdigits2 a <= Zdigits2 b.
Proof.
  intros Ha Hab. destruct a as [|p|p]; try lia. destruct b as [|q|q]; try lia.
  rewrite !Zdigits2_log2. pose proof (Z.log2_le_mono (Z.pos p) (Z.pos q) Hab). lia.
Qed.

Lemma Zdigits2_shiftr m k :
  0 < m -> 0 <= k < Zdigits2 m ->
  0 < m / 2 ^ k /\ Zdigits2 (m / 2 ^ k) = Zdigits2 m - k.
Proof.
  intros Hm Hk. pose proof (Zdigits2_bounds m Hm) as [Hl Hu].
  assert (Hp : 0 < 2 ^ k) by (apply Z.pow_pos_nonneg; lia).
  assert (Hq : 2 ^ (Zdigits2 m - 1 - k) <= m / 2 ^ k).
  { apply Z.div_le_lower_bound; [lia|].
    rewrite <- Z.pow_add_r by lia. replace (k + (Zdigits2 m - 1 - k)) with (Zdigits2 m - 1) by lia.
    exact Hl. }
  assert (0 < 2 ^ (Zdigits2 m - 1 - k)) by (apply Z.pow_pos_nonneg; lia).
  split; [lia|].
  apply Zdigits2_unique; [lia|]. split.
  - replace (Zdigits2 m - k - 1) with (Zdigits2 m - 1 - k) by lia. exact Hq.
  - apply Z.div_lt_upper_bound; [lia|].
    rewrite <- Z.pow_add_r by lia. replace (k + (Zdigits2 m - k)) with (Zdigits2 m) by lia.
    exact Hu.
Qed.

Lemma Zdigits2_mul a b :
  0 < a -> 0 < b -> Zdigits2 a + Zdigits2 b - 1 <= Zdigits2 (a * b) <= Zdigits2 a + Zdigits2 b.
Proof.
  intros Ha Hb.
  destruct a as [|p|p]; try lia. destruct b as [|q|q]; try lia.
  change (Z.pos p * Z.pos q) with (Z.pos (p * q)).
  rewrite !Zdigits2_log2.
  pose proof (Z.log2_mul_below (Z.pos p) (Z.pos q) ltac:(lia) ltac:(lia)).
  pose proof (Z.log2_mul_above (Z.pos p) (Z.pos q) ltac:(lia) ltac:(lia)).
  change (Z.pos p * Z.pos q) with (Z.pos (p * q)) in *. lia.
Qed.

End Digits.

Section Shifts.

Import Binary64.

Local Open Scope Z_scope.

Lemma iter_pos_nat {A : Type} (f : A -> A) p x :
  SpecFloat.iter_pos f p x = Nat.iter (Pos.to_nat p) f x.
Proof.
  revert x. induction p as [p IH|p IH|]; intros x; cbn [SpecFloat.iter_pos].
  - rewrite !IH, Pos2Nat.inj_xI.
    replace (S (2 * Pos.to_nat p))%nat with (Pos.to_nat p + S (Pos.to_nat p))%nat by lia.
    now rewrite Nat.iter_add, Nat.iter_succ_r.
  - rewrite !IH, Pos2Nat.inj_xO.
    replace (2 * Pos.to_nat p)%nat with (Pos.to_nat p + Pos.to_nat p)%nat by lia.
    now rewrite Nat.iter_add.
  - reflexivity.
Qed.

Lemma shr_1_m r : 0 <= shr_m r -> shr_m (shr_1 r) = shr_m r / 2.
Proof.
  destruct r as [m rb sb]. simpl. intros Hm.
  destruct m as [|p|p]; try lia; [reflexivity|].
  destruct p as [p|p|]; simpl.
  - rewrite Pos2Z.inj_xI. apply Z.div_unique with 1; lia.
  - rewrite Pos2Z.inj_xO. apply Z.div_unique with 0; lia.
  - reflexivity.
Qed.

Lemma shr_1_r r : 0 <= shr_m r -> shr_r (shr_1 r) = Z.odd (shr_m r).
Proof.
  destruct r as [m rb sb]. simpl. intros Hm.
  destruct m as [|p|p]; try lia; [reflexivity|].
  destruct p as [p|p|]; reflexivity.
Qed.

Lemma shr_m_iter n r :
  0 <= shr_m r -> shr_m (Nat.iter n shr_1 r) = shr_m r / 2 ^ Z.of_nat n.
Proof.
  intros Hm. induction n as [|n IH].
  - simpl. now rewrite Z.div_1_r.
  - rewrite Nat.iter_succ, shr_1_m; rewrite IH.
    + rewrite Z.div_div by (try apply Z.pow_pos_nonneg; lia).
      f_equal. rewrite Nat2Z.inj_succ, Z.pow_succ_r by lia. lia.
    + apply Z.div_pos; [lia | apply Z.pow_pos_nonneg; lia].
Qed.

Lemma shr_r_iter n r :
  0 <= shr_m r ->
  shr_r (Nat.iter (S n) shr_1 r) = Z.odd (shr_m r / 2 ^ Z.of_nat n).
Proof.
  intros Hm. rewrite Nat.iter_succ, shr_1_r; rewrite shr_m_iter by exact Hm.
  - reflexivity.
  - apply Z.div_pos; [lia | apply Z.pow_pos_nonneg; lia].
Qed.


End Shifts.

Section Rounding.

Import Binary64.

Local Open Scope Z_scope.

Lemma fexp_64 x : fexp prec emax x = Z.max (x - 53) (-1074).
Proof. reflexivity. Qed.

Lemma shr_nat mrs e n :
  shr mrs e n = (Nat.iter (Z.to_nat n) shr_1 mrs, e + Z.max 0 n).
Proof.
  destruct n as [|p|p]; cbn [shr].
  - simpl. f_equal; lia.
  - rewrite iter_pos_nat. f_equal; lia.
  - simpl. f_equal; lia.
Qed.

Lemma shr_m_of_loc m l : shr_m (shr_record_of_loc m l) = m.
Proof. destruct l as [|[]]; reflexivity. Qed.

Lemma round_nearest_even_bounds m r :
  m <= round_nearest_even m (loc_of_shr_record r) <= m + 1 /\
  (round_nearest_even m (loc_of_shr_record r) <> m -> shr_r r = true).
Proof.
  destruct r as [x rb sb]. destruct rb, sb;
    cbn [loc_of_shr_record round_nearest_even shr_r].
  - split; [lia | reflexivity].
  - destruct (Z.even m); (split; [lia | reflexivity]).
  - split; [lia | congruence].
  - split; [lia | congruence].
Qed.

(** The two shifts of [binary_round_aux] and the mantissa and exponent they
    leave. *)
Lemma binary_round_aux_spec s mx ex lx :
  0 < mx -> -1074 < Zdigits2 mx + ex ->
  exists k1 k2 m3,
    k1 = Z.max 0 (Z.max (Zdigits2 mx + ex - 53) (-1074) - ex) /\
    0 <= k2 <= 1 /\ 0 < m3 /\
    binary_round_aux prec emax s mx ex lx = overflow s m3 (ex + k1 + k2) /\
    Zdigits2 mx + ex <= Zdigits2 m3 + (ex + k1 + k2) <= Zdigits2 mx + ex + 1 /\
    (lx = loc_Exact -> 2 * m3 * 2 ^ (k1 + k2) <= 2 * mx + 2 ^ k1).
Proof.
  intros Hm Hmag.
  set (k1 := Z.max 0 (Z.max (Zdigits2 mx + ex - 53) (-1074) - ex)).
  pose proof (Zdigits2_pos mx Hm) as Hd.
  assert (Hk1 : 0 <= k1 < Zdigits2 mx) by (unfold k1; lia).
  destruct (Zdigits2_shiftr mx k1 Hm Hk1) as [Hm1 Hd1].
  unfold binary_round_aux, shr_fexp. rewrite !shr_nat, !fexp_64.
  set (rec1 := Nat.iter _ shr_1 (shr_record_of_loc mx lx)).
  assert (Em1 : shr_m rec1 = mx / 2 ^ k1).
  { unfold rec1. rewrite shr_m_iter by (rewrite shr_m_of_loc; lia).
    rewrite shr_m_of_loc. f_equal. f_equal. unfold k1. lia. }
  replace (ex + Z.max 0 (Z.max (Zdigits2 mx + ex - 53) (-1074) - ex)) with (ex + k1)
    by (unfold k1; lia).
  set (m2 := round_nearest_even (shr_m rec1) (loc_of_shr_record rec1)).
  destruct (round_nearest_even_bounds (shr_m rec1) rec1) as [Hb Hr]. fold m2 in Hb, Hr.
  rewrite Em1 in Hb.
  assert (Hm2 : 0 < m2) by lia.
  assert (Hd2 : Zdigits2 mx - k1 <= Zdigits2 m2 <= Zdigits2 mx - k1 + 1).
  { rewrite <- Hd1. split.
    - apply Zdigits2_mono; lia.
    - destruct (Zdigits2_bounds (mx / 2 ^ k1) Hm1) as [_ Hu].
      destruct (Z.eq_dec m2 (2 ^ Zdigits2 (mx / 2 ^ k1))) as [E|E].
      + rewrite E. rewrite (Zdigits2_unique (2 ^ Zdigits2 (mx / 2 ^ k1)) (Zdigits2 (mx / 2 ^ k1) + 1)).
        * lia.
        * apply Z.pow_pos_nonneg; lia.
        * replace (Zdigits2 (mx / 2 ^ k1) + 1 - 1) with (Zdigits2 (mx / 2 ^ k1)) by lia.
          split; [lia|]. apply Z.pow_lt_mono_r; lia.
      + assert (Zdigits2 m2 <= Zdigits2 (mx / 2 ^ k1)); [|lia].
        destruct (Zdigits2_bounds m2 Hm2) as [Hl2 _].
        destruct (Z.leb_spec (Zdigits2 m2) (Zdigits2 (mx / 2 ^ k1))) as [|Hlt]; [lia|].
        assert (2 ^ Zdigits2 (mx / 2 ^ k1) <= 2 ^ (Zdigits2 m2 - 1))
          by (apply Z.pow_le_mono_r; lia).
        lia. }
  rewrite ?fexp_64.
  set (k2 := Z.max 0 (Z.max (Zdigits2 m2 + (ex + k1) - 53) (-1074) - (ex + k1))).
  assert (Hk2 : 0 <= k2 <= 1) by (unfold k2; lia).
  assert (Hk2' : 0 <= k2 < Zdigits2 m2) by (unfold k2; lia).
  destruct (Zdigits2_shiftr m2 k2 Hm2 Hk2') as [Hm3 Hd3].
  exists k1, k2, (m2 / 2 ^ k2).
  split; [reflexivity|]. split; [exact Hk2|]. split; [exact Hm3|].
  split; [|split].
  - rewrite shr_m_iter by (rewrite shr_m_of_loc; lia).
    rewrite shr_m_of_loc.
    replace (Z.of_nat (Z.to_nat (Z.max (Zdigits2 m2 + (ex + k1) - 53) (-1074) - (ex + k1))))
      with k2 by (unfold k2; lia).
    replace (ex + k1 + Z.max 0 (Z.max (Zdigits2 m2 + (ex + k1) - 53) (-1074) - (ex + k1)))
      with (ex + k1 + k2) by (unfold k2; lia).
    unfold overflow. destruct (m2 / 2 ^ k2) as [|p|p] eqn:E; try lia.
    reflexivity.
  - rewrite Hd3. lia.
  - intros ->.
    assert (Hp1 : 0 < 2 ^ k1) by (apply Z.pow_pos_nonneg; lia).
    assert (Hp2 : 0 < 2 ^ k2) by (apply Z.pow_pos_nonneg; lia).
    rewrite Z.pow_add_r by lia.
    assert (H3 : m2 / 2 ^ k2 * 2 ^ k2 <= m2).
    { rewrite Z.mul_comm. apply Z.mul_div_le. lia. }
    assert (H2 : 2 * m2 * 2 ^ k1 <= 2 * mx + 2 ^ k1).
    { pose proof (Z.div_mod mx (2 ^ k1) ltac:(lia)) as Hdm.
      pose proof (Z.mod_pos_bound mx (2 ^ k1) Hp1) as Hmod.
      destruct (Z.eq_dec m2 (mx / 2 ^ k1)) as [E|E]; [rewrite E; nia|].
      assert (Em2 : m2 = mx / 2 ^ k1 + 1) by lia.
      assert (Hrb : shr_r rec1 = true) by (apply Hr; rewrite Em1; exact E).
      destruct (Z.eq_dec k1 0) as [K0|K0].
      { exfalso. unfold rec1 in Hrb.
        replace (Z.to_nat (Z.max (Zdigits2 mx + ex - 53) (-1074) - ex)) with 0%nat in Hrb
          by (unfold k1 in K0; lia).
        simpl in Hrb. discriminate. }
      unfold rec1 in Hrb.
      replace (Z.to_nat (Z.max (Zdigits2 mx + ex - 53) (-1074) - ex))
        with (S (Z.to_nat (k1 - 1))) in Hrb by (unfold k1 in *; lia).
      rewrite shr_r_iter in Hrb by (simpl; lia). cbn [shr_m shr_record_of_loc] in Hrb.
      rewrite Z2Nat.id in Hrb by lia.
      (* the bit below the cut is set: the remainder is at least a half *)
      assert (Hhalf : 2 ^ (k1 - 1) <= mx mod 2 ^ k1).
      { assert (Hp : 0 < 2 ^ (k1 - 1)) by (apply Z.pow_pos_nonneg; lia).
        assert (E2 : 2 ^ k1 = 2 * 2 ^ (k1 - 1)).
        { rewrite <- Z.pow_succ_r by lia. f_equal. lia. }
        pose proof (Z.div_mod mx (2 ^ (k1 - 1)) ltac:(lia)) as Hdm'.
        pose proof (Z.mod_pos_bound mx (2 ^ (k1 - 1)) Hp) as Hmod'.
        apply Z.odd_spec in Hrb. destruct Hrb as [c Hc].
        assert (mx / 2 ^ k1 = c).
        { rewrite E2, (Z.mul_comm 2), <- Z.div_div by lia. rewrite Hc.
          symmetry. apply Z.div_unique with 1; lia. }
        nia. }
      rewrite Em2.
      assert (E2 : 2 ^ k1 = 2 * 2 ^ (k1 - 1)).
      { rewrite <- Z.pow_succ_r by lia. f_equal. lia. }
      nia. }
    nia.
Qed.

Lemma Zdigits2_succ m :
  0 < m -> Zdigits2 m <= Zdigits2 (m + 1) <= Zdigits2 m + 1.
Proof.
  intros Hm. split; [apply Zdigits2_mono; lia|].
  destruct (Zdigits2_bounds m Hm) as [_ Hu].
  pose proof (Zdigits2_pos m Hm) as Hd.
  destruct (Z.eq_dec (m + 1) (2 ^ Zdigits2 m)) as [E|E].
  - rewrite E, (Zdigits2_unique (2 ^ Zdigits2 m) (Zdigits2 m + 1)).
    + lia.
    + apply Z.pow_pos_nonneg; lia.
    + replace (Zdigits2 m + 1 - 1) with (Zdigits2 m) by lia.
      split; [lia|]. apply Z.pow_lt_mono_r; lia.
  - destruct (Zdigits2_bounds (m + 1) ltac:(lia)) as [Hl2 _].
    destruct (Z.leb_spec (Zdigits2 (m + 1)) (Zdigits2 m)) as [|Hlt]; [lia|].
    assert (2 ^ Zdigits2 m <= 2 ^ (Zdigits2 (m + 1) - 1))
      by (apply Z.pow_le_mono_r; lia).
    lia.
Qed.

(** In the normal range the rounding does not depend on the exponent. *)
Lemma binary_round_aux_normal s mx ex lx :
  0 < mx -> 53 <= Zdigits2 mx -> -1074 <= ex + (Zdigits2 mx - 53) ->
  binary_round_aux prec emax s mx ex lx
  = overflow s (fst (norm53 mx lx)) (ex + snd (norm53 mx lx)) /\
  0 < fst (norm53 mx lx) /\
  Zdigits2 (fst (norm53 mx lx)) = 53 /\
  Zdigits2 mx - 53 <= snd (norm53 mx lx) <= Zdigits2 mx - 52.
Proof.
  intros Hm Hd Hn. unfold norm53. cbn [fst snd].
  set (k1 := Zdigits2 mx - 53).
  assert (Hk1 : 0 <= k1 < Zdigits2 mx) by (unfold k1; lia).
  destruct (Zdigits2_shiftr mx k1 Hm Hk1) as [Hm1 Hd1].
  set (rec1 := Nat.iter (Z.to_nat k1) shr_1 (shr_record_of_loc mx lx)).
  assert (Em1 : shr_m rec1 = mx / 2 ^ k1).
  { unfold rec1. rewrite shr_m_iter by (rewrite shr_m_of_loc; lia).
    rewrite shr_m_of_loc. f_equal. f_equal. lia. }
  set (m2 := round_nearest_even (shr_m rec1) (loc_of_shr_record rec1)).
  destruct (round_nearest_even_bounds (shr_m rec1) rec1) as [Hb _]. fold m2 in Hb.
  rewrite Em1 in Hb.
  assert (Hm2 : 0 < m2) by lia.
  assert (Hd2 : 53 <= Zdigits2 m2 <= 54).
  { pose proof (Zdigits2_succ (mx / 2 ^ k1) Hm1) as Hs.
    pose proof (Zdigits2_mono (mx / 2 ^ k1) m2 Hm1 ltac:(lia)).
    assert (Zdigits2 m2 <= Zdigits2 (mx / 2 ^ k1 + 1))
      by (apply Zdigits2_mono; lia).
    unfold k1 in *. lia. }
  set (k2 := Zdigits2 m2 - 53).
  assert (Hk2 : 0 <= k2 < Zdigits2 m2) by (unfold k2; lia).
  destruct (Zdigits2_shiftr m2 k2 Hm2 Hk2) as [Hm3 Hd3].
  split; [|split; [exact Hm3|split; [unfold k2 in *; lia | unfold k1, k2; lia]]].
  unfold binary_round_aux, shr_fexp. rewrite !shr_nat, !fexp_64.
  replace (Z.to_nat (Z.max (Zdigits2 mx + ex - 53) (-1074) - ex))
    with (Z.to_nat k1) by (unfold k1; lia).
  fold rec1. fold m2.
  rewrite shr_m_iter by (rewrite shr_m_of_loc; lia). rewrite shr_m_of_loc.
  replace (ex + Z.max 0 (Z.max (Zdigits2 mx + ex - 53) (-1074) - ex))
    with (ex + k1) by (unfold k1; lia).
  replace (Z.max (Zdigits2 m2 + (ex + k1) - 53) (-1074) - (ex + k1))
    with k2 by (unfold k1, k2 in *; lia).
  rewrite Z2Nat.id by lia.
  replace (ex + k1 + Z.max 0 k2) with (ex + (k1 + k2)) by lia.
  unfold overflow. destruct (m2 / 2 ^ k2) as [|p|p]; try lia. reflexivity.
Qed.

End Rounding.

Section Arithmetic.

Import Binary64.

Local Open Scope Z_scope.

Lemma valid_finite s m e :
  valid (S754_finite s m e) = true ->
  Zdigits2 (Z.pos m) <= 53 /\ -1074 <= e <= 971 /\
  (-1074 < e -> Zdigits2 (Z.pos m) = 53).
Proof.
  unfold valid, valid_binary, bounded, canonical_mantissa.
  rewrite andb_true_iff, Z.eqb_eq, Z.leb_le, fexp_64.
  change (Z.pos (digits2_pos m)) with (Zdigits2 (Z.pos m)).
  change (emax - prec) with 971. lia.
Qed.

Lemma overflow_normal_from s m e lo :
  0 < m -> Zdigits2 m = 53 -> lo <= e ->
  s = false -> normal_from lo (overflow s m e).
Proof.
  intros Hm Hd Hlo ->. unfold overflow. destruct (e <=? 971); [|now left].
  right. exists (Z.to_pos m), e. repeat split; try assumption.
  now rewrite Z2Pos.id.
Qed.

Lemma normal_from_positive lo x : normal_from lo x -> positive x = true.
Proof. intros [->|(m & e & -> & _)]; reflexivity. Qed.

Lemma normal_from_weaken lo lo' x : lo' <= lo -> normal_from lo x -> normal_from lo' x.
Proof.
  intros Hlo [->|(m & e & -> & Hd & He)]; [now left|].
  right. exists m, e. repeat split; [assumption | lia].
Qed.

(** The product of two numbers of the normal range, away from underflow. *)
Lemma mul_normal sx mx ex sy my ey :
  Zdigits2 (Z.pos mx) = 53 -> Zdigits2 (Z.pos my) = 53 -> -1126 <= ex + ey ->
  exists m e,
    mul (S754_finite sx mx ex) (S754_finite sy my ey) = overflow (xorb sx sy) m e /\
    0 < m /\ Zdigits2 m = 53 /\ ex + ey + 52 <= e <= ex + ey + 54.
Proof.
  intros Hx Hy He. unfold mul, SFmul.
  pose proof (Zdigits2_mul (Z.pos mx) (Z.pos my) ltac:(lia) ltac:(lia)) as Hd.
  change (Z.pos mx * Z.pos my) with (Z.pos (mx * my)) in Hd.
  destruct (binary_round_aux_normal (xorb sx sy) (Z.pos (mx * my)) (ex + ey) loc_Exact)
    as (E & Hm & Hd3 & Hj); try lia.
  eexists. eexists. split; [exact E|]. split; [exact Hm|]. split; [exact Hd3|]. lia.
Qed.

Lemma mul_normal_from lo x c mc ec :
  c = S754_finite false mc ec -> Zdigits2 (Z.pos mc) = 53 ->
  -1126 <= lo + ec ->
  normal_from lo x -> normal_from (lo + ec + 52) (mul x c).
Proof.
  intros -> Hc Hlo [->|(m & e & -> & Hd & He)]; [now left|].
  destruct (mul_normal false m e false mc ec Hd Hc ltac:(lia)) as (m' & e' & E & Hm & Hd' & He').
  rewrite E. apply overflow_normal_from; try assumption; try reflexivity. lia.
Qed.

Lemma of_Z_60 : of_Z 60 = S754_finite false 8444249301319680 (-47).
Proof. reflexivity. Qed.

Lemma of_Z_240 : of_Z 240 = S754_finite false 8444249301319680 (-45).
Proof. reflexivity. Qed.

Lemma of_Z_4 : of_Z 4 = S754_finite false 4503599627370496 (-50).
Proof. reflexivity. Qed.

(** The division of 60 or 240 by a positive finite number: the quotient of
    the mantissas, before it is rounded. *)
Lemma div_core_by m e :
  Zdigits2 (Z.pos m) <= 53 -> -1074 <= e <= 971 ->
  forall e1, -47 <= e1 <= -45 ->
  exists q l,
    SFdiv_core_binary prec emax 8444249301319680 e1 (Z.pos m) e
    = (q, e1 - Zdigits2 (Z.pos m) - e, l) /\
    SFdiv_core_binary prec emax 8444249301319680 (-47) (Z.pos m) e
    = (q, -47 - Zdigits2 (Z.pos m) - e, l) /\
    0 < q /\ 53 <= Zdigits2 q.
Proof.
  intros Hd He e1 He1.
  pose proof (Zdigits2_pos (Z.pos m) ltac:(lia)) as Hd0.
  set (d := Zdigits2 (Z.pos m)) in *.
  assert (Hcore : forall e1, -47 <= e1 <= -45 ->
            SFdiv_core_binary prec emax 8444249301319680 e1 (Z.pos m) e
            = (let '(q, r) := Z.div_eucl (8444249301319680 * 2 ^ d) (Z.pos m) in
               (q, e1 - d - e, new_location (Z.pos m) r))).
  { intros e0 He0. unfold SFdiv_core_binary. rewrite fexp_64.
    change (Zdigits2 8444249301319680) with 53. fold d.
    replace (Z.min (Z.max (53 + e0 - (d + e) - 53) (-1074)) (e0 - e)) with (e0 - d - e) by lia.
    replace (e0 - e - (e0 - d - e)) with d by lia.
    destruct d as [|p|p] eqn:Ed; try lia.
    rewrite Z.shiftl_mul_pow2 by lia. reflexivity. }
  rewrite (Hcore e1 He1), (Hcore (-47)) by lia.
  destruct (Z.div_eucl (8444249301319680 * 2 ^ d) (Z.pos m)) as [q r] eqn:E.
  exists q, (new_location (Z.pos m) r). split; [reflexivity|]. split; [reflexivity|].
  assert (Eq : q = 8444249301319680 * 2 ^ d / Z.pos m) by (unfold Z.div; now rewrite E).
  destruct (Zdigits2_bounds (Z.pos m) ltac:(lia)) as [_ Hu]. fold d in Hu.
  assert (Hp : 0 < 2 ^ d) by (apply Z.pow_pos_nonneg; lia).
  assert (Hq : 2 ^ 52 <= q).
  { rewrite Eq. apply Z.div_le_lower_bound; [lia|].
    change (2 ^ 52) with 4503599627370496. nia. }
  split; [change (2 ^ 52) with 4503599627370496 in Hq; lia|].
  replace 53 with (Zdigits2 (2 ^ 52)) by reflexivity.
  apply Zdigits2_mono; [reflexivity | exact Hq].
Qed.

(** [60 / T] and [240 / T] for a tempo [T > 0]: one mantissa, exponents 2
    apart. *)
Lemma div_60_240 T :
  valid T = true -> positive T = true ->
  (T = S754_infinity false /\ div (of_Z 60) T = zero /\ div (of_Z 240) T = zero) \/
  exists m3 e3,
    T <> S754_infinity false /\
    0 < m3 /\ Zdigits2 m3 = 53 /\ -1071 <= e3 /\
    div (of_Z 60) T = overflow false m3 e3 /\
    div (of_Z 240) T = overflow false m3 (e3 + 2).
Proof.
  intros Hv Hp. rewrite of_Z_60, of_Z_240.
  destruct T as [s|s| |s m e]; try discriminate Hp.
  - destruct s; [discriminate Hp|]. left. repeat split; reflexivity.
  - destruct s; [discriminate Hp|]. right.
    destruct (valid_finite _ _ _ Hv) as (Hd & He & _).
    destruct (div_core_by m e Hd He (-45) ltac:(lia)) as (q & l & E1 & E2 & Hq & Hdq).
    pose proof (Zdigits2_pos (Z.pos m) ltac:(lia)) as Hd0.
    destruct (binary_round_aux_normal false q (-47 - Zdigits2 (Z.pos m) - e) l Hq Hdq)
      as (R60 & Hm3 & Hd3 & Hj); [lia|].
    destruct (binary_round_aux_normal false q (-45 - Zdigits2 (Z.pos m) - e) l Hq Hdq)
      as (R240 & _); [lia|].
    exists (fst (norm53 q l)), (-47 - Zdigits2 (Z.pos m) - e + snd (norm53 q l)).
    split; [discriminate|]. split; [exact Hm3|]. split; [exact Hd3|]. split; [lia|].
    unfold div, SFdiv. rewrite E1, E2. cbn [xorb]. rewrite R60, R240.
    split; [reflexivity|]. f_equal. lia.
Qed.



End Arithmetic.

Section Indexing.

Import Binary64.

Local Open Scope Z_scope.

Lemma unit_draw_cases r :
  unit_draw r ->
  (exists s, r = S754_zero s) \/
  exists m e, r = S754_finite false m e /\ Zdigits2 (Z.pos m) <= 53 /\
              -1074 <= e <= -53.
Proof.
  intros (Hv & H1 & H0). destruct r as [s|s| |s m e]; try discriminate H1.
  - left. now exists s.
  - destruct s; discriminate.
  - right. destruct s; [discriminate H0|].
    destruct (valid_finite _ _ _ Hv) as (Hd & He & Hn).
    exists m, e. split; [reflexivity|]. split; [exact Hd|].
    change (of_Z 1) with (S754_finite false 4503599627370496 (-52)) in H1.
    unfold lt, SFltb, SFcompare in H1.
    destruct (Z.compare_spec e (-52)) as [E|E|E]; try discriminate H1; [|lia].
    exfalso. subst e. specialize (Hn ltac:(lia)).
    destruct (Zdigits2_bounds (Z.pos m) ltac:(lia)) as [Hl _]. rewrite Hn in Hl.
    change (2 ^ (53 - 1)) with 4503599627370496 in Hl.
    rewrite Pos.compare_cont_spec in H1. cbn [Pos.switch_Eq] in H1.
    destruct (Pos.compare_spec m 4503599627370496) as [E|E|E]; try discriminate H1.
    apply Pos2Z.pos_lt_pos in E. clear - E Hl. lia.
Qed.

Lemma to_index_small f s :
  0 <= f < 6 ->
  to_index (if f =? 0 then S754_zero s else of_Z f) = Some (Z.to_nat f).
Proof.
  intros Hf.
  assert (H : f = 0 \/ f = 1 \/ f = 2 \/ f = 3 \/ f = 4 \/ f = 5) by lia.
  destruct H as [->|[->|[->|[->|[->| ->]]]]]; reflexivity.
Qed.

(** [Math.floor(Math.random() * n)] is an index below [n], for [n] 5 or 6. *)
Lemma random_index r n mn :
  unit_draw r -> (n = 5 \/ n = 6) -> mn = n * 2 ^ 50 ->
  of_Z n = S754_finite false (Z.to_pos mn) (-50) ->
  exists i, to_index (Math_floor (mul r (of_Z n))) = Some i /\ (Z.of_nat i < n).
Proof.
  intros Hr Hn Hmn En.
  destruct (unit_draw_cases r Hr) as [[s ->]|(m & e & -> & Hd & He)].
  { rewrite En. exists 0%nat. split; [reflexivity | lia]. }
  rewrite En. unfold mul, SFmul. cbn [xorb].
  assert (Hmn0 : 0 < mn) by (subst mn; lia).
  replace (Z.pos (m * Z.to_pos mn)) with (Z.pos m * mn)
    by (rewrite Pos2Z.inj_mul, Z2Pos.id by lia; reflexivity).
  assert (Hdn : Zdigits2 mn = 53).
  { subst mn. destruct Hn as [-> | ->]; reflexivity. }
  pose proof (Zdigits2_mul (Z.pos m) mn ltac:(lia) Hmn0) as HdP.
  pose proof (Zdigits2_pos (Z.pos m) ltac:(lia)) as Hdm.
  destruct (binary_round_aux_spec false (Z.pos m * mn) (e + -50) loc_Exact)
    as (k1 & k2 & m3 & Hk1 & Hk2 & Hm3 & R & _ & Hup); try lia.
  specialize (Hup eq_refl).
  assert (Hk1' : 0 <= k1 <= 53) by lia.
  rewrite R. unfold overflow.
  destruct (Z.leb_spec (e + -50 + k1 + k2) 971) as [_|]; [|lia].
  unfold Math_floor.
  destruct (Z.leb_spec 0 (e + -50 + k1 + k2)) as [|_]; [lia|].
  rewrite Z2Pos.id by lia. rewrite Z.shiftr_div_pow2 by lia.
  set (t := - (e + -50 + k1 + k2)).
  assert (Ht : 0 <= t) by (unfold t; lia).
  assert (Hf : 0 <= m3 / 2 ^ t < n).
  { assert (Hpt : 0 < 2 ^ t) by (apply Z.pow_pos_nonneg; lia).
    split; [apply Z.div_pos; lia|].
    apply Z.div_lt_upper_bound; [lia|].
    (* m3 < 2^t * n *)
    assert (Hm : Z.pos m < 2 ^ (- e)).
    { destruct (Zdigits2_bounds (Z.pos m) ltac:(lia)) as [_ Hu].
      assert (2 ^ Zdigits2 (Z.pos m) <= 2 ^ (- e)) by (apply Z.pow_le_mono_r; lia).
      lia. }
    assert (HA : 0 < 2 ^ (k1 + k2)) by (apply Z.pow_pos_nonneg; lia).
    assert (HC : 0 < 2 ^ (- e)) by (apply Z.pow_pos_nonneg; lia).
    assert (HAB : 2 ^ (k1 + k2) * 2 ^ t = 2 ^ 50 * 2 ^ (- e)).
    { rewrite <- !Z.pow_add_r by lia. f_equal. unfold t. lia. }
    assert (HK : 2 ^ k1 <= 2 ^ 53) by (apply Z.pow_le_mono_r; lia).
    change (2 ^ 53) with (8 * 2 ^ 50) in HK.
    assert (H50 : 0 < 2 ^ 50) by reflexivity.
    rewrite Hmn in Hup.
    set (A := 2 ^ (k1 + k2)) in *. set (B := 2 ^ t) in *. set (C := 2 ^ (- e)) in *.
    set (P50 := 2 ^ 50) in *. set (K := 2 ^ k1) in *.
    destruct (Z.lt_ge_cases m3 (B * n)) as [|Hge]; [assumption|exfalso].
    assert (2 * (B * n) * A <= 2 * m3 * A) by nia.
    assert (2 * (B * n) * A = 2 * n * (P50 * C)) by (rewrite <- HAB; ring).
    assert (2 * (Z.pos m * (n * P50)) <= 2 * ((C - 1) * (n * P50))) by nia.
    nia. }
  exists (Z.to_nat (m3 / 2 ^ t)). split; [|lia].
  apply to_index_small. lia.
Qed.

End Indexing.

(** ** The loops of the synthesizer over binary64 numbers *)

Section Loops64.

Import Binary64 AudioSynth64.

Local Open Scope nat_scope.

Lemma for_range_64_S n body s :
  for_range (S n) body s = andThen (for_range n body s) (body n).
Proof. unfold for_range. now rewrite seq_S, fold_left_app. Qed.




Lemma leaves_andThen Q r f :
  leaves Q r -> (forall s, Q s -> leaves Q (f s)) -> leaves Q (andThen r f).
Proof. destruct r as [s|e s|]; cbn; auto. Qed.

Lemma leaves_for_range Q n body s :
  Q s -> (forall i t, Q t -> leaves Q (body i t)) ->
  leaves Q (for_range n body s).
Proof.
  intros Hs Hbody. induction n as [|n IH]; [exact Hs|].
  rewrite for_range_64_S. apply leaves_andThen; [exact IH|]. intros t. apply Hbody.
Qed.

Lemma leaves_for_loop Q bound body s :
  Q s -> (forall i t, Q t -> leaves Q (body i t)) ->
  leaves Q (for_loop bound body s).
Proof.
  intros Hs Hbody. unfold for_loop. destruct (loop_count bound); [|exact I].
  now apply leaves_for_range.
Qed.


Lemma leaves_perform Q cs s : Q s -> leaves Q (perform cs s).
Proof. intros H. unfold perform. now destruct (first_error cs). Qed.

(** The sample loops only move the cursor. *)
Lemma fill_ctx len s :
  leaves (fun t => ctx t = ctx s) (fill len s).
Proof.
  unfold fill. apply leaves_for_loop; [reflexivity|].
  intros i t Ht. exact Ht.
Qed.

End Loops64.

Section Scheduling64.

Import Binary64 AudioSynth64.

Local Open Scope nat_scope.

Variable lower : string -> string.
Variable rnd : N -> double.


Lemma scheduleNote_left dest ev s :
  left_by (scheduleNote dest ev s) = Some (with_voice (dest, ev) s).
Proof. unfold scheduleNote, perform. now destruct (first_error _). Qed.

Lemma scheduleKick_left dest t s :
  left_by (scheduleKick dest t s) = Some (with_drum (dest, Kick t) s).
Proof. unfold scheduleKick, perform. now destruct (first_error _). Qed.

Lemma scheduleSnare_leaves dest t s :
  leaves (fun s' => ctx s' = ctx (with_drum (dest, Snare t) s))
    (scheduleSnare dest t s).
Proof.
  unfold scheduleSnare. apply leaves_andThen; [apply fill_ctx|].
  intros s1 H1. now apply leaves_perform.
Qed.

Lemma scheduleHihat_leaves dest t o s :
  leaves (fun s' => ctx s' = ctx (with_drum (dest, Hihat t o) s))
    (scheduleHihat dest t o s).
Proof.
  unfold scheduleHihat. apply leaves_andThen; [apply fill_ctx|].
  intros s1 H1. now apply leaves_perform.
Qed.


Lemma leaves_left Q r s : left_by r = Some s -> Q s -> leaves Q r.
Proof. unfold leaves. now intros ->. Qed.

Lemma leaves_impl (Q Q' : Build -> Prop) r :
  (forall s, Q s -> Q' s) -> leaves Q r -> leaves Q' r.
Proof. unfold leaves. destruct (left_by r); auto. Qed.




(** *** Percussion: what a bar of the drum loop appends *)


(** *** Notes: the loops that schedule them leave the percussion alone *)





Lemma padVoice_andThen bd bar r f :
  padVoice rnd bd bar r f = andThen r (fun s => padVoice rnd bd bar (Ok s) f).
Proof. now destruct r. Qed.

Lemma padBar_fold scale bd bar s :
  padBar rnd scale bd bar s
  = fold_left (fun r f => andThen r (fun s => padVoice rnd bd bar (Ok s) f))
      [nth 0 scale nan; mul (nth 0 scale nan) (dec 125 100);
       mul (nth 0 scale nan) (dec 15 10)] (Ok s).
Proof. unfold padBar. cbn [fold_left]. now rewrite !padVoice_andThen. Qed.





Lemma createReverb_keeps_ctx d k s :
  leaves (fun t => ctx t = ctx s) (createReverb d k s).
Proof.
  unfold createReverb. apply leaves_for_range; [reflexivity|].
  intros i t Ht. eapply leaves_impl; [|apply fill_ctx].
  intros t' Ht'. cbn beta in *. congruence.
Qed.


Lemma automate_leaves n e s :
  leaves (fun t => t = s \/ t = with_gain (n, e) s) (automate n e s).
Proof.
  destruct e as [v|v t|v t]; cbn [automate].
  - now right.
  - unfold perform. destruct (first_error _); cbn; auto.
  - unfold perform. destruct (first_error _); cbn; auto.
Qed.

(** *** What [playJingle] leaves in the percussion of the new context *)






Lemma playJingle_left params w w' :
  world_after (playJingle lower rnd params w) = Some w' ->
  exists s',
    left_by (arrangeAndFade lower rnd params
      {| ctx := {| state := AudioSynth.running;
                   sampleRate := deviceRate (stopAudio w);
                   currentTime := zero;
                   voices := []; drums := []; gains := [] |};
         cursor := random (stopAudio w) |}) = Some s' /\
    session w' = Some (ctx s').
Proof.
  unfold playJingle. intros H.
  destruct (arrangeAndFade _ _ _ _) as [s'|e s'|] eqn:E; try discriminate H;
    exists s'; (split; [reflexivity|]); injection H as <-;
    unfold session; cbn [contexts]; apply last_snoc.
Qed.


End Scheduling64.

(** ** Degenerate and out-of-range tempos, with the checks of the API *)

Section Tempo64.

Import Binary64 AudioSynth64.

Local Open Scope nat_scope.
Local Open Scope string_scope.

Variable lower : string -> string.
Variable rnd : N -> double.

Lemma skip_draws_add n m s : skip_draws n (skip_draws m s) = skip_draws (m + n) s.
Proof. unfold skip_draws. cbn [ctx cursor]. f_equal. lia. Qed.

Lemma fill_count len n s :
  loop_count len = Some n -> fill len s = Ok (skip_draws n s).
Proof.
  intros H. unfold fill, for_loop. rewrite H. clear H.
  induction n as [|n IH].
  - unfold for_range, skip_draws. cbn. destruct s as [c k]. cbn. f_equal. f_equal. lia.
  - rewrite for_range_64_S, IH. cbn [andThen]. rewrite skip_draws_add.
    f_equal. f_equal. lia.
Qed.

Lemma createReverb_count d decay k s :
  loop_count (mul (sampleRate (ctx s)) d) = Some k ->
  createReverb d decay s = Ok (skip_draws (k + k) s).
Proof.
  intros H. unfold createReverb, for_range. cbn [seq fold_left andThen].
  rewrite (fill_count _ k s H). cbn [andThen].
  change (sampleRate (ctx s)) with (sampleRate (ctx (skip_draws k s))) in H.
  rewrite (fill_count _ k _ H). now rewrite skip_draws_add.
Qed.

Lemma loop_count_zero x : is_zero x = true -> loop_count x = Some 0%nat.
Proof. destruct x; try discriminate. reflexivity. Qed.

Lemma for_loop_none bound body s :
  loop_count bound = Some 0%nat -> for_loop bound body s = Ok s.
Proof. intros H. unfold for_loop. now rewrite H. Qed.

Lemma stopAudio_keeps w :
  length (contexts (stopAudio w)) = length (contexts w) /\
  random (stopAudio w) = random w /\ deviceRate (stopAudio w) = deviceRate w /\
  timers (stopAudio w) = timers w.
Proof.
  unfold stopAudio. destruct (activeCtx w); cbn; repeat split.
  apply length_alter.
Qed.

Lemma automate_fine n e s :
  match e with
  | SetValue _ => True
  | SetValueAtTime v t | LinearRampToValueAtTime v t =>
      is_finite v = true /\ time_error t = None
  end ->
  automate n e s = Ok (with_gain (n, e) s).
Proof.
  destruct e as [v|v t|v t]; cbn [automate]; [reflexivity|..];
    intros [Hv Ht]; unfold perform; cbn [first_error call_error];
    rewrite Hv, Ht; reflexivity.
Qed.

Lemma automate_rejected n v t e s :
  is_finite v = true -> time_error t = Some e ->
  automate n (SetValueAtTime v t) s = Throw e s.
Proof.
  intros Hv Ht. cbn [automate]. unfold perform. cbn [first_error call_error].
  now rewrite Hv, Ht.
Qed.

(** With no bar to play, what is left of [playJingle] is the routing, the
    filling of the impulse response and the fade-out. *)
Lemma arrangeAndFade_no_bar params s k :
  let total := default (of_Z 12) (durationSeconds params) in
  loop_count (barCount (div (of_Z 60) (bpm params)) total) = Some 0%nat ->
  loop_count (mul (sampleRate (ctx s)) (dec 25 10)) = Some k ->
  voices (ctx s) = [] -> drums (ctx s) = [] -> gains (ctx s) = [] ->
  currentTime (ctx s) = zero ->
  let profile :=
    AnyCase.getStyleProfile lower (musicalStyle params) (tone params) in
  let routed :=
    {| ctx := {| state := state (ctx s); sampleRate := sampleRate (ctx s);
                 currentTime := zero; voices := []; drums := [];
                 gains := firstn 4 (gainWrites profile total) |};
       cursor := (cursor s + N.of_nat (k + k))%N |} in
  match time_error (sub (add zero total) (dec 15 10)) with
  | Some e => arrangeAndFade lower rnd params s = Throw e routed
  | None =>
      time_error (add zero total) = None ->
      arrangeAndFade lower rnd params s
      = Ok {| ctx := {| state := state (ctx s); sampleRate := sampleRate (ctx s);
                        currentTime := zero; voices := []; drums := [];
                        gains := gainWrites profile total |};
              cursor := (cursor s + N.of_nat (k + k))%N |}
  end.
Proof.
  intros total Hbars Hrev Hv Hd Hg Hnow profile routed.
  unfold arrangeAndFade. cbv zeta. fold total. fold profile.
  cbn [set_gain andThen].
  rewrite (createReverb_count _ _ k) by exact Hrev.
  cbn [set_gain andThen].
  repeat (rewrite for_loop_none by exact Hbars; cbn [andThen]).
  destruct s as [[st rate now vs ds gs] cur].
  cbn [ctx voices drums gains currentTime sampleRate state cursor] in *.
  subst vs ds gs now.
  cbn [skip_draws with_gain ctx cursor voices drums gains currentTime sampleRate
       state app].
  destruct (time_error (sub (add zero total) (dec 15 10))) as [e|] eqn:E1.
  - rewrite (automate_rejected _ _ _ e) by (try exact E1; reflexivity).
    reflexivity.
  - intros E2.
    rewrite automate_fine by (split; [reflexivity | exact E1]). cbn [andThen].
    rewrite automate_fine by (split; [reflexivity | exact E2]). cbn [andThen].
    rewrite automate_fine by (split; [reflexivity | exact E1]). cbn [andThen].
    rewrite automate_fine by (split; [reflexivity | exact E2]).
    reflexivity.
Qed.

(** *** Frequencies and durations of the notes *)

Lemma resolver_sound style tn :
  profile_sound (AnyCase.getStyleProfile lower style tn) = true.
Proof.
  unfold AnyCase.getStyleProfile. cbv zeta.
  repeat match goal with
         | |- context [if ?b then _ else _] => destruct b
         end; vm_compute; reflexivity.
Qed.

Lemma profile_sound_parts p :
  profile_sound p = true ->
  let sc := map of_num (Style.scale p) in
  (length sc = 5 \/ length sc = 6)%nat /\
  Forall (fun f => audible f = true) sc /\
  Forall (fun f => audible f = true) (map (fun f => div f (of_Z 2)) sc) /\
  audible (mul (nth 0 sc nan) (dec 125 100)) = true /\
  audible (mul (nth 0 sc nan) (dec 15 10)) = true.
Proof.
  unfold profile_sound. cbv zeta.
  rewrite !andb_true_iff, orb_true_iff, !Nat.eqb_eq, !forallb_forall.
  rewrite !List.Forall_forall. tauto.
Qed.

Lemma audible_positive f : audible f = true -> positive f = true.
Proof. unfold audible. now rewrite andb_true_iff. Qed.

Lemma audible_finite f : audible f = true -> is_finite f = true.
Proof. unfold audible. now rewrite andb_true_iff. Qed.

Lemma beat_normal T :
  valid T = true -> positive T = true -> is_finite T = true ->
  normal_from (-1071) (div (of_Z 60) T).
Proof.
  intros Hv Hp Hf.
  destruct (div_60_240 T Hv Hp)
    as [(-> & _)|(m3 & e3 & _ & Hm3 & Hd3 & He3 & E60 & _)]; [discriminate Hf|].
  rewrite E60. now apply overflow_normal_from.
Qed.

Lemma melody_duration_positive bd d :
  normal_from (-1071) bd ->
  positive (mul (mul bd (if lt d (dec 3 10) then of_Z 2 else of_Z 1)) (dec 9 10))
  = true.
Proof.
  intros H.
  destruct (lt d (dec 3 10)); eapply normal_from_positive;
    (eapply mul_normal_from;
     [ vm_compute; reflexivity | reflexivity |
     | eapply mul_normal_from; [vm_compute; reflexivity | reflexivity | | exact H] ]);
    lia.
Qed.

Lemma scaled_duration_positive bd c mc ec :
  c = S754_finite false mc ec -> Zdigits2 (Z.pos mc) = 53%Z -> (-55 <= ec)%Z ->
  normal_from (-1071) bd -> positive (mul bd c) = true.
Proof.
  intros Hc Hd He H. eapply normal_from_positive.
  eapply (mul_normal_from _ _ _ _ _ Hc Hd); [|exact H]. lia.
Qed.

Lemma melody_freq_audible p u :
  profile_sound p = true -> unit_draw u ->
  let scale := map of_num (Style.scale p) in
  audible (get scale (Math_floor (mul u (of_nat (length scale))))) = true.
Proof.
  intros Hp Hu scale.
  destruct (profile_sound_parts p Hp) as (Hlen & Hpos & _). fold scale in Hlen, Hpos.
  assert (exists i, to_index (Math_floor (mul u (of_nat (length scale)))) = Some i
                    /\ (i < length scale)%nat) as (i & Hi & Hlt).
  { destruct Hlen as [->| ->].
    - destruct (random_index u 5 (5 * 2 ^ 50) Hu ltac:(lia) eq_refl eq_refl)
        as (i & Hi & Hlt).
      exists i. split; [exact Hi | lia].
    - destruct (random_index u 6 (6 * 2 ^ 50) Hu ltac:(lia) eq_refl eq_refl)
        as (i & Hi & Hlt).
      exists i. split; [exact Hi | lia]. }
  unfold get. rewrite Hi.
  rewrite List.Forall_forall in Hpos. apply Hpos. now apply nth_In.
Qed.

Lemma bass_freq_audible p k :
  profile_sound p = true ->
  let bassScale := map (fun f => div f (of_Z 2)) (map of_num (Style.scale p)) in
  audible (nth (k mod length bassScale) bassScale nan) = true.
Proof.
  intros Hp bassScale.
  destruct (profile_sound_parts p Hp) as (Hlen & _ & Hpos & _).
  fold bassScale in Hpos. rewrite List.Forall_forall in Hpos. apply Hpos.
  apply nth_In. apply Nat.mod_upper_bound.
  unfold bassScale. rewrite length_map. lia.
Qed.

Lemma pad_freq_audible p f :
  profile_sound p = true ->
  let scale := map of_num (Style.scale p) in
  In f [nth 0 scale nan; mul (nth 0 scale nan) (dec 125 100);
        mul (nth 0 scale nan) (dec 15 10)] ->
  audible f = true.
Proof.
  intros Hp scale Hf.
  destruct (profile_sound_parts p Hp) as (Hlen & Hpos & _ & H3 & H5).
  fold scale in Hlen, Hpos, H3, H5.
  destruct Hf as [<-|[<-|[<-|[]]]]; try assumption.
  rewrite List.Forall_forall in Hpos. apply Hpos. apply nth_In. lia.
Qed.

(** *** Every voice that is scheduled is schedulable *)

Lemma all_schedulable_ctx s t :
  ctx t = ctx s -> all_schedulable s -> all_schedulable t.
Proof. unfold all_schedulable. now intros ->. Qed.

Lemma scheduleNote_sound dest ev s :
  all_schedulable s -> schedulable ev ->
  leaves all_schedulable (scheduleNote dest ev s).
Proof.
  intros Hs Hev. eapply leaves_left; [apply scheduleNote_left|].
  unfold all_schedulable in *. cbn [with_voice ctx voices].
  apply Forall_app. split; [exact Hs|]. now constructor.
Qed.

Section Sound.

Variable p : Style.StyleProfile.
Variable bd : double.
Hypothesis p_sound : profile_sound p = true.
Hypothesis bd_normal : normal_from (-1071) bd.
Hypothesis draws : forall k, unit_draw (rnd k).

Lemma melodyBeat_sound lead bar beat s :
  all_schedulable s ->
  leaves all_schedulable
    (melodyBeat rnd (map of_num (Style.scale p)) lead bd bar beat s).
Proof.
  intros Hs. unfold melodyBeat, Math_random. cbn [ctx cursor].
  destruct (lt (rnd (cursor s)) (dec 7 10)).
  - apply scheduleNote_sound; [exact Hs|].
    split; cbn [freq duration].
    + apply audible_positive, melody_freq_audible; [exact p_sound | apply draws].
    + now apply melody_duration_positive.
  - exact Hs.
Qed.

Lemma bassBeat_sound bass bar beat s :
  all_schedulable s ->
  leaves all_schedulable
    (bassBeat (map of_num (Style.scale p)) bass bd bar beat s).
Proof.
  intros Hs. unfold bassBeat. apply scheduleNote_sound; [exact Hs|].
  split; cbn [freq duration].
  - now apply audible_positive, bass_freq_audible.
  - eapply scaled_duration_positive;
    [vm_compute; reflexivity | reflexivity | lia | exact bd_normal].
Qed.

Lemma padVoice_sound bar f s :
  positive f = true -> all_schedulable s ->
  leaves all_schedulable (padVoice rnd bd bar (Ok s) f).
Proof.
  intros Hf Hs. unfold padVoice, Math_random. cbn [andThen ctx cursor].
  apply scheduleNote_sound; [exact Hs|].
  split; cbn [freq duration]; [exact Hf|].
  eapply scaled_duration_positive;
    [vm_compute; reflexivity | reflexivity | lia | exact bd_normal].
Qed.

Lemma padBar_sound bar s :
  all_schedulable s ->
  leaves all_schedulable (padBar rnd (map of_num (Style.scale p)) bd bar s).
Proof.
  intros Hs. rewrite padBar_fold. cbn [fold_left andThen].
  do 2 (apply leaves_andThen;
          [|intros t Ht; apply padVoice_sound;
            [apply audible_positive, (pad_freq_audible p _ p_sound); cbn; tauto
            | exact Ht]]).
  apply padVoice_sound; [|exact Hs].
  apply audible_positive, (pad_freq_audible p _ p_sound); cbn; tauto.
Qed.

End Sound.

Lemma drum_sound (r : Build -> Result) (d : Node * DrumHit) s :
  leaves (fun s' => ctx s' = ctx (with_drum d s)) (r s) ->
  all_schedulable s -> leaves all_schedulable (r s).
Proof.
  intros H Hs. eapply leaves_impl; [|exact H].
  intros t Ht. cbn beta in Ht. unfold all_schedulable in *. now rewrite Ht.
Qed.

Lemma drumBar_sound bd bar s :
  all_schedulable s -> leaves all_schedulable (drumBar bd bar s).
Proof.
  intros Hs. unfold drumBar. cbn [fold_left andThen].
  apply leaves_andThen.
  - do 3 (apply leaves_andThen;
            [|intros t Ht;
              first [ eapply leaves_left; [apply scheduleKick_left | exact Ht]
                    | eapply drum_sound; [apply scheduleSnare_leaves | exact Ht] ]]).
    eapply leaves_left; [apply scheduleKick_left | exact Hs].
  - intros t Ht. apply leaves_for_range; [exact Ht|].
    intros i t' Ht'. eapply drum_sound; [apply scheduleHihat_leaves | exact Ht'].
Qed.

Lemma automate_sound n e s :
  all_schedulable s -> leaves all_schedulable (automate n e s).
Proof.
  intros Hs. eapply leaves_impl; [|apply automate_leaves].
  intros t [->| ->]; exact Hs.
Qed.

Lemma arrangeAndFade_sound params s :
  valid (bpm params) = true -> positive (bpm params) = true ->
  is_finite (bpm params) = true -> (forall k, unit_draw (rnd k)) ->
  all_schedulable s ->
  leaves all_schedulable (arrangeAndFade lower rnd params s).
Proof.
  intros Hv Hp Hf Hr Hs. unfold arrangeAndFade. cbv zeta.
  pose proof (beat_normal _ Hv Hp Hf) as Hbd.
  pose proof (resolver_sound (musicalStyle params) (tone params)) as Hps.
  repeat (apply leaves_andThen; [|intros t Ht; try (apply automate_sound; exact Ht)]).
  - exact Hs.
  - eapply leaves_impl; [|apply createReverb_keeps_ctx].
    intros t' Ht'. cbn beta in Ht'. eapply all_schedulable_ctx; eassumption.
  - exact Ht.
  - exact Ht.
  - exact Ht.
  - apply leaves_for_loop; [exact Ht|]. intros i t' Ht'.
    apply leaves_for_range; [exact Ht'|]. intros j t'' Ht''.
    now apply melodyBeat_sound.
  - apply leaves_for_loop; [exact Ht|]. intros i t' Ht'.
    apply leaves_for_range; [exact Ht'|]. intros j t'' Ht''.
    now apply bassBeat_sound.
  - apply leaves_for_loop; [exact Ht|]. intros i t' Ht'.
    now apply padBar_sound.
  - apply leaves_for_loop; [exact Ht|]. intros i t' Ht'.
    now apply drumBar_sound.
Qed.

Lemma leaves_at Q r s : leaves Q r -> left_by r = Some s -> Q s.
Proof. unfold leaves. intros H E. now rewrite E in H. Qed.

Lemma playJingle_sound (p : Params) (w w' : World) :
  valid (bpm p) = true -> positive (bpm p) = true -> is_finite (bpm p) = true ->
  (forall k, unit_draw (rnd k)) ->
  world_after (playJingle lower rnd p w) = Some w' ->
  exists c, session w' = Some c /\
            Forall (fun v => schedulable (snd v)) (voices c).
Proof.
  intros Hv Hp Hf Hr Hw'.
  destruct (playJingle_left lower rnd p w w' Hw') as (s' & Hl & Hc).
  exists (ctx s'). split; [exact Hc|].
  eapply (leaves_at all_schedulable); [|exact Hl].
  apply (arrangeAndFade_sound p _ Hv Hp Hf Hr). constructor.
Qed.

(** C7, amended. With no bar to play (the bar count is 0, or a negative
    number or [NaN]: the loops over the bars have no turn) [playJingle]
    schedules no melody, bass, pad or percussion event; it returns, having
    written the routing levels and the fade-out, when the two times of the
    fade-out, [durationSeconds - 1.5] and [durationSeconds], are finite and
    not negative, as they are with the default of 12 seconds; and when the
    first of them is not, [setValueAtTime] throws and [playJingle] with it,
    the routing levels written and nothing else.  For every finite tempo
    above 0, 200 included, the divisors [bpm] and [beatDuration * 4] are not
    0, the beat and the bar last more than 0 seconds, and every note event
    handed to the voice scheduler, whether [playJingle] returns or throws,
    and after any number of turns of the loop over the bars, has a frequency
    above 0 and a duration above 0. *)
Theorem C7_degenerate_and_positive_tempo :
  forall (p : Params) (w : World),
    valid (bpm p) = true ->
    (forall k, unit_draw (rnd k)) ->
    let total := default (of_Z 12) (durationSeconds p) in
    let beatDuration := div (of_Z 60) (bpm p) in
    let profile := AnyCase.getStyleProfile lower (musicalStyle p) (tone p) in
    let id := length (contexts w) in
    let fadeStart := sub (add zero total) (dec 15 10) in
    let fadeEnd := add zero total in
    (forall k,
        loop_count (barCount beatDuration total) = Some 0%nat ->
        loop_count (mul (deviceRate w) (dec 25 10)) = Some k ->
        (time_error fadeStart = None -> time_error fadeEnd = None ->
         exists w' c,
           playJingle lower rnd p w = Returns w' /\
           session w' = Some c /\
           state c = AudioSynth.running /\
           voices c = [] /\ drums c = [] /\
           gains c = gainWrites profile total /\
           activeCtx w' = Some id /\
           In (Timeout id (add (mul total (of_Z 1000)) (of_Z 200))) (timers w') /\
           random w' = (random w + N.of_nat (k + k))%N) /\
        (forall e, time_error fadeStart = Some e ->
           exists w' c,
             playJingle lower rnd p w = Throws e w' /\
             session w' = Some c /\
             voices c = [] /\ drums c = [] /\
             gains c = firstn 4 (gainWrites profile total) /\
             timers w' = timers w)) /\
    (is_zero (barCount beatDuration total) = true ->
     loop_count (barCount beatDuration total) = Some 0%nat) /\
    (durationSeconds p = None ->
     time_error fadeStart = None /\ time_error fadeEnd = None) /\
    (positive (bpm p) = true -> is_finite (bpm p) = true ->
     is_zero (bpm p) = false /\
     positive beatDuration = true /\
     is_zero (mul beatDuration (of_Z 4)) = false /\
     positive (mul beatDuration (of_Z 4)) = true /\
     (forall w', world_after (playJingle lower rnd p w) = Some w' ->
        exists c, session w' = Some c /\
                  Forall (fun v => schedulable (snd v)) (voices c)) /\
     (forall n s, all_schedulable s ->
        leaves all_schedulable
          (for_range n
             (fun bar => for_range 4
                (melodyBeat rnd (map of_num (Style.scale profile))
                   (Style.wave profile) beatDuration bar)) s))).
Proof.
  intros p w Hv Hr total beatDuration profile id fadeStart fadeEnd.
  destruct (stopAudio_keeps w) as (Hlen & Hrnd & Hrate & Htim).
  set (s0 := {| ctx := {| state := AudioSynth.running;
                          sampleRate := deviceRate (stopAudio w);
                          currentTime := zero;
                          voices := []; drums := []; gains := [] |};
                cursor := random (stopAudio w) |}).
  split; [|split; [|split]].
  - intros k Hbars Hrev.
    pose proof (arrangeAndFade_no_bar p s0 k Hbars) as H.
    cbn [s0 ctx sampleRate voices drums gains currentTime state cursor] in H.
    rewrite Hrate in H.
    specialize (H Hrev eq_refl eq_refl eq_refl eq_refl).
    fold total profile fadeStart fadeEnd in H.
    split.
    + intros E1 E2. rewrite E1 in H. specialize (H E2).
      unfold playJingle. cbv zeta. fold s0. rewrite H.
      eexists. eexists. split; [reflexivity|].
      unfold session. cbn [contexts activeCtx timers random ctx cursor].
      rewrite last_snoc. cbn [state voices drums gains].
      repeat split; try reflexivity.
      * now rewrite Hlen.
      * rewrite Hlen, Htim. fold total id. rewrite !in_app_iff. right. right. now left.
      * now rewrite Hrnd.
    + intros e E1. rewrite E1 in H.
      unfold playJingle. cbv zeta. fold s0. rewrite H.
      eexists. eexists. split; [reflexivity|].
      unfold session. cbn [contexts activeCtx timers random ctx cursor].
      rewrite last_snoc. cbn [state voices drums gains].
      repeat split; try reflexivity.
      now rewrite app_nil_r.
  - apply loop_count_zero.
  - intros E. subst total fadeStart fadeEnd. rewrite E. cbn [default].
    split; vm_compute; reflexivity.
  - intros Hp Hf.
    pose proof (beat_normal _ Hv Hp Hf) as Hbd. fold beatDuration in Hbd.
    assert (H4 : normal_from (-1069) (mul beatDuration (of_Z 4))).
    { eapply normal_from_weaken;
        [|eapply mul_normal_from; [apply of_Z_4 | reflexivity | | exact Hbd]]; lia. }
    split; [|split; [|split; [|split; [|split]]]].
    + destruct (bpm p); try discriminate Hp; reflexivity.
    + eapply normal_from_positive; exact Hbd.
    + destruct H4 as [->|(m & e & -> & _)]; reflexivity.
    + eapply normal_from_positive; exact H4.
    + intros w' Hw'. now apply (playJingle_sound p w w').
    + intros n s Hs. apply leaves_for_range; [exact Hs|].
      intros i t Ht. apply leaves_for_range; [exact Ht|].
      intros j t' Ht'. apply melodyBeat_sound; try assumption.
      apply resolver_sound.
Qed.

End Tempo64.


(** A tempo of 10 with the default duration has no bar to play and returns;
    a tempo of 200 has ten bars, whose notes are all schedulable. *)
Lemma C7_degenerate_and_positive_tempo_witness :
  (exists w' c,
     AudioSynth64.playJingle toLowerCase (fun _ => Binary64.dec 1 2)
       {| AudioSynth64.bpm := Binary64.of_Z 10;
          AudioSynth64.musicalStyle := "Chill Jazz";
          AudioSynth64.tone := "Warm";
          AudioSynth64.durationSeconds := None;
          AudioSynth64.onTimeUpdate := false |}
       (AudioSynth64.initial (Binary64.of_Z 44100) 0) = AudioSynth64.Returns w' /\
     AudioSynth64.session w' = Some c /\
     AudioSynth64.voices c = [] /\ AudioSynth64.drums c = [] /\
     length (AudioSynth64.gains c) = 8%nat) /\
  (Binary64.positive
     (Binary64.mul (Binary64.div (Binary64.of_Z 60) (Binary64.of_Z 200))
        (Binary64.of_Z 4)) = true /\
   exists w' c,
     AudioSynth64.world_after
       (AudioSynth64.playJingle toLowerCase (fun _ => Binary64.dec 1 2)
          {| AudioSynth64.bpm := Binary64.of_Z 200;
             AudioSynth64.musicalStyle := "Upbeat Pop";
             AudioSynth64.tone := "Energetic";
             AudioSynth64.durationSeconds := None;
             AudioSynth64.onTimeUpdate := false |}
          (AudioSynth64.initial (Binary64.of_Z 44100) 0)) = Some w' /\
     AudioSynth64.session w' = Some c /\
     Forall (fun v => AudioSynth64.schedulable (snd v)) (AudioSynth64.voices c)).
Proof.
  assert (Hr : forall k : N, Binary64.unit_draw ((fun _ => Binary64.dec 1 2) k))
    by (intros k; repeat split; reflexivity).
  split.
  - destruct (C7_degenerate_and_positive_tempo toLowerCase (fun _ => Binary64.dec 1 2)
                {| AudioSynth64.bpm := Binary64.of_Z 10;
                   AudioSynth64.musicalStyle := "Chill Jazz";
                   AudioSynth64.tone := "Warm";
                   AudioSynth64.durationSeconds := None;
                   AudioSynth64.onTimeUpdate := false |}
                (AudioSynth64.initial (Binary64.of_Z 44100) 0) eq_refl Hr)
      as (H & _).
    destruct (H (Z.to_nat 110250) eq_refl eq_refl) as (H' & _).
    destruct (H' eq_refl eq_refl) as (w' & c & E & Hc & _ & Hv & Hd & Hg & _).
    exists w', c. repeat split; try assumption. now rewrite Hg.
  - assert (E : exists w',
               AudioSynth64.world_after
                 (AudioSynth64.playJingle toLowerCase (fun _ => Binary64.dec 1 2)
                    {| AudioSynth64.bpm := Binary64.of_Z 200;
                       AudioSynth64.musicalStyle := "Upbeat Pop";
                       AudioSynth64.tone := "Energetic";
                       AudioSynth64.durationSeconds := None;
                       AudioSynth64.onTimeUpdate := false |}
                    (AudioSynth64.initial (Binary64.of_Z 44100) 0)) = Some w')
      by (eexists; vm_compute; reflexivity).
    destruct E as [w' E].
    destruct (C7_degenerate_and_positive_tempo toLowerCase (fun _ => Binary64.dec 1 2)
                {| AudioSynth64.bpm := Binary64.of_Z 200;
                   AudioSynth64.musicalStyle := "Upbeat Pop";
                   AudioSynth64.tone := "Energetic";
                   AudioSynth64.durationSeconds := None;
                   AudioSynth64.onTimeUpdate := false |}
                (AudioSynth64.initial (Binary64.of_Z 44100) 0) eq_refl Hr)
      as (_ & _ & _ & H).
    destruct (H eq_refl eq_refl) as (_ & _ & _ & Hpos & Hw & _).
    split; [exact Hpos|].
    destruct (Hw w' E) as (c & Hc & Hs). exists w', c. now repeat split.
Defined.

(** C7 as it was worded fails twice.  At a tempo of 120 with a duration of
    1 second the bar count is 0 and [playJingle] throws a [RangeError]: the
    fade-out starts at [1 - 1.5], a negative time.  And the tempo
    [+Infinity] is above 0, yet the beat lasts 0 seconds, the duration is
    divided by 0, and the loop over the bars has no end. *)
Lemma C7_short_session_throws :
  let w := AudioSynth64.initial (Binary64.of_Z 44100) 0 in
  let rnd := fun _ : N => Binary64.dec 1 2 in
  let short :=
    {| AudioSynth64.bpm := Binary64.of_Z 120;
       AudioSynth64.musicalStyle := "Professional";
       AudioSynth64.tone := "Calm";
       AudioSynth64.durationSeconds := Some (Binary64.of_Z 1);
       AudioSynth64.onTimeUpdate := false |} in
  let endless :=
    {| AudioSynth64.bpm := Binary64.infinity;
       AudioSynth64.musicalStyle := "Professional";
       AudioSynth64.tone := "Calm";
       AudioSynth64.durationSeconds := None;
       AudioSynth64.onTimeUpdate := false |} in
  (AudioSynth64.barCount (Binary64.div (Binary64.of_Z 60) (Binary64.of_Z 120))
     (Binary64.of_Z 1) = Binary64.zero /\
   Binary64.sub (Binary64.add Binary64.zero (Binary64.of_Z 1)) (Binary64.dec 15 10)
   = Binary64.div (Binary64.of_Z (-1)) (Binary64.of_Z 2) /\
   exists w',
     AudioSynth64.playJingle toLowerCase rnd short w
     = AudioSynth64.Throws AudioSynth64.RangeError w' /\
     AudioSynth64.timers w' = []) /\
  (Binary64.positive Binary64.infinity = true /\
   Binary64.div (Binary64.of_Z 60) Binary64.infinity = Binary64.zero /\
   Binary64.mul (Binary64.div (Binary64.of_Z 60) Binary64.infinity) (Binary64.of_Z 4)
   = Binary64.zero /\
   AudioSynth64.barCount (Binary64.div (Binary64.of_Z 60) Binary64.infinity)
     (Binary64.of_Z 12) = Binary64.infinity /\
   AudioSynth64.playJingle toLowerCase rnd endless w = AudioSynth64.NeverReturns).
Proof.
  cbv zeta. split.
  - split; [vm_compute; reflexivity|]. split; [vm_compute; reflexivity|].
    eexists. split; vm_compute; reflexivity.
  - repeat split; vm_compute; reflexivity.
Qed.

(** * Further properties of the code *)

(** ** Text handling before the model is called *)

Section SafetyFacts.

Import GeminiInput.

Local Open Scope string_scope.

Lemma string_app_assoc (a b c : string) : (a ++ b) ++ c = a ++ b ++ c.
Proof. induction a as [|x a IH]; simpl; [reflexivity | now rewrite IH]. Qed.

Lemma string_app_nil_r (a : string) : a ++ "" = a.
Proof. induction a as [|x a IH]; simpl; [reflexivity | now rewrite IH]. Qed.

Lemma safetyCheck_false_iff (input : string) :
  safetyCheck input = false
  <-> exists term, In term BLOCKED_TERMS /\ occurs_ignoring_case term input.
Proof.
  unfold safetyCheck. rewrite negb_false_iff, existsb_exists.
  split; intros (term & Hin & H); exists term; (split; [exact Hin|]);
    now apply includes_ignoring_case.
Qed.

(** X1. The safety filter rejects every text in which a blocked term
    occurs, at any position (inside a longer word too) and whatever the case
    of its letters.  On ASCII text the converse holds: a text is rejected
    only when a blocked term occurs in it, so it is accepted exactly when
    none does.  (Outside ASCII [toLowerCase] can produce a letter of a term
    from another character, and more texts are rejected.) *)
Theorem X1_safetyCheck_rejects_iff_term_occurs :
  forall input : string,
    ((exists term a w b,
         In term BLOCKED_TERMS /\ input = a ++ w ++ b /\ toLowerCase w = term) ->
     safetyCheck input = false) /\
    (is_ascii input = true ->
     (safetyCheck input = false
      <-> exists term a w b,
            In term BLOCKED_TERMS /\ input = a ++ w ++ b
            /\ toLowerCase w = term) /\
     (safetyCheck input = true
      <-> forall term, In term BLOCKED_TERMS ->
                       ~ occurs_ignoring_case term input)).
Proof.
  intros input.
  assert (H1 : safetyCheck input = false
               <-> exists term a w b,
                     In term BLOCKED_TERMS /\ input = a ++ w ++ b
                     /\ toLowerCase w = term).
  { rewrite safetyCheck_false_iff. unfold occurs_ignoring_case. split.
    - intros (term & Hin & a & w & b & E & Hw). now exists term, a, w, b.
    - intros (term & a & w & b & Hin & E & Hw). exists term.
      split; [exact Hin|]. now exists a, w, b. }
  split; [apply H1|]. intros _. split; [exact H1|].
  rewrite <- not_false_iff_true, safetyCheck_false_iff. split.
  - intros H term Hin Hocc. apply H. now exists term.
  - intros H (term & Hin & Hocc). exact (H term Hin Hocc).
Qed.

Lemma safetyCheck_extends (a s b : string) :
  safetyCheck s = false -> safetyCheck (a ++ s ++ b) = false.
Proof.
  rewrite !safetyCheck_false_iff. intros (term & Hin & x & w & y & -> & Hw).
  exists term. split; [exact Hin|].
  exists (a ++ x), w, (y ++ b). split; [|exact Hw].
  now rewrite !string_app_assoc.
Qed.

Lemma safetyCheck_substring (p s : string) :
  is_substring p s -> safetyCheck s = true -> safetyCheck p = true.
Proof.
  intros (a & b & ->) Hok. destruct (safetyCheck p) eqn:E; [reflexivity|].
  rewrite (safetyCheck_extends a p b E) in Hok. discriminate.
Qed.

(** X2. Every part of a text the safety filter accepts is accepted too; put
    the other way, a rejected text stays rejected whatever is written
    before and after it. *)
Theorem X2_safetyCheck_closed_under_substrings :
  forall a s b : string,
    (safetyCheck (a ++ s ++ b) = true -> safetyCheck s = true) /\
    (safetyCheck s = false -> safetyCheck (a ++ s ++ b) = false).
Proof.
  intros a s b. split.
  - apply safetyCheck_substring. now exists a, b.
  - apply safetyCheck_extends.
Qed.

End SafetyFacts.

Section SeparatorFacts.

Import GeminiInput.

Local Open Scope string_scope.

(** A keyword that has no occurrence of the character [c] is read at the
    start of [x ++ c :: b] only if it is read at the start of [x]. *)
Lemma starts_with_separator (c : ascii) (kw x b : string) :
  all_chars (fun k => negb (Ascii.eqb c k)) kw = true ->
  starts_with (x ++ String c b) kw = starts_with x kw.
Proof.
  revert x. induction kw as [|k kw IH]; intros x Hkw; [reflexivity|].
  cbn [all_chars] in Hkw. apply andb_true_iff in Hkw as [Hk Hkw].
  apply negb_true_iff in Hk.
  destruct x as [|d x]; cbn [append starts_with].
  - now rewrite Hk.
  - now rewrite IH.
Qed.

(** Such a keyword occurs in [a ++ c :: b] exactly when it occurs in [a] or
    in [b]: it cannot lie across the separator. *)
Lemma includes_separator (c : ascii) (kw a b : string) :
  all_chars (fun k => negb (Ascii.eqb c k)) kw = true ->
  includes (a ++ String c b) kw = includes a kw || includes b kw.
Proof.
  intros Hkw. induction a as [|d a IH].
  - cbn [append includes].
    change (String c b) with ("" ++ String c b).
    rewrite (starts_with_separator c kw "" b Hkw).
    destruct kw as [|k kw]; [now destruct b|].
    cbn [starts_with orb]. reflexivity.
  - cbn [append includes].
    change (String d (a ++ String c b)) with (String d a ++ String c b).
    rewrite (starts_with_separator c kw (String d a) b Hkw), IH.
    now destruct (starts_with (String d a) kw).
Qed.

Lemma includes_space_joined (kw a b : string) :
  all_chars (fun k => negb (Ascii.eqb " " k)) kw = true ->
  includes (toLowerCase (a ++ " " ++ b)) kw
  = includes (toLowerCase a) kw || includes (toLowerCase b) kw.
Proof.
  intros Hkw. rewrite toLowerCase_app. cbn [append toLowerCase].
  change (lower_ascii " ") with " "%char.
  now apply includes_separator.
Qed.

Lemma blocked_terms_no_space :
  List.Forall (fun kw => all_chars (fun k => negb (Ascii.eqb " " k)) kw = true)
    BLOCKED_TERMS.
Proof. repeat constructor. Qed.

Lemma existsb_orb {A : Type} (f g h : A -> bool) (l : list A) :
  List.Forall (fun x => f x = g x || h x) l ->
  existsb f l = existsb g l || existsb h l.
Proof.
  induction 1 as [|x l Hx _ IH]; [reflexivity|].
  cbn [existsb]. rewrite Hx, IH.
  destruct (g x), (h x), (existsb g l), (existsb h l); reflexivity.
Qed.

Lemma safetyCheck_joined (a b : string) :
  safetyCheck (a ++ " " ++ b) = safetyCheck a && safetyCheck b.
Proof.
  unfold safetyCheck. rewrite <- negb_orb. f_equal.
  apply existsb_orb.
  eapply List.Forall_impl; [|exact blocked_terms_no_space].
  intros kw Hkw. now apply includes_space_joined.
Qed.

(** X3. The safety filter accepts two texts joined by a space exactly when
    it accepts each of them: no blocked term contains a space, so none can
    lie across the joint.  This is how [generateJingle] checks the podcast
    name, the theme and the tone in one call. *)
Theorem X3_safetyCheck_space_joined :
  forall a b c : string,
    safetyCheck (a ++ " " ++ b) = safetyCheck a && safetyCheck b /\
    safetyCheck (a ++ " " ++ b ++ " " ++ c)
    = safetyCheck a && safetyCheck b && safetyCheck c.
Proof.
  intros a b c. split; [apply safetyCheck_joined|].
  rewrite !safetyCheck_joined. now rewrite andb_assoc.
Qed.

End SeparatorFacts.

Section SanitizeFacts.

Import GeminiInput.

Local Open Scope string_scope.

Lemma slice0_length (n : nat) (s : string) :
  (String.length (slice0 n s) <= n)%nat.
Proof.
  revert s. induction n as [|n IH]; intros [|c s]; cbn; try lia.
  specialize (IH s). lia.
Qed.

Lemma slice0_prefix (n : nat) (s : string) : is_prefix (slice0 n s) s.
Proof.
  revert s. induction n as [|n IH]; intros s.
  - now exists s.
  - destruct s as [|c s]; [now exists ""|].
    destruct (IH s) as [t Ht]. exists t. cbn. now rewrite <- Ht.
Qed.

Lemma slice0_short (n : nat) (s : string) :
  (String.length s <= n)%nat -> slice0 n s = s.
Proof.
  revert s. induction n as [|n IH]; intros [|c s] H; cbn in *;
    try reflexivity; try lia.
  rewrite IH by lia. reflexivity.
Qed.

Lemma all_chars_slice0 p n s :
  all_chars p s = true -> all_chars p (slice0 n s) = true.
Proof.
  revert s. induction n as [|n IH]; intros [|c s] H; cbn in *; try reflexivity.
  apply andb_true_iff in H as [Hc Hs]. now rewrite Hc, IH.
Qed.

Lemma all_chars_trimStart p s :
  all_chars p s = true -> all_chars p (trimStart s) = true.
Proof.
  induction s as [|c s IH]; intros H; [reflexivity|].
  cbn [trimStart]. destruct (is_space c); [|exact H].
  cbn [all_chars] in H. apply andb_true_iff in H as [_ Hs]. now apply IH.
Qed.

Lemma all_chars_trimEnd p s :
  all_chars p s = true -> all_chars p (trimEnd s) = true.
Proof.
  induction s as [|c s IH]; intros H; [reflexivity|].
  cbn [all_chars] in H. apply andb_true_iff in H as [Hc Hs]. specialize (IH Hs).
  cbn [trimEnd]. destruct (trimEnd s) as [|d r].
  - destruct (is_space c); [reflexivity|]. cbn. now rewrite Hc.
  - cbn [all_chars] in IH |- *. now rewrite Hc, IH.
Qed.

Lemma all_chars_strip s :
  all_chars (fun c => negb (dangerous c)) (strip s) = true.
Proof.
  induction s as [|c s IH]; [reflexivity|].
  cbn [strip]. destruct (dangerous c) eqn:E; [exact IH|].
  cbn [all_chars]. now rewrite E, IH.
Qed.

Lemma strip_clean s :
  all_chars (fun c => negb (dangerous c)) s = true -> strip s = s.
Proof.
  induction s as [|c s IH]; intros H; [reflexivity|].
  cbn [all_chars] in H. apply andb_true_iff in H as [Hc Hs].
  apply negb_true_iff in Hc. cbn [strip]. now rewrite Hc, IH.
Qed.

Lemma no_leading_space_trimStart s : no_leading_space (trimStart s) = true.
Proof.
  induction s as [|c s IH]; [reflexivity|].
  cbn [trimStart]. destruct (is_space c) eqn:E; [exact IH|].
  cbn. now rewrite E.
Qed.

Lemma no_leading_space_trimEnd s :
  no_leading_space s = true -> no_leading_space (trimEnd s) = true.
Proof.
  destruct s as [|c s]; [reflexivity|]. cbn [no_leading_space trimEnd].
  intros Hc. destruct (trimEnd s); [|exact Hc].
  apply negb_true_iff in Hc. rewrite Hc. cbn. now rewrite Hc.
Qed.

Lemma no_leading_space_slice0 n s :
  no_leading_space s = true -> no_leading_space (slice0 n s) = true.
Proof. destruct n, s; cbn; auto. Qed.

Lemma trimStart_fixed s : no_leading_space s = true -> trimStart s = s.
Proof.
  destruct s as [|c s]; [reflexivity|]. cbn. intros H.
  apply negb_true_iff in H. now rewrite H.
Qed.

Lemma trimEnd_cons c s :
  trimEnd (String c s)
  = match trimEnd s with
    | EmptyString => if is_space c then EmptyString else String c EmptyString
    | r => String c r
    end.
Proof. reflexivity. Qed.

Lemma trimEnd_idempotent s : trimEnd (trimEnd s) = trimEnd s.
Proof.
  induction s as [|c s IH]; [reflexivity|].
  rewrite trimEnd_cons. destruct (trimEnd s) as [|d r] eqn:E.
  - destruct (is_space c) eqn:Hc; [reflexivity|]. cbn. now rewrite Hc.
  - rewrite trimEnd_cons, IH. reflexivity.
Qed.

Lemma trim_idempotent s : trim (trim s) = trim s.
Proof.
  unfold trim.
  rewrite (trimStart_fixed (trimEnd (trimStart s))).
  - apply trimEnd_idempotent.
  - apply no_leading_space_trimEnd, no_leading_space_trimStart.
Qed.

Lemma sanitize_clean str :
  all_chars (fun c => negb (dangerous c)) (sanitize str) = true.
Proof.
  unfold sanitize, trim.
  apply all_chars_slice0, all_chars_trimEnd, all_chars_trimStart,
    all_chars_strip.
Qed.

(** X4. Whatever the input, [sanitize] returns at most 200 characters, none
    of them one of [< > { } | \ ^ ` [ ]], and the first of them is not
    white space. *)
Theorem X4_sanitize_bounded_and_clean :
  forall str : string,
    (String.length (sanitize str) <= 200)%nat /\
    all_chars (fun c => negb (dangerous c)) (sanitize str) = true /\
    no_leading_space (sanitize str) = true.
Proof.
  intros str. split; [apply slice0_length|]. split; [apply sanitize_clean|].
  unfold sanitize, trim.
  apply no_leading_space_slice0, no_leading_space_trimEnd,
    no_leading_space_trimStart.
Qed.

(** X5. When the input, once stripped and trimmed, fits in 200 characters,
    sanitizing it again changes nothing.  (A longer input is cut after 200
    characters, and the cut can leave white space at the end, which a second
    pass would remove.) *)
Theorem X5_sanitize_idempotent_when_it_fits :
  forall str : string,
    (String.length (trim (strip str)) <= 200)%nat ->
    sanitize (sanitize str) = sanitize str.
Proof.
  intros str Hlen.
  assert (E : sanitize str = trim (strip str)).
  { unfold sanitize. now apply slice0_short. }
  rewrite E. unfold sanitize.
  rewrite strip_clean.
  - rewrite trim_idempotent. now apply slice0_short.
  - unfold trim. apply all_chars_trimEnd, all_chars_trimStart, all_chars_strip.
Qed.

End SanitizeFacts.

(** A short name with markup around it. *)
Lemma X5_sanitize_idempotent_when_it_fits_witness :
  GeminiInput.sanitize (GeminiInput.sanitize "  <b>Night Owls</b>  ")
  = GeminiInput.sanitize "  <b>Night Owls</b>  ".
Proof.
  apply X5_sanitize_idempotent_when_it_fits. vm_compute. lia.
Defined.

Section NameFacts.

Import GeminiInput.

Local Open Scope string_scope.

Variable ellipsis : string.

Lemma is_substring_refl s : is_substring s s.
Proof. exists "", "". cbn. now rewrite string_app_nil_r. Qed.

Lemma is_substring_trans p q s :
  is_substring p q -> is_substring q s -> is_substring p s.
Proof.
  intros (a & b & ->) (c & d & ->). exists (c ++ a), (b ++ d).
  now rewrite !string_app_assoc.
Qed.

Lemma is_prefix_substring p s : is_prefix p s -> is_substring p s.
Proof. intros [t ->]. now exists "", t. Qed.

Lemma is_prefix_trans p q s : is_prefix p q -> is_prefix q s -> is_prefix p s.
Proof.
  intros [a ->] [b ->]. exists (a ++ b). now rewrite string_app_assoc.
Qed.

Lemma is_prefix_length p s :
  is_prefix p s -> (String.length p <= String.length s)%nat.
Proof.
  intros [t ->]. induction p as [|c p IH]; cbn; [lia|]. lia.
Qed.

Lemma trimStart_substring s : is_substring (trimStart s) s.
Proof.
  induction s as [|c s IH]; [apply is_substring_refl|].
  cbn [trimStart]. destruct (is_space c); [|apply is_substring_refl].
  destruct IH as (a & b & E). exists (String c a), b. cbn. now rewrite <- E.
Qed.

Lemma trimEnd_prefix s : is_prefix (trimEnd s) s.
Proof.
  induction s as [|c s IH]; [now exists ""|].
  rewrite trimEnd_cons. destruct (trimEnd s) as [|d r].
  - destruct (is_space c); [now exists (String c s) | now exists s].
  - destruct IH as [t ->]. now exists t.
Qed.

(** On a text free of the stripped characters, [sanitize] returns a part of
    the text. *)
Lemma sanitize_substring s :
  all_chars (fun c => negb (dangerous c)) s = true ->
  is_substring (sanitize s) s.
Proof.
  intros Hs. unfold sanitize. rewrite (strip_clean s Hs). unfold trim.
  eapply is_substring_trans; [apply is_prefix_substring, slice0_prefix|].
  eapply is_substring_trans; [apply is_prefix_substring, trimEnd_prefix|].
  apply trimStart_substring.
Qed.

(** X6. For a name of ASCII characters, [truncateName] returns the
    sanitized name when it has at most [maxLen] characters (30 when
    omitted); otherwise it returns a beginning of the sanitized name, of at
    most [maxLen] characters and with no white space left at its end,
    followed by the ellipsis.  (Outside ASCII the length the code compares
    is counted in UTF-16 units, which these strings do not show.) *)
Theorem X6_truncateName_shape :
  forall (name : string) (maxLen : option nat),
    is_ascii name = true ->
    let n := default 30%nat maxLen in
    let clean := sanitize name in
    ((String.length clean <= n)%nat /\
     truncateName ellipsis name maxLen = clean)
    \/
    ((n < String.length clean)%nat /\
     exists pre,
       truncateName ellipsis name maxLen = pre ++ ellipsis /\
       is_prefix pre clean /\
       (String.length pre <= n)%nat /\
       trimEnd pre = pre).
Proof.
  intros name maxLen _ n clean. unfold truncateName. fold n. fold clean.
  destruct (Nat.ltb_spec n (String.length clean)) as [Hlt|Hge].
  - right. split; [exact Hlt|].
    exists (trimEnd (slice0 n clean)). split; [reflexivity|]. split; [|split].
    + eapply is_prefix_trans; [apply trimEnd_prefix | apply slice0_prefix].
    + pose proof (is_prefix_length _ _ (trimEnd_prefix (slice0 n clean))).
      pose proof (slice0_length n clean). lia.
    + apply trimEnd_idempotent.
  - left. split; [exact Hge | reflexivity].
Qed.

Lemma safeQuote_read (s rest : string) :
  starts_with rest "'" = false ->
  read_sql_literal (safeQuote s ++ String "'" rest) = Some (s, rest).
Proof.
  intros Hrest. induction s as [|c s IH].
  - cbn. destruct rest as [|d rest]; [reflexivity|].
    cbn in Hrest. rewrite andb_true_r in Hrest. now rewrite Hrest.
  - cbn [safeQuote]. destruct (Ascii.eqb c "'") eqn:E.
    + apply Ascii.eqb_eq in E. subst c. cbn [append read_sql_literal].
      cbn [Ascii.eqb Bool.eqb]. cbn [append] in IH. now rewrite IH.
    + cbn [append read_sql_literal]. rewrite E. now rewrite IH.
Qed.

(** X7. Quoting is undone by reading: a SQL string literal made of an
    opening quote, the text passed through [safeQuote] and a closing quote
    is read back as exactly that text, and the reading stops at the closing
    quote the code wrote, provided the next character is not a quote (the
    code writes a comma or a parenthesis there).  Hence two different texts
    never get the same quoted form. *)
Theorem X7_safeQuote_round_trip :
  forall s rest : string,
    starts_with rest "'" = false ->
    read_sql_literal (safeQuote s ++ "'" ++ rest) = Some (s, rest) /\
    (forall t, safeQuote t = safeQuote s -> t = s).
Proof.
  intros s rest Hrest. split; [now apply safeQuote_read|].
  intros t E.
  pose proof (safeQuote_read t rest Hrest) as Ht.
  pose proof (safeQuote_read s rest Hrest) as Hs.
  rewrite E, Hs in Ht. now injection Ht as ->.
Qed.

End NameFacts.

(** A name longer than 30 characters is cut; three dots stand for the
    ellipsis. *)
Lemma X6_truncateName_shape_witness :
  is_ascii "The Morning Show With Everyone On It" = true /\
  exists pre : string,
    GeminiInput.truncateName "..." "The Morning Show With Everyone On It" None
    = (pre ++ "...")%string /\
    (String.length pre <= 30)%nat /\ GeminiInput.trimEnd pre = pre.
Proof.
  split; [reflexivity|].
  destruct (X6_truncateName_shape "..." "The Morning Show With Everyone On It"
              None eq_refl)
    as [[H _]|[_ (pre & E & _ & Hlen & Htrim)]].
  - vm_compute in H. lia.
  - exists pre. repeat split; assumption.
Defined.

(** A tone with an apostrophe, followed by the rest of the statement. *)
Lemma X7_safeQuote_round_trip_witness :
  GeminiInput.read_sql_literal
    (GeminiInput.safeQuote "Rock 'n' Roll" ++ "'" ++ ", 120);")%string
  = Some ("Rock 'n' Roll", ", 120);")%string.
Proof.
  apply (X7_safeQuote_round_trip "Rock 'n' Roll" ", 120);"). reflexivity.
Defined.

Section PrepareFacts.

Import GeminiInput.

Local Open Scope string_scope.

Variable ellipsis : string.

Lemma or_default_field_ok (x dflt : string) :
  field_ok dflt -> field_ok (or_default (sanitize x) dflt).
Proof.
  intros Hd. unfold or_default.
  destruct (sanitize x) as [|c r] eqn:E; [exact Hd|].
  rewrite <- E. split; [rewrite E; discriminate|].
  split; [apply slice0_length | apply sanitize_clean].
Qed.

Lemma defaults_ok :
  field_ok "My Podcast" /\ field_ok "Generic Professional"
  /\ field_ok "Professional".
Proof.
  repeat split; try discriminate; cbn; lia.
Qed.

Lemma key_configured (key : string) :
  (match key with EmptyString => true | _ => false end)
  || String.eqb key "your_gemini_api_key_here" = false
  <-> key <> "" /\ key <> "your_gemini_api_key_here".
Proof.
  rewrite orb_false_iff, String.eqb_neq. destruct key; split;
    intros [H1 H2]; (split; [|exact H2]); congruence.
Qed.

Lemma safetyCheck_or_default (x dflt : string) :
  safetyCheck dflt = true ->
  safetyCheck (or_default (sanitize x) dflt) = safetyCheck (sanitize x).
Proof.
  intros Hd. unfold or_default.
  destruct (sanitize x) as [|c r]; [exact Hd | reflexivity].
Qed.

(** X8. When [generateJingle] gets as far as calling the model, what it
    sends has been checked: the API key is configured; the podcast name, the
    theme and the tone are each non-empty, at most 200 characters long, free
    of the stripped characters and accepted by the safety filter; and the
    name put in the prompt is a safe text of at most 30 characters, followed
    or not by the ellipsis. *)
Theorem X8_prepare_postconditions :
  forall (key : string) (input : GenerateJingleInput) (r : Prepared),
    prepare ellipsis key input = inr r ->
    (key <> "" /\ key <> "your_gemini_api_key_here") /\
    (field_ok (p_podcastName r) /\ safetyCheck (p_podcastName r) = true) /\
    (field_ok (p_theme r) /\ safetyCheck (p_theme r) = true) /\
    (field_ok (p_tone r) /\ safetyCheck (p_tone r) = true) /\
    exists pre,
      (p_voiceName r = pre \/ p_voiceName r = pre ++ ellipsis) /\
      (String.length pre <= 30)%nat /\
      is_substring pre (p_podcastName r) /\
      safetyCheck pre = true.
Proof.
  intros key input r H. unfold prepare in H.
  destruct (_ || String.eqb key _) eqn:Hkey; [discriminate|].
  apply key_configured in Hkey.
  set (n := or_default (sanitize (podcastName input)) "My Podcast") in *.
  set (t := or_default (sanitize (theme input)) "Generic Professional") in *.
  set (o := or_default (sanitize (tone input)) "Professional") in *.
  destruct (safetyCheck (n ++ " " ++ t ++ " " ++ o)) eqn:Hsafe;
    [|discriminate].
  cbn [negb] in H. injection H as <-. cbn [p_podcastName p_theme p_tone p_voiceName].
  rewrite !safetyCheck_joined in Hsafe.
  apply andb_true_iff in Hsafe as [Hn Hto].
  apply andb_true_iff in Hto as [Ht Ho].
  destruct defaults_ok as (D1 & D2 & D3).
  assert (Fn : field_ok n) by now apply or_default_field_ok.
  split; [exact Hkey|]. split; [now split|].
  split; [split; [now apply or_default_field_ok | exact Ht]|].
  split; [split; [now apply or_default_field_ok | exact Ho]|].
  assert (Hclean : is_substring (sanitize n) n).
  { apply sanitize_substring. apply Fn. }
  unfold truncateName. cbn [default].
  destruct (Nat.ltb_spec 30 (String.length (sanitize n))) as [Hlt|Hge].
  - exists (trimEnd (slice0 30 (sanitize n))).
    assert (Hsub : is_substring (trimEnd (slice0 30 (sanitize n))) n).
    { eapply is_substring_trans; [|exact Hclean].
      apply is_prefix_substring.
      eapply is_prefix_trans; [apply trimEnd_prefix | apply slice0_prefix]. }
    split; [now right|]. split; [|split; [exact Hsub|]].
    + pose proof (is_prefix_length _ _ (trimEnd_prefix (slice0 30 (sanitize n)))).
      pose proof (slice0_length 30 (sanitize n)). lia.
    + now apply (safetyCheck_substring _ n).
  - exists (sanitize n). split; [now left|]. split; [exact Hge|].
    split; [exact Hclean|]. now apply (safetyCheck_substring _ n).
Qed.

(** X9. [generateJingle] throws the key error whenever the API key is empty
    or still the placeholder, whatever the input.  With a key configured it
    throws SAFETY_VIOLATION exactly when a blocked term occurs in the
    sanitized podcast name, theme or tone, so a term that only appears once
    the stripped characters are gone is caught too; otherwise it goes on to
    call the model. *)
Theorem X9_prepare_refusals :
  forall (key : string) (input : GenerateJingleInput),
    (key = "" \/ key = "your_gemini_api_key_here" ->
     prepare ellipsis key input = inl ApiKeyNotConfigured) /\
    (key <> "" -> key <> "your_gemini_api_key_here" ->
     (prepare ellipsis key input = inl SAFETY_VIOLATION
      <-> safetyCheck (sanitize (podcastName input)) = false
          \/ safetyCheck (sanitize (theme input)) = false
          \/ safetyCheck (sanitize (tone input)) = false) /\
     (prepare ellipsis key input <> inl SAFETY_VIOLATION ->
      exists r, prepare ellipsis key input = inr r)).
Proof.
  intros key input. split.
  - intros [-> | ->]; reflexivity.
  - intros K1 K2. unfold prepare.
    rewrite (proj2 (key_configured key) (conj K1 K2)).
    rewrite !safetyCheck_joined, !safetyCheck_or_default by reflexivity.
    destruct (safetyCheck (sanitize (podcastName input))),
             (safetyCheck (sanitize (theme input))),
             (safetyCheck (sanitize (tone input))); cbn [andb negb];
      (split;
       [ split;
         [ first [discriminate | intros _; auto]
         | first [reflexivity | intros [H|[H|H]]; discriminate H] ]
       | first [ intros H; now elim H
               | intros _; eexists; reflexivity ] ]).
Qed.

End PrepareFacts.

(** A request that passes: the name is cut to thirty characters. *)
Lemma X8_prepare_postconditions_witness :
  exists r pre,
    GeminiInput.prepare "..." "key"
      {| GeminiInput.podcastName := "The Very Long Podcast Name About Everything";
         GeminiInput.theme := "  <Science>  ";
         GeminiInput.tone := "" |} = inr r /\
    GeminiInput.p_tone r = "Professional"%string /\
    (GeminiInput.p_voiceName r = pre
     \/ GeminiInput.p_voiceName r = (pre ++ "...")%string) /\
    (String.length pre <= 30)%nat.
Proof.
  eexists.
  destruct (X8_prepare_postconditions "..." "key"
              {| GeminiInput.podcastName :=
                   "The Very Long Podcast Name About Everything";
                 GeminiInput.theme := "  <Science>  ";
                 GeminiInput.tone := "" |} _ eq_refl)
    as (_ & _ & _ & _ & pre & Hv & Hl & _).
  exists pre. split; [reflexivity|]. split; [reflexivity|]. split; assumption.
Defined.

(** ** More on the style profile resolver *)

Section ResolverMoreFacts.

Import GeminiInput.

Local Open Scope string_scope.

Lemma keywords_no_space :
  List.Forall
    (fun g => List.Forall
                (fun kw => all_chars (fun k => negb (Ascii.eqb " " k)) kw = true)
                (fst g))
    keyword_groups.
Proof. repeat constructor. Qed.

Lemma group_matches_labels (style tn : string) (g : list string * StyleProfile) :
  In g keyword_groups ->
  group_matches (toLowerCase (style ++ " " ++ tn)) g
  = group_matches (toLowerCase style) g || group_matches (toLowerCase tn) g.
Proof.
  intros Hg. unfold group_matches. apply existsb_orb.
  pose proof keywords_no_space as H. rewrite List.Forall_forall in H.
  eapply List.Forall_impl; [|exact (H g Hg)].
  intros kw Hkw. now apply includes_space_joined.
Qed.

Lemma find_ext_in {A : Type} (f g : A -> bool) (l : list A) :
  (forall x, In x l -> f x = g x) -> find f l = find g l.
Proof.
  induction l as [|x l IH]; intros H; [reflexivity|].
  cbn [find]. rewrite (H x) by now left.
  destruct (g x); [reflexivity|]. apply IH. intros y Hy. apply H. now right.
Qed.

(** X10. A keyword matches a pair of labels exactly when it occurs in the
    style or in the tone: no keyword contains a space, so none is ever read
    across the two labels.  The resolver therefore does not tell the style
    from the tone: exchanging them gives the same profile. *)
Theorem X10_resolver_labels_interchangeable :
  forall style tn : string,
    (forall g, In g keyword_groups ->
       group_matches (toLowerCase (style ++ " " ++ tn)) g
       = group_matches (toLowerCase style) g
         || group_matches (toLowerCase tn) g) /\
    getStyleProfile style tn = getStyleProfile tn style.
Proof.
  intros style tn. split; [intros g; apply group_matches_labels|].
  rewrite !getStyleProfile_first_match. unfold resolve_first_match.
  rewrite (find_ext_in
             (group_matches (toLowerCase (style ++ " " ++ tn)))
             (group_matches (toLowerCase (tn ++ " " ++ style)))
             keyword_groups); [reflexivity|].
  intros g Hg. rewrite !group_matches_labels by exact Hg. apply orb_comm.
Qed.

Lemma dark_keyword_wins (style tn kw : string) :
  In kw ["dark"; "crime"; "serious"] ->
  occurs_ignoring_case kw style \/ occurs_ignoring_case kw tn ->
  getStyleProfile style tn = dark_profile.
Proof.
  intros Hkw Hocc. rewrite getStyleProfile_first_match.
  assert (Hm : group_matches (toLowerCase (style ++ " " ++ tn))
                 (["dark"; "crime"; "serious"], dark_profile) = true).
  { rewrite group_matches_labels by (now left).
    unfold group_matches. cbn [fst]. apply orb_true_iff.
    destruct Hocc as [H|H]; [left | right];
      apply existsb_exists; exists kw; (split; [exact Hkw|]);
      now apply includes_ignoring_case. }
  unfold resolve_first_match, keyword_groups. cbn [find]. now rewrite Hm.
Qed.

(** X11. The first group has priority over everything else in the labels:
    when "dark", "crime" or "serious" occurs, in any letter case, in the
    style or in the tone, the dark profile is returned whatever else the
    labels contain.  And the default profile is returned only when none of
    the twelve keywords occurs in either label. *)
Theorem X11_resolver_priority :
  forall style tn : string,
    ((exists kw, In kw ["dark"; "crime"; "serious"] /\
                 (occurs_ignoring_case kw style \/ occurs_ignoring_case kw tn)) ->
     getStyleProfile style tn = dark_profile) /\
    (getStyleProfile style tn = default_profile ->
     forall g kw, In g keyword_groups -> In kw (fst g) ->
       ~ occurs_ignoring_case kw style /\ ~ occurs_ignoring_case kw tn).
Proof.
  intros style tn. split.
  - intros (kw & Hkw & Hocc). now apply (dark_keyword_wins style tn kw).
  - rewrite getStyleProfile_first_match. intros Hdef g kw Hg Hkw.
    assert (Hnone : group_matches (toLowerCase (style ++ " " ++ tn)) g = false).
    { unfold resolve_first_match in Hdef.
      destruct (find _ keyword_groups) as [g'|] eqn:E.
      - apply find_some in E as [Hin _]. exfalso.
        unfold keyword_groups in Hin. cbn [In] in Hin.
        destruct Hin as [<-|[<-|[<-|[<-|[]]]]]; discriminate Hdef.
      - now apply (find_none _ _ E). }
    rewrite group_matches_labels in Hnone by exact Hg.
    apply orb_false_iff in Hnone as [Hs Ht]. unfold group_matches in Hs, Ht.
    split; intros Hocc; apply includes_ignoring_case in Hocc.
    + assert (existsb (includes (toLowerCase style)) (fst g) = true)
        by (apply existsb_exists; now exists kw).
      congruence.
    + assert (existsb (includes (toLowerCase tn)) (fst g) = true)
        by (apply existsb_exists; now exists kw).
      congruence.
Qed.

End ResolverMoreFacts.

(** ** Times, durations and numbers of the scheduled events *)

Section ShapeFacts.

Import VoiceGraph.

Variable rnd : N -> Q.





















End ShapeFacts.



(** ** Tempos outside the expected range *)

Section AnyTempoFacts.

Import VoiceGraph.

Variable rnd : N -> Q.




End AnyTempoFacts.


(** ** More on the session lifecycle *)

Section LifecycleMoreFacts.

Import SessionState.

Variable rnd : N -> Q.

Lemma active_is_open_play p w w' :
  playJingle rnd p w = Some w' -> active_is_open w'.
Proof.
  intros Hplay a Ha.
  destruct (playJingle_session rnd p w w' Hplay)
    as (n & c & _ & _ & Hc & Hact & Hst & _).
  destruct (stopAudio_frame w) as (_ & _ & _ & Hlen & _).
  rewrite Hact in Ha. injection Ha as <-.
  unfold is_running. rewrite Hc, <- Hlen, list_lookup_middle by reflexivity.
  now rewrite Hst.
Qed.

Lemma active_is_open_step e w w' :
  active_is_open w -> step rnd e w = Some w' -> active_is_open w'.
Proof.
  intros Hw Hstep. destruct e as [p| |i elapsed]; cbn [step] in Hstep.
  - eapply active_is_open_play; eassumption.
  - injection Hstep as <-. intros a Ha.
    rewrite (proj2 (proj2 (proj2 (proj2 (stopAudio_frame w))))) in Ha.
    discriminate.
  - destruct (timers w !! i) as [[c d|c total]|]; [| |discriminate];
      injection Hstep as <-.
    + unfold on_timeout.
      destruct (decide (activeCtx (clear_timer i w) = Some c)); [|exact Hw].
      intros a Ha. discriminate.
    + unfold on_interval. destruct (activeCtx w) as [a|] eqn:Ha.
      * destruct (contexts w !! a) as [[[] ? ? ? ?]|];
          try destruct (ge elapsed total);
          intros b Hb; cbn [activeCtx clear_timer] in Hb;
          unfold is_running; cbn [contexts clear_timer];
          apply (Hw b); congruence.
      * intros b Hb. cbn [activeCtx clear_timer] in Hb. congruence.
Qed.

Lemma active_is_open_run es w w' :
  active_is_open w -> run rnd es w = Some w' -> active_is_open w'.
Proof.
  revert w. induction es as [|e es IH]; intros w Hw Hrun; cbn [run] in Hrun.
  - now injection Hrun as <-.
  - destruct (step rnd e w) as [w1|] eqn:E; [|discriminate].
    eapply IH; [|exact Hrun]. eapply active_is_open_step; eassumption.
Qed.

Lemma filter_only (f : nat -> bool) (a n : nat) :
  (a < n)%nat -> (forall i, f i = true <-> i = a) ->
  List.filter f (seq 0 n) = [a].
Proof.
  intros Ha Hf.
  assert (Hsplit : seq 0 n = seq 0 a ++ a :: seq (S a) (n - S a)).
  { replace n with (a + (1 + (n - S a)))%nat at 1 by lia.
    rewrite seq_app. cbn [seq Nat.add]. reflexivity. }
  rewrite Hsplit, List.filter_app. cbn [List.filter].
  rewrite (proj2 (Hf a) eq_refl).
  rewrite !filter_none; [reflexivity| |].
  - intros i Hi. apply in_seq in Hi. apply not_true_iff_false.
    intros H. apply Hf in H. lia.
  - intros i Hi. apply in_seq in Hi. apply not_true_iff_false.
    intros H. apply Hf in H. lia.
Qed.

(** X16. After any series of calls and timer callbacks, the open contexts
    are exactly the one [activeCtx] refers to: when it is set, that context
    exists and is open and is the only open one; when it is null, every
    context is closed.  So [close()] is never called on a context that is
    already closed. *)
Theorem X16_open_context_is_the_active_one :
  forall (rate cur : N) (es : list Event) (w : World),
    run rnd es (initial rate cur) = Some w ->
    running_contexts w
    = match activeCtx w with Some a => [a] | None => [] end /\
    (forall a, activeCtx w = Some a -> (a < length (contexts w))%nat).
Proof.
  intros rate cur es w Hrun.
  assert (Hs : single_session w).
  { eapply single_session_run; [apply single_session_initial | exact Hrun]. }
  assert (Ho : active_is_open w).
  { eapply active_is_open_run; [|exact Hrun]. intros a Ha. discriminate. }
  assert (Hlt : forall a, activeCtx w = Some a -> (a < length (contexts w))%nat).
  { intros a Ha. specialize (Ho a Ha). unfold is_running in Ho.
    destruct (contexts w !! a) eqn:E; [|discriminate].
    apply lookup_lt_Some in E. exact E. }
  split; [|exact Hlt]. unfold running_contexts.
  destruct (activeCtx w) as [a|] eqn:Ha.
  - apply filter_only; [now apply Hlt|]. intros i. split.
    + intros Hi. specialize (Hs i Hi). congruence.
    + intros ->. now apply Ho.
  - apply filter_none. intros i _. apply not_true_iff_false.
    intros Hi. specialize (Hs i Hi). congruence.
Qed.

Lemma closed_stays_closed_alter (cs : list AudioContext) (a i : nat) :
  match cs !! i with
  | Some c => match state c with running => true | closed => false end
  | None => false
  end = false ->
  match alter close a cs !! i with
  | Some c => match state c with running => true | closed => false end
  | None => false
  end = false.
Proof.
  intros H. destruct (decide (a = i)) as [->|Hne].
  - rewrite list_lookup_alter_eq. destruct (cs !! i); reflexivity.
  - now rewrite list_lookup_alter_ne.
Qed.

Lemma closed_stays_closed_stop w i :
  is_running w i = false -> is_running (stopAudio w) i = false.
Proof.
  intros H. unfold stopAudio. destruct (activeCtx w); [|exact H].
  unfold is_running in *. cbn [contexts]. now apply closed_stays_closed_alter.
Qed.

Lemma history_kept_step e w w' :
  step rnd e w = Some w' ->
  (length (contexts w) <= length (contexts w'))%nat /\
  forall i, (i < length (contexts w))%nat ->
            is_running w i = false -> is_running w' i = false.
Proof.
  intros Hstep. destruct e as [p| |i elapsed]; cbn [step] in Hstep.
  - destruct (playJingle_session rnd p w w' Hstep)
      as (n & c & _ & _ & Hc & _).
    destruct (stopAudio_frame w) as (_ & _ & _ & Hlen & _).
    split; [rewrite Hc, length_app; cbn; lia|].
    intros j Hj Hclosed. unfold is_running. rewrite Hc, lookup_app_l by lia.
    now apply closed_stays_closed_stop.
  - injection Hstep as <-.
    destruct (stopAudio_frame w) as (_ & _ & _ & Hlen & _).
    split; [lia|]. intros j _. apply closed_stays_closed_stop.
  - destruct (timers w !! i) as [[c d|c total]|]; [| |discriminate];
      injection Hstep as <-.
    + unfold on_timeout.
      destruct (decide (activeCtx (clear_timer i w) = Some c)).
      * cbn [contexts clear_timer]. rewrite length_alter. split; [lia|].
        intros j _ H. unfold is_running in *. cbn [contexts].
        now apply closed_stays_closed_alter.
      * split; [cbn; lia | intros j _ H; exact H].
    + unfold on_interval. destruct (activeCtx w) as [a|].
      * destruct (contexts w !! a) as [[[] ? ? ? ?]|];
          try destruct (ge elapsed total);
          (split; [cbn; lia | intros j _ H; exact H]).
      * split; [cbn; lia | intros j _ H; exact H].
Qed.

(** X17. Contexts are never removed and never reopened: along any series of
    calls and timer callbacks, from any state, the list of contexts only
    grows, and a context that is closed stays closed. *)
Theorem X17_closed_contexts_stay_closed :
  forall (es : list Event) (w w' : World),
    run rnd es w = Some w' ->
    (length (contexts w) <= length (contexts w'))%nat /\
    forall i, (i < length (contexts w))%nat ->
              is_running w i = false -> is_running w' i = false.
Proof.
  intros es. induction es as [|e es IH]; intros w w' Hrun; cbn [run] in Hrun.
  - injection Hrun as <-. split; [lia | auto].
  - destruct (step rnd e w) as [w1|] eqn:E; [|discriminate].
    destruct (history_kept_step e w w1 E) as [Hlen Hkeep].
    destruct (IH w1 w' Hrun) as [Hlen' Hkeep'].
    split; [lia|]. intros i Hi Hclosed.
    apply Hkeep'; [lia|]. now apply Hkeep.
Qed.

(** X18. Once the audio is stopped, the timers left over by earlier sessions
    are harmless: however they fire, no context and no [activeCtx] is
    touched, and every firing removes one timer, so that after as many
    firings as there were timers none is left. *)
Theorem X18_timers_drain_after_stop :
  forall (es : list Event) (w w' : World),
    forallb is_fire es = true ->
    run rnd es (stopAudio w) = Some w' ->
    contexts w' = contexts (stopAudio w) /\
    activeCtx w' = None /\
    (length (timers w') + length es = length (timers w))%nat.
Proof.
  intros es w w' Hfire Hrun.
  destruct (stopAudio_frame w) as (Ht & _ & _ & _ & Ha).
  rewrite <- Ht. revert Hrun Ha. generalize (stopAudio w). clear Ht w.
  induction es as [|e es IH]; intros w Hrun Ha; cbn [run] in Hrun.
  - injection Hrun as <-. cbn. repeat split; auto.
  - cbn [forallb] in Hfire. apply andb_true_iff in Hfire as [He Hes].
    destruct e as [p| |i elapsed]; try discriminate. cbn [step] in Hrun.
    destruct (timers w !! i) as [t|] eqn:Et; [|discriminate].
    assert (Hstep : match t with
                    | Timeout c _ => on_timeout c (clear_timer i w)
                    | Interval _ total => on_interval i total elapsed w
                    end = clear_timer i w).
    { destruct t as [c d|c total].
      - unfold on_timeout. cbn [activeCtx clear_timer]. rewrite Ha.
        destruct (decide (None = Some c)); [discriminate | reflexivity].
      - unfold on_interval. now rewrite Ha. }
    assert (Hrun' : run rnd es (clear_timer i w) = Some w').
    { destruct t; rewrite <- Hstep; exact Hrun. }
    destruct (IH Hes (clear_timer i w) Hrun' Ha) as (Hc & Hact & Hlen).
    split; [exact Hc|]. split; [exact Hact|].
    cbn [timers clear_timer length] in *.
    rewrite length_delete in Hlen by (now exists t).
    apply lookup_lt_Some in Et. lia.
Qed.

End LifecycleMoreFacts.

(** Two sessions and a stop: no context is left open. *)
Lemma X16_open_context_is_the_active_one_witness :
  exists w,
    run (fun _ => 1 # 2)
      [ Play {| bpm := Fin 120; musicalStyle := "Pop"; tone := "Upbeat";
                durationSeconds := Some (Fin 2); onTimeUpdate := true |};
        Play {| bpm := Fin 90; musicalStyle := "Jazz"; tone := "Calm";
                durationSeconds := Some (Fin 3); onTimeUpdate := false |};
        Stop ]
      (initial 44100 0) = Some w /\
    running_contexts w = match activeCtx w with Some a => [a] | None => [] end.
Proof.
  eexists. split; [vm_compute; reflexivity|].
  refine (proj1 (X16_open_context_is_the_active_one (fun _ => 1 # 2) 44100 0
                   [ Play {| bpm := Fin 120; musicalStyle := "Pop";
                             tone := "Upbeat";
                             durationSeconds := Some (Fin 2);
                             onTimeUpdate := true |};
                     Play {| bpm := Fin 90; musicalStyle := "Jazz";
                             tone := "Calm";
                             durationSeconds := Some (Fin 3);
                             onTimeUpdate := false |};
                     Stop ] _ _)).
  vm_compute. reflexivity.
Defined.

(** A session superseded by another: the first context stays in the list. *)
Lemma X17_closed_contexts_stay_closed_witness :
  exists w',
    run (fun _ => 1 # 2)
      [ Play {| bpm := Fin 120; musicalStyle := "Pop"; tone := "Upbeat";
                durationSeconds := Some (Fin 2); onTimeUpdate := false |};
        Play {| bpm := Fin 90; musicalStyle := "Jazz"; tone := "Calm";
                durationSeconds := Some (Fin 3); onTimeUpdate := false |} ]
      (initial 44100 0) = Some w' /\
    (length (contexts (initial 44100 0)) <= length (contexts w'))%nat.
Proof.
  eexists. split; [vm_compute; reflexivity|].
  refine (proj1 (X17_closed_contexts_stay_closed (fun _ => 1 # 2)
                   [ Play {| bpm := Fin 120; musicalStyle := "Pop";
                             tone := "Upbeat";
                             durationSeconds := Some (Fin 2);
                             onTimeUpdate := false |};
                     Play {| bpm := Fin 90; musicalStyle := "Jazz";
                             tone := "Calm";
                             durationSeconds := Some (Fin 3);
                             onTimeUpdate := false |} ]
                   (initial 44100 0) _ _)).
  vm_compute. reflexivity.
Defined.

(** A session with a progress callback is stopped, then its two timers fire,
    the end-of-session timer first. *)
Lemma X18_timers_drain_after_stop_witness :
  exists w w',
    run (fun _ => 1 # 2)
      [ Play {| bpm := Fin 120; musicalStyle := "Pop"; tone := "Upbeat";
                durationSeconds := Some (Fin 2); onTimeUpdate := true |} ]
      (initial 44100 0) = Some w /\
    run (fun _ => 1 # 2) [Fire 1 (Fin 2.2); Fire 0 (Fin 2.3)] (stopAudio w)
    = Some w' /\
    contexts w' = contexts (stopAudio w) /\
    activeCtx w' = None /\
    (length (timers w') + 2 = length (timers w))%nat.
Proof.
  eexists. eexists. split; [vm_compute; reflexivity|].
  split; [vm_compute; reflexivity|].
  match goal with
  | |- contexts ?w' = contexts (stopAudio ?w) /\ _ =>
      exact (X18_timers_drain_after_stop (fun _ => 1 # 2)
               [Fire 1 (Fin 2.2); Fire 0 (Fin 2.3)] w w' eq_refl
               ltac:(vm_compute; reflexivity))
  end.
Defined.

(** ** The tone chips *)

Section ToneFacts.

Import Page.

Lemma includes_tone (tone : string) (prev : list string) :
  existsb (String.eqb tone) prev = true <-> In tone prev.
Proof.
  rewrite existsb_exists. split.
  - intros (x & Hx & E). apply String.eqb_eq in E. now subst.
  - intros H. exists tone. split; [exact H | apply String.eqb_refl].
Qed.

Lemma in_firstn {A : Type} (n : nat) (l : list A) (x : A) :
  In x (firstn n l) -> In x l.
Proof.
  intros H. rewrite <- (firstn_skipn n l). apply in_or_app. now left.
Qed.

Lemma NoDup_firstn_of {A : Type} (n : nat) (l : list A) :
  List.NoDup l -> List.NoDup (firstn n l).
Proof.
  intros H. rewrite <- (firstn_skipn n l) in H.
  now apply List.NoDup_app_remove_r in H.
Qed.

Lemma NoDup_snoc {A : Type} (l : list A) (x : A) :
  List.NoDup l -> ~ In x l -> List.NoDup (l ++ [x]).
Proof.
  intros Hl Hx. induction l as [|y l IH]; cbn.
  - constructor; [intros [] | constructor].
  - apply List.NoDup_cons_iff in Hl as [Hy Hl]. constructor.
    + intros Hin. apply in_app_or in Hin as [Hin|[->|[]]]; [now apply Hy|].
      apply Hx. now left.
    + apply IH; [exact Hl|]. intros Hin. apply Hx. now right.
Qed.

Lemma filter_absent (tone : string) (l : list string) :
  ~ In tone l -> List.filter (fun t => negb (String.eqb t tone)) l = l.
Proof.
  induction l as [|x l IH]; intros H; [reflexivity|].
  cbn [List.filter]. destruct (String.eqb_spec x tone) as [->|Hne].
  - exfalso. apply H. now left.
  - cbn [negb]. rewrite IH; [reflexivity|]. intros Hin. apply H. now right.
Qed.

(** What one click keeps true of a selection. *)
Lemma toggleTone_keeps (tone : string) (prev clicked : list string) :
  (length prev <= 4)%nat -> List.NoDup prev ->
  (forall t, In t prev -> In t clicked) ->
  (length (toggleTone tone prev) <= 4)%nat /\
  List.NoDup (toggleTone tone prev) /\
  (forall t, In t (toggleTone tone prev) -> In t (clicked ++ [tone])).
Proof.
  intros Hlen Hnd Hsub. unfold toggleTone.
  destruct (existsb (String.eqb tone) prev) eqn:E.
  - split; [|split].
    + pose proof (List.filter_length_le
                    (fun t => negb (String.eqb t tone)) prev). lia.
    + now apply List.NoDup_filter.
    + intros t Ht. apply List.filter_In in Ht as [Ht _].
      apply in_or_app. left. now apply Hsub.
  - assert (Hnot : ~ In tone prev).
    { intros H. apply includes_tone in H. congruence. }
    split; [|split].
    + rewrite length_firstn. lia.
    + apply NoDup_firstn_of. now apply NoDup_snoc.
    + intros t Ht. apply in_firstn in Ht. apply in_app_or in Ht as [Ht|Ht];
        apply in_or_app; [left; now apply Hsub | now right].
Qed.

Lemma clicks_snoc (tones : list string) (tone : string) :
  clicks (tones ++ [tone]) = toggleTone tone (clicks tones).
Proof. unfold clicks. now rewrite fold_left_app. Qed.

(** X19. Whatever chips are clicked, in whatever order and however often,
    the selection never holds more than four tones, never holds a tone
    twice, and holds only tones that were clicked. *)
Theorem X19_tone_selection_invariant :
  forall tones : list string,
    (length (clicks tones) <= 4)%nat /\
    List.NoDup (clicks tones) /\
    (forall t, In t (clicks tones) -> In t tones).
Proof.
  intros tones. induction tones as [|tone tones IH] using rev_ind.
  - cbn. split; [lia|]. split; [constructor | auto].
  - destruct IH as (Hlen & Hnd & Hsub). rewrite clicks_snoc.
    now apply toggleTone_keeps.
Qed.

(** X20. A click on a tone that is not selected adds it at the end when
    fewer than four tones are selected, and a second click then restores the
    selection; with four tones selected the click is ignored.  A click on a
    selected tone removes it and keeps the others in their order. *)
Theorem X20_toggleTone_cases :
  forall (tone : string) (prev : list string),
    (~ In tone prev -> (length prev < 4)%nat ->
     toggleTone tone prev = prev ++ [tone] /\
     toggleTone tone (toggleTone tone prev) = prev) /\
    (~ In tone prev -> length prev = 4%nat -> toggleTone tone prev = prev) /\
    (In tone prev ->
     ~ In tone (toggleTone tone prev) /\
     toggleTone tone prev = List.filter (fun t => negb (String.eqb t tone)) prev).
Proof.
  intros tone prev.
  assert (Hadd : ~ In tone prev ->
                 toggleTone tone prev = firstn 4 (prev ++ [tone])).
  { intros H. unfold toggleTone.
    destruct (existsb (String.eqb tone) prev) eqn:E; [|reflexivity].
    apply includes_tone in E. contradiction. }
  split; [|split].
  - intros Hnot Hlen. rewrite (Hadd Hnot).
    assert (E : firstn 4 (prev ++ [tone]) = prev ++ [tone]).
    { apply firstn_all2. rewrite length_app. cbn. lia. }
    rewrite E. split; [reflexivity|]. unfold toggleTone.
    replace (existsb (String.eqb tone) (prev ++ [tone])) with true.
    + rewrite List.filter_app. cbn [List.filter].
      rewrite String.eqb_refl. cbn [negb].
      rewrite filter_absent by exact Hnot. apply app_nil_r.
    + symmetry. apply includes_tone. apply in_or_app. right. now left.
  - intros Hnot Hlen. rewrite (Hadd Hnot).
    rewrite firstn_app, Hlen. cbn [Nat.sub firstn].
    rewrite app_nil_r. apply firstn_all2. lia.
  - intros Hin. unfold toggleTone.
    rewrite (proj2 (includes_tone tone prev) Hin). split; [|reflexivity].
    intros H. apply List.filter_In in H as [_ H].
    rewrite String.eqb_refl in H. discriminate.
Qed.

End ToneFacts.

(** ** From the tone chips to the profile of the jingle *)

Section ToneToProfileFacts.

Import Page GeminiInput.

Local Open Scope string_scope.

Variable ellipsis : string.

Lemma all_chars_app p (a b : string) :
  all_chars p (a ++ b) = all_chars p a && all_chars p b.
Proof.
  induction a as [|c a IH]; cbn [append all_chars]; [reflexivity|].
  now rewrite IH, andb_assoc.
Qed.

Lemma length_string_app (a b : string) :
  String.length (a ++ b) = (String.length a + String.length b)%nat.
Proof. induction a as [|c a IH]; cbn; [reflexivity | now rewrite IH]. Qed.

Lemma trimEnd_app (x y : string) :
  trimEnd y <> "" -> trimEnd (x ++ y) = x ++ trimEnd y.
Proof.
  intros Hy. induction x as [|c x IH]; [reflexivity|].
  cbn [append]. rewrite trimEnd_cons, IH.
  destruct (x ++ trimEnd y) as [|d r] eqn:E; [|reflexivity].
  destruct x; [|discriminate]. cbn in E. contradiction.
Qed.

Lemma TONES_plain x : In x TONES -> plain_word x.
Proof.
  unfold TONES. cbn [In].
  intros [<-|[<-|[<-|[<-|[<-|[<-|[<-|[<-|[<-|[<-|[]]]]]]]]]]];
    (split; [discriminate|]); (split; [cbn; lia|]);
    repeat split; reflexivity.
Qed.

Lemma join_cons (x y : string) (l : list string) :
  join ", " (x :: y :: l) = x ++ ", " ++ join ", " (y :: l).
Proof. reflexivity. Qed.

Lemma join_plain (l : list string) :
  l <> [] -> (forall x, In x l -> plain_word x) ->
  join ", " l <> "" /\
  (String.length (join ", " l) <= 15 * length l)%nat /\
  all_chars (fun c => negb (dangerous c)) (join ", " l) = true /\
  no_leading_space (join ", " l) = true /\
  trimEnd (join ", " l) = join ", " l.
Proof.
  induction l as [|x [|y l] IH]; intros Hne Hall; [congruence| |].
  - destruct (Hall x (or_introl eq_refl)) as (H1 & H2 & H3 & H4 & H5).
    cbn [join length]. repeat split; try assumption. lia.
  - destruct (Hall x (or_introl eq_refl)) as (H1 & H2 & H3 & H4 & H5).
    destruct IH as (I1 & I2 & I3 & I4 & I5);
      [discriminate | intros z Hz; apply Hall; now right |].
    rewrite join_cons. split; [|split; [|split; [|split]]].
    + destruct x; [congruence | discriminate].
    + rewrite !length_string_app. cbn [String.length length] in *. lia.
    + rewrite !all_chars_app, H3, I3. reflexivity.
    + destruct x; [congruence | exact H4].
    + rewrite <- !string_app_assoc.
      rewrite trimEnd_app; [now rewrite I5 | now rewrite I5].
Qed.

Lemma join_substring (x : string) (l : list string) :
  In x l -> is_substring x (join ", " l).
Proof.
  induction l as [|y [|z l] IH]; intros Hin; [destruct Hin| |].
  - destruct Hin as [->|[]]. exists "", "". cbn. now rewrite string_app_nil_r.
  - rewrite join_cons. destruct Hin as [->|Hin].
    + now exists "", (", " ++ join ", " (z :: l)).
    + destruct (IH Hin) as (a & b & E). rewrite E.
      exists (y ++ ", " ++ a), b. now rewrite !string_app_assoc.
Qed.

(** A selection of the page's tones passes through [sanitize] unchanged. *)
Lemma sanitize_selection (sel : list string) :
  sel <> [] -> (length sel <= 4)%nat -> (forall x, In x sel -> In x TONES) ->
  sanitize (join ", " sel) = join ", " sel.
Proof.
  intros Hne Hlen Hsub.
  destruct (join_plain sel Hne (fun x Hx => TONES_plain x (Hsub x Hx)))
    as (J1 & J2 & J3 & J4 & J5).
  unfold sanitize, trim.
  rewrite (strip_clean _ J3), (trimStart_fixed _ J4), J5.
  apply slice0_short. lia.
Qed.

(** X21. From the chips to the sound.  When the tones clicked on the page
    leave "Dark" or "Serious" in the selection, and [generateJingle] gets
    past its checks, the tone it returns is the selection joined by commas,
    unchanged, and [playJingle] called with that tone uses the dark profile,
    whatever musical style the model has returned. *)
Theorem X21_dark_tone_gives_dark_profile :
  forall (clicked : list string) (key name thm style : string) (r : Prepared),
    (forall x, In x clicked -> In x TONES) ->
    In "Dark" (clicks clicked) \/ In "Serious" (clicks clicked) ->
    prepare ellipsis key
      {| podcastName := name; theme := thm;
         tone := effectiveTone (clicks clicked) |} = inr r ->
    p_tone r = join ", " (clicks clicked) /\
    getStyleProfile style (p_tone r) = dark_profile.
Proof.
  intros clicked key name thm style r Hchips Hsel Hprep.
  set (sel := clicks clicked) in *.
  assert (Hne : sel <> []) by (destruct Hsel as [H|H]; intros E; now rewrite E in H).
  assert (Hinv : (length sel <= 4)%nat /\ List.NoDup sel
                 /\ forall t, In t sel -> In t clicked).
  { clear Hprep Hsel Hne Hchips. subst sel.
    induction clicked as [|t clicked IH] using rev_ind.
    - cbn. split; [lia|]. split; [constructor | auto].
    - destruct IH as (Hlen & Hnd & Hsub). rewrite clicks_snoc.
      now apply toggleTone_keeps. }
  destruct Hinv as (Hlen & _ & Hin).
  assert (Hsub : forall x, In x sel -> In x TONES)
    by (intros x Hx; now apply Hchips, Hin).
  assert (Htone : p_tone r = join ", " sel).
  { unfold prepare in Hprep.
    destruct (_ || String.eqb key _); [discriminate|].
    destruct (negb _); [discriminate|]. injection Hprep as <-.
    cbn [p_tone GeminiInput.tone].
    replace (effectiveTone sel) with (join ", " sel)
      by (unfold effectiveTone; destruct sel; [congruence | reflexivity]).
    rewrite (sanitize_selection sel Hne Hlen Hsub).
    destruct (join_plain sel Hne (fun x Hx => TONES_plain x (Hsub x Hx)))
      as (J1 & _).
    unfold or_default. destruct (join ", " sel); [congruence | reflexivity]. }
  split; [exact Htone|]. rewrite Htone.
  destruct Hsel as [H|H]; apply join_substring in H as (a & b & E).
  - apply (dark_keyword_wins style _ "dark"); [now left|].
    right. exists a, "Dark", b. now split.
  - apply (dark_keyword_wins style _ "serious"); [right; right; now left|].
    right. exists a, "Serious", b. now split.
Qed.

End ToneToProfileFacts.

(** Three chips clicked, one of them twice. *)
Lemma X21_dark_tone_gives_dark_profile_witness :
  exists r,
    GeminiInput.prepare "..." "key"
      {| GeminiInput.podcastName := "Night Owls";
         GeminiInput.theme := "True Crime";
         GeminiInput.tone :=
           Page.effectiveTone
             (Page.clicks ["Calm"; "Dark"; "Calm"; "Playful"]%string) |}
    = inr r /\
    GeminiInput.p_tone r = "Dark, Playful"%string /\
    getStyleProfile "Smooth Jazz" (GeminiInput.p_tone r) = dark_profile.
Proof.
  eexists. split; [reflexivity|].
  refine ((fun H => conj (proj1 H) (proj2 H))
            (X21_dark_tone_gives_dark_profile "..."
               ["Calm"; "Dark"; "Calm"; "Playful"]%string "key" "Night Owls"
               "True Crime" "Smooth Jazz" _ _ _ eq_refl)).
  - intros x Hx. cbn [In] in Hx. unfold Page.TONES. cbn [In].
    destruct Hx as [<-|[<-|[<-|[<-|[]]]]]; tauto.
  - left. cbn. now left.
Defined.

(** ** More on the waveform preview *)

Section WaveformMoreFacts.

Import VoiceGraph.

Variable sinQ : Q -> Q.
Variable rnd : N -> Q.

Lemma signed_inf_not_finite q : not_finite (signed_inf q).
Proof.
  unfold signed_inf. destruct (Qltb 0 q); [exact I|].
  destruct (Qltb q 0); exact I.
Qed.

Lemma div_60_not_finite x : not_finite x -> not_finite (div x (Fin 60)).
Proof. destruct x; cbn; intros H; try exact I. contradiction. Qed.

Lemma waveformSample_NaN (bpm : num) (n i : nat) (k : N) :
  not_finite bpm -> (i < n)%nat -> waveformSample sinQ rnd bpm n i k = NaN.
Proof.
  intros Hb Hi. unfold waveformSample, Math_PI, of_nat.
  rewrite div_finite by (apply of_nat_nonzero; lia).
  apply div_60_not_finite in Hb.
  destruct (div bpm (Fin 60)) as [y| | |]; [contradiction|..]; cbn [mul].
  - pose proof (signed_inf_not_finite
                  (inject_Z (Z.of_nat i) / inject_Z (Z.of_nat n)
                   * 3.141592653589793 * 2)) as Hs.
    destruct (signed_inf _); [contradiction|reflexivity..].
  - pose proof (signed_inf_not_finite
                  (- (inject_Z (Z.of_nat i) / inject_Z (Z.of_nat n)
                      * 3.141592653589793 * 2))) as Hs.
    destruct (signed_inf _); [contradiction|reflexivity..].
  - reflexivity.
Qed.

(** X22. The clamp of the preview does not catch a tempo that is not a
    finite number: with [NaN] or an infinite tempo every one of the [n]
    values returned is [NaN], not a height between 0.08 and 1. *)
Theorem X22_waveform_not_finite_tempo :
  forall (bpm : num) (n : nat) (k : N),
    not_finite bpm ->
    fst (generateWaveformData sinQ rnd bpm (Some n) k) = repeat NaN n.
Proof.
  intros bpm n k Hb. unfold generateWaveformData. cbn [default].
  change (id n) with n. rewrite generateWaveformData_loop. cbn [fst].
  apply nth_ext with (d := NaN) (d' := NaN).
  - now rewrite length_map, length_seq, repeat_length.
  - intros i Hi. rewrite length_map, length_seq in Hi.
    rewrite nth_repeat.
    rewrite (nth_indep _ NaN (waveformSample sinQ rnd bpm n 0 (k + N.of_nat 0)))
      by now rewrite length_map, length_seq.
    rewrite (map_nth (fun j => waveformSample sinQ rnd bpm n j (k + N.of_nat j))),
      seq_nth by exact Hi.
    now apply waveformSample_NaN.
Qed.

(** X23. The preview reads one random draw for each value, in order: the
    value of index [i] uses the draw at the cursor plus [i], and the cursor
    ends [n] draws further.  With the count omitted [n] is 32, every value
    being between 0.08 and 1 for a finite tempo; with the count 0 the array
    is empty and no draw is read. *)
Theorem X23_waveform_draws_and_default :
  forall (bpm : Q) (bars : option nat) (k : N),
    let n := default 32%nat bars in
    generateWaveformData sinQ rnd (Fin bpm) bars k
    = (map (fun i => waveformSample sinQ rnd (Fin bpm) n i (k + N.of_nat i))
           (seq 0 n),
       (k + N.of_nat n)%N) /\
    (bars = None ->
     length (fst (generateWaveformData sinQ rnd (Fin bpm) bars k)) = 32%nat /\
     List.Forall (fun v => exists q, v = Fin q /\ 0.08 <= q <= 1)
       (fst (generateWaveformData sinQ rnd (Fin bpm) bars k))) /\
    (bars = Some 0%nat ->
     generateWaveformData sinQ rnd (Fin bpm) bars k = ([], k)).
Proof.
  intros bpm bars k n.
  assert (E : generateWaveformData sinQ rnd (Fin bpm) bars k
              = (map (fun i => waveformSample sinQ rnd (Fin bpm) n i
                                 (k + N.of_nat i)) (seq 0 n),
                 (k + N.of_nat n)%N)).
  { unfold generateWaveformData. fold n. apply generateWaveformData_loop. }
  split; [exact E|]. split.
  - intros ->. rewrite E. cbn [fst]. subst n. cbn [default].
    split; [now rewrite length_map, length_seq|].
    apply List.Forall_forall. intros v Hv.
    apply in_map_iff in Hv as (i & <- & Hi). apply in_seq in Hi.
    apply waveformSample_range. lia.
  - intros ->. reflexivity.
Qed.

End WaveformMoreFacts.

(** A preview asked for with a tempo that is not a number. *)
Lemma X22_waveform_not_finite_tempo_witness :
  fst (generateWaveformData (fun x => x) (fun _ => 1 # 2) NaN (Some 3%nat) 0)
  = [NaN; NaN; NaN].
Proof.
  exact (X22_waveform_not_finite_tempo (fun x => x) (fun _ => 1 # 2) NaN 3 0 I).
Defined.
